(** * LennyTapes: hybrid retrieval, ranking metrics and judged evaluation

    A shallow embedding of
    - [text_to_or_tsquery] and [hybrid_search] (PL/pgSQL, the migration
      "Fix Hybrid Search to use OR logic for keywords"),
    - [match_segments] (scripts/setup-search.sql),
    - [searchSegments] (lib/search.ts),
    - [estimateRelevance] and [calculateNDCG] (scripts/evaluate-search.ts),
    - [evaluateWithRagas], [runPythonScript], [checkThresholds],
      [evaluateBatch] and [aggregateResults] (lib/evaluation/ragas.ts).

    Numbers.  SQL [FLOAT] columns and the JavaScript numbers of the RAGAS
    wrapper are modelled as exact rationals ([Q]), so every definition of
    those parts evaluates.  The NDCG code calls [Math.log2]; there the
    numbers are real numbers ([R]) with the real base-2 logarithm.  Rounding,
    NaN and infinities are outside both models.

    Text.  SQL [TEXT] and JavaScript strings are [string]s of 8-bit
    characters; case folding is the ASCII one. *)

From Stdlib Require Import List String Ascii Bool Arith ZArith QArith Lia Psatz.
From Stdlib Require Import Qround Permutation Sorted DecimalString Reals.
Import ListNotations.

(** ** Text primitives *)

Definition char_code (c : ascii) : nat := nat_of_ascii c.

Definition in_range (lo hi : nat) (c : ascii) : bool :=
  (lo <=? char_code c)%nat && (char_code c <=? hi)%nat.

(** [lower(text)] / [String.prototype.toLowerCase] on ASCII letters. *)
Definition lower_char (c : ascii) : ascii :=
  if in_range 65 90 c then ascii_of_nat (char_code c + 32) else c.

Fixpoint lower (s : string) : string :=
  match s with
  | EmptyString => EmptyString
  | String c s' => String (lower_char c) (lower s')
  end.

(** The regular-expression class [\s]: tab, line feed, vertical tab,
    form feed, carriage return and space. *)
Definition is_space (c : ascii) : bool :=
  in_range 9 13 c || (char_code c =? 32)%nat.

(** The complement of the bracket expression [[^a-z0-9]]. *)
Definition is_a_z_0_9 (c : ascii) : bool :=
  in_range 97 122 c || in_range 48 57 c.

(** [regexp_split_to_array(s, '\s+')]: the pieces between maximal runs of
    white space; a leading or trailing run leaves an empty piece. [cur] is
    the piece being read (reversed), [in_ws] tells that the previous
    character belonged to a separator. *)
Fixpoint split_ws_from (s : string) (cur : list ascii) (in_ws : bool)
  : list string :=
  match s with
  | EmptyString => [string_of_list_ascii (rev cur)]
  | String c s' =>
      if is_space c then
        if in_ws then split_ws_from s' cur true
        else string_of_list_ascii (rev cur) :: split_ws_from s' [] true
      else split_ws_from s' (c :: cur) false
  end.

Definition regexp_split_ws (s : string) : list string :=
  split_ws_from s [] false.

(** [regexp_replace(word, '[^a-z0-9]', '', 'g')]. *)
Fixpoint strip_non_alnum (s : string) : string :=
  match s with
  | EmptyString => EmptyString
  | String c s' =>
      if is_a_z_0_9 c then String c (strip_non_alnum s')
      else strip_non_alnum s'
  end.

(** [String.prototype.includes]: [needle] occurs somewhere in [hay]. *)
Fixpoint includes (hay needle : string) : bool :=
  String.prefix needle hay ||
  match hay with
  | EmptyString => false
  | String _ hay' => includes hay' needle
  end.

(** Every character of [s] satisfies [p]. *)
Fixpoint all_chars (p : ascii -> bool) (s : string) : bool :=
  match s with
  | EmptyString => true
  | String c s' => p c && all_chars p s'
  end.

(** JavaScript truthiness of a value of type [string | null]. *)
Definition truthy (e : option string) : bool :=
  match e with
  | Some s => negb (String.eqb s EmptyString)
  | None => false
  end.

(** Keep the defined results of a partial map over a list. *)
Fixpoint filter_map {A B : Type} (f : A -> option B) (l : list A) : list B :=
  match l with
  | [] => []
  | x :: l' =>
      match f x with
      | Some y => y :: filter_map f l'
      | None => filter_map f l'
      end
  end.

(** ** Retrieval in the database: [text_to_or_tsquery], [hybrid_search]
    and [match_segments] *)

Section Retrieval.

(** PostgreSQL's text search is external to the repository: the type
    [tsquery], [to_tsquery('english', _)] (which may raise, here [None]),
    the value of [to_tsquery('')], the operator [||] on queries and the
    match operator [to_tsvector('english', text) @@ query]. *)
Variable tsquery : Type.
Variable to_tsquery_english : string -> option tsquery.
Variable to_tsquery_blank : tsquery.
Variable tsquery_or : tsquery -> tsquery -> tsquery.
Variable ts_match : string -> tsquery -> bool.

(** *** The OR query builder (PL/pgSQL [text_to_or_tsquery]) *)

(** One iteration of the [FOREACH word IN ARRAY words] loop; the state is
    the variable [tsq], [None] standing for SQL NULL. *)
Definition or_query_step (tsq : option tsquery) (word : string)
  : option tsquery :=
  if (3 <=? String.length word)%nat then
    let word := strip_non_alnum word in
    if (3 <=? String.length word)%nat then
      match to_tsquery_english (word ++ ":*") with
      | Some word_tsq =>
          match tsq with
          | None => Some word_tsq
          | Some q => Some (tsquery_or q word_tsq)
          end
      | None => tsq (* EXCEPTION WHEN OTHERS THEN NULL *)
      end
    else tsq
  else tsq.

Definition text_to_or_tsquery (query_text : string) : tsquery :=
  let words := regexp_split_ws (lower query_text) in
  match fold_left or_query_step words None with
  | None => to_tsquery_blank
  | Some tsq => tsq
  end.

(** The tokens of the query text: case-folded, split at white space,
    stripped of everything but [a-z0-9], of length at least 3. *)
Definition query_tokens (query_text : string) : list string :=
  filter (fun w => (3 <=? String.length w)%nat)
         (map strip_non_alnum (regexp_split_ws (lower query_text))).

(** The query terms of the tokens that convert. *)
Definition query_terms (query_text : string) : list tsquery :=
  filter_map (fun w => to_tsquery_english (w ++ ":*"))
             (query_tokens query_text).

Definition or_all (terms : list tsquery) : tsquery :=
  match terms with
  | [] => to_tsquery_blank
  | t :: ts => fold_left tsquery_or ts t
  end.

(** The loop state after a list of converted terms. *)
Definition accumulate (tsq : option tsquery) (terms : list tsquery)
  : option tsquery :=
  fold_left (fun acc t =>
               Some (match acc with None => t | Some q => tsquery_or q t end))
            terms tsq.

(** *** Tables and rows *)

(** pgvector is external as well: the type of embeddings and the cosine
    distance operator [<=>]; so is the ranking function
    [ts_rank_cd(to_tsvector('english', text), query)]. *)
Variable vector : Type.
Variable cosine_distance : vector -> vector -> Q.
Variable ts_rank_cd : string -> tsquery -> Q.

(** The columns of [segments] that both search functions return.  The JSONB
    and array columns ([claims], [frameworks], ..., [references]) are
    copied through unchanged by the code and left out here. *)
Record columns : Type := {
  col_id : Z;                   (* UUID PRIMARY KEY *)
  col_episode_id : Z;
  col_segment_key : string;
  col_speaker : string;
  col_timestamp_seconds : Z;
  col_text : string
}.

(** A row of the table [segments]; [embedding] may be NULL. *)
Record segment : Type := {
  seg_columns : columns;
  seg_embedding : option vector
}.

Definition seg_id (s : segment) : Z := col_id (seg_columns s).
Definition seg_text (s : segment) : string := col_text (seg_columns s).

(** A row of the CTEs [semantic], [keyword_only] and [combined]. *)
Record candidate : Type := {
  c_columns : columns;
  c_sim : Q
}.

Definition c_id (c : candidate) : Z := col_id (c_columns c).

(** A row of the CTE [keyword]. *)
Record keyword_row : Type := {
  kw_id : Z;
  kw_normalized_rank : Q
}.

(** A row returned by [hybrid_search]. *)
Record result_row : Type := {
  r_columns : columns;
  semantic_similarity : Q;
  keyword_rank : Q;
  combined_score : Q
}.

Definition r_id (r : result_row) : Z := col_id (r_columns r).

(** A row returned by [match_segments]. *)
Record match_row : Type := {
  m_columns : columns;
  similarity : Q
}.

(** *** Relational operators *)

Definition Qlt_bool (a b : Q) : bool := negb (Qle_bool b a).

Definition columns_eqb (a b : columns) : bool :=
  (col_id a =? col_id b)%Z && (col_episode_id a =? col_episode_id b)%Z &&
  String.eqb (col_segment_key a) (col_segment_key b) &&
  String.eqb (col_speaker a) (col_speaker b) &&
  (col_timestamp_seconds a =? col_timestamp_seconds b)%Z &&
  String.eqb (col_text a) (col_text b).

Definition candidate_eqb (a b : candidate) : bool :=
  columns_eqb (c_columns a) (c_columns b) && Qeq_bool (c_sim a) (c_sim b).

(** [ORDER BY]: a stable insertion sort for the order [le].  PostgreSQL
    leaves the order of rows with equal keys open; the model keeps them in
    the order of the input. *)
Fixpoint insert_by {A : Type} (le : A -> A -> bool) (x : A) (l : list A)
  : list A :=
  match l with
  | [] => [x]
  | y :: l' => if le x y then x :: l else y :: insert_by le x l'
  end.

Fixpoint order_by {A : Type} (le : A -> A -> bool) (l : list A) : list A :=
  match l with
  | [] => []
  | x :: l' => insert_by le x (order_by le l')
  end.

(** The aggregate [MAX]: NULL ([None]) over no rows. *)
Fixpoint sql_max (l : list Q) : option Q :=
  match l with
  | [] => None
  | x :: l' =>
      match sql_max l' with
      | None => Some x
      | Some m => Some (if Qle_bool x m then m else x)
      end
  end.

(** [UNION]: the rows of both inputs without duplicates (the first of
    equal rows is kept; PostgreSQL leaves the order of the result open). *)
Fixpoint distinct {A : Type} (eqb : A -> A -> bool) (l : list A) : list A :=
  match l with
  | [] => []
  | x :: l' => x :: filter (fun y => negb (eqb x y)) (distinct eqb l')
  end.

Definition union {A : Type} (eqb : A -> A -> bool) (l1 l2 : list A)
  : list A :=
  distinct eqb (l1 ++ l2).

(** [l LEFT JOIN r ON on]: every pair that satisfies [on], and a row of [l]
    without partner once, with NULLs ([None]) on the right. *)
Definition left_join {A B : Type} (on : A -> B -> bool)
  (l : list A) (r : list B) : list (A * option B) :=
  flat_map (fun a =>
              match filter (on a) r with
              | [] => [(a, None)]
              | bs => map (fun b => (a, Some b)) bs
              end) l.

(** [COALESCE(x, 0)]. *)
Definition coalesce0 (x : option Q) : Q :=
  match x with
  | Some v => v
  | None => 0
  end.

(** *** [hybrid_search] *)

(** Rows of [segments] with [to_tsvector('english', s.text) @@ or_tsquery]. *)
Definition matching (or_tsquery : tsquery) (segments : list segment)
  : list segment :=
  filter (fun s => ts_match (seg_text s) or_tsquery) segments.

(** The raw ranks of the matching rows. *)
Definition raw_ranks (or_tsquery : tsquery) (segments : list segment)
  : list Q :=
  map (fun s => ts_rank_cd (seg_text s) or_tsquery)
      (matching or_tsquery segments).

(** [max_keyword_rank] after the NULL-or-zero guard. *)
Definition max_keyword_rank (or_tsquery : tsquery) (segments : list segment)
  : Q :=
  match sql_max (raw_ranks or_tsquery segments) with
  | None => 1
  | Some m => if Qeq_bool m 0 then 1 else m
  end.

(** A segment with an embedding, paired with its distance to the query. *)
Definition with_distance (query_embedding : vector) (s : segment)
  : option (Q * segment) :=
  match seg_embedding s with
  | Some e => Some (cosine_distance e query_embedding, s)
  | None => None
  end.

Definition to_candidate (p : Q * segment) : candidate :=
  {| c_columns := seg_columns (snd p); c_sim := 1 - fst p |}.

Definition by_distance (a b : Q * segment) : bool :=
  Qle_bool (fst a) (fst b).

(** The rows that pass [WHERE embedding IS NOT NULL AND 1 - distance >
    match_threshold], in the order of [ORDER BY distance]. *)
Definition nearest (query_embedding : vector) (match_threshold : Q)
  (segments : list segment) : list (Q * segment) :=
  order_by by_distance
    (filter (fun p => Qlt_bool match_threshold (1 - fst p))
       (filter_map (with_distance query_embedding) segments)).

(** CTE [semantic]. *)
Definition semantic (query_embedding : vector) (match_count : nat)
  (match_threshold : Q) (segments : list segment) : list candidate :=
  map to_candidate
    (firstn (match_count * 5)
       (nearest query_embedding match_threshold segments)).

(** CTE [keyword]. *)
Definition keyword (or_tsquery : tsquery) (segments : list segment)
  : list keyword_row :=
  map (fun s =>
         {| kw_id := seg_id s;
            kw_normalized_rank :=
              ts_rank_cd (seg_text s) or_tsquery /
              max_keyword_rank or_tsquery segments |})
      (matching or_tsquery segments).

(** [x NOT IN (SELECT sem.id FROM semantic sem)]; ids are never NULL. *)
Definition not_in_ids (x : Z) (sem : list candidate) : bool :=
  negb (existsb (fun c => (x =? c_id c)%Z) sem).

(** CTE [keyword_only].  Its [LIMIT] comes without [ORDER BY]: which rows
    PostgreSQL keeps is open, the model keeps the first ones of the
    table. *)
Definition keyword_only (or_tsquery : tsquery) (query_embedding : vector)
  (match_count : nat) (sem : list candidate) (segments : list segment)
  : list candidate :=
  firstn match_count
    (map to_candidate
       (filter (fun p => ts_match (seg_text (snd p)) or_tsquery &&
                         not_in_ids (seg_id (snd p)) sem)
          (filter_map (with_distance query_embedding) segments))).

(** CTE [combined]. *)
Definition combined (sem kw_only : list candidate) : list candidate :=
  union candidate_eqb sem kw_only.

(** The select list of the final query over [combined c LEFT JOIN keyword
    kw]. *)
Definition to_result (semantic_weight keyword_weight : Q)
  (p : candidate * option keyword_row) : result_row :=
  let (c, kw) := p in
  {| r_columns := c_columns c;
     semantic_similarity := c_sim c;
     keyword_rank := coalesce0 (option_map kw_normalized_rank kw);
     combined_score :=
       c_sim c * semantic_weight +
       coalesce0 (option_map kw_normalized_rank kw) * keyword_weight |}.

Definition by_combined_score_desc (a b : result_row) : bool :=
  Qle_bool (combined_score b) (combined_score a).

(** The joined and scored rows before [ORDER BY ... LIMIT]. *)
Definition scored (or_tsquery : tsquery) (query_embedding : vector)
  (match_count : nat) (semantic_weight keyword_weight match_threshold : Q)
  (segments : list segment) : list result_row :=
  let sem := semantic query_embedding match_count match_threshold segments in
  let kw_only :=
    keyword_only or_tsquery query_embedding match_count sem segments in
  map (to_result semantic_weight keyword_weight)
    (left_join (fun c kw => (c_id c =? kw_id kw)%Z)
       (combined sem kw_only) (keyword or_tsquery segments)).

(** [hybrid_search] over the table contents [segments].  [match_count] is a
    natural number: a negative [LIMIT] is an error in PostgreSQL. *)
Definition hybrid_search (segments : list segment)
  (query_text : string) (query_embedding : vector) (match_count : nat)
  (semantic_weight keyword_weight match_threshold : Q) : list result_row :=
  let or_tsquery := text_to_or_tsquery query_text in
  firstn match_count
    (order_by by_combined_score_desc
       (scored or_tsquery query_embedding match_count
          semantic_weight keyword_weight match_threshold segments)).



(** The fused score of passage [x] in the words of the specification: the
    score of a passage on a path that did not return it counts as 0. *)
Definition fused_score_missing_as_zero (sem : list candidate)
  (kw : list keyword_row) (semantic_weight keyword_weight : Q) (x : Z) : Q :=
  coalesce0 (option_map c_sim (find (fun c => (c_id c =? x)%Z) sem)) *
    semantic_weight +
  coalesce0
    (option_map kw_normalized_rank (find (fun k => (kw_id k =? x)%Z) kw)) *
    keyword_weight.

(** The rows of a list of results that belong to passage [x]. *)
Definition rows_of (x : Z) (rows : list result_row) : list result_row :=
  filter (fun r => (r_id r =? x)%Z) rows.

(** *** [match_segments] *)

Definition match_segments (segments : list segment)
  (query_embedding : vector) (match_threshold : Q) (match_count : nat)
  : list match_row :=
  map (fun p => {| m_columns := seg_columns (snd p);
                   similarity := 1 - fst p |})
    (firstn match_count (nearest query_embedding match_threshold segments)).

(** *** Properties of the query builder *)

Lemma strip_non_alnum_length (s : string) :
  (String.length (strip_non_alnum s) <= String.length s)%nat.
Proof.
  induction s as [|c s IH]; simpl; [lia|].
  destruct (is_a_z_0_9 c); simpl; lia.
Qed.

(** The first length test of the loop is implied by the second. *)
Lemma or_query_step_token (tsq : option tsquery) (word : string) :
  or_query_step tsq word =
  if (3 <=? String.length (strip_non_alnum word))%nat then
    match to_tsquery_english (strip_non_alnum word ++ ":*") with
    | Some t => Some (match tsq with None => t | Some q => tsquery_or q t end)
    | None => tsq
    end
  else tsq.
Proof.
  unfold or_query_step.
  pose proof (strip_non_alnum_length word) as Hlen.
  destruct (3 <=? String.length (strip_non_alnum word))%nat eqn:Hs.
  - apply Nat.leb_le in Hs.
    assert (Hw : (3 <=? String.length word)%nat = true)
      by (apply Nat.leb_le; lia).
    rewrite Hw.
    destruct (to_tsquery_english _); [destruct tsq|]; reflexivity.
  - destruct (3 <=? String.length word)%nat; reflexivity.
Qed.

Lemma fold_or_query_step (words : list string) (tsq : option tsquery) :
  fold_left or_query_step words tsq =
  accumulate tsq
    (filter_map (fun w => to_tsquery_english (w ++ ":*"))
       (filter (fun w => (3 <=? String.length w)%nat)
          (map strip_non_alnum words))).
Proof.
  revert tsq.
  induction words as [|w words IH]; intros tsq; [reflexivity|].
  cbn [fold_left map filter].
  rewrite or_query_step_token, IH.
  destruct (3 <=? String.length (strip_non_alnum w))%nat; [|reflexivity].
  cbn [filter_map].
  destruct (to_tsquery_english (strip_non_alnum w ++ ":*")); reflexivity.
Qed.

Lemma accumulate_some (terms : list tsquery) (q : tsquery) :
  accumulate (Some q) terms = Some (fold_left tsquery_or terms q).
Proof.
  revert q. induction terms as [|t terms IH]; intros q; [reflexivity|].
  unfold accumulate in *. cbn [fold_left]. apply IH.
Qed.

Lemma text_to_or_tsquery_or_all (query_text : string) :
  text_to_or_tsquery query_text = or_all (query_terms query_text).
Proof.
  unfold text_to_or_tsquery, query_terms, query_tokens.
  cbv zeta. rewrite fold_or_query_step.
  destruct (filter_map _ _) as [|t ts]; [reflexivity|].
  unfold accumulate. cbn [fold_left or_all].
  fold (accumulate (Some t) ts). now rewrite accumulate_some.
Qed.

Hypothesis ts_match_or : forall text a b,
  ts_match text (tsquery_or a b) = ts_match text a || ts_match text b.

Lemma ts_match_fold_or (text : string) (ts : list tsquery) (t : tsquery) :
  ts_match text (fold_left tsquery_or ts t) =
  ts_match text t || existsb (ts_match text) ts.
Proof.
  revert t. induction ts as [|u ts IH]; intros t; cbn [fold_left existsb].
  - now rewrite orb_false_r.
  - now rewrite IH, ts_match_or, orb_assoc.
Qed.

(** C4. The query built from [query_text] is the OR of the terms of
    exactly the case-folded, stripped tokens of length at least 3, tokens
    whose conversion raises being left out; a text matches it exactly when
    it matches one of these terms (and when there is no term the result is
    [to_tsquery('')]). *)
Theorem text_to_or_tsquery_any_token (query_text : string) :
  query_tokens query_text =
    filter (fun w => (3 <=? String.length w)%nat)
      (map strip_non_alnum (regexp_split_ws (lower query_text))) /\
  query_terms query_text =
    filter_map (fun w => to_tsquery_english (w ++ ":*"))
      (query_tokens query_text) /\
  text_to_or_tsquery query_text = or_all (query_terms query_text) /\
  (query_terms query_text = [] ->
     text_to_or_tsquery query_text = to_tsquery_blank) /\
  (query_terms query_text <> [] ->
     forall text,
       ts_match text (text_to_or_tsquery query_text) =
       existsb (ts_match text) (query_terms query_text)).
Proof.
  repeat split.
  - apply text_to_or_tsquery_or_all.
  - intros H. now rewrite text_to_or_tsquery_or_all, H.
  - intros Hne text. rewrite text_to_or_tsquery_or_all.
    destruct (query_terms query_text) as [|t ts]; [contradiction|].
    cbn [or_all existsb]. apply ts_match_fold_or.
Qed.

(** *** Properties of the relational operators *)

Lemma filter_map_In {A B : Type} (f : A -> option B) (l : list A) (y : B) :
  In y (filter_map f l) <-> exists x, In x l /\ f x = Some y.
Proof.
  induction l as [|a l IH]; simpl.
  - split; [intros []|intros [x [[] _]]].
  - destruct (f a) as [b|] eqn:Hfa; simpl; rewrite IH; split.
    + intros [<-|[x [Hx Hfx]]]; [exists a|exists x]; auto.
    + intros [x [[<-|Hx] Hfx]]; [left; congruence|right; exists x; auto].
    + intros [x [Hx Hfx]]; exists x; auto.
    + intros [x [[<-|Hx] Hfx]]; [congruence|exists x; auto].
Qed.

Lemma insert_by_perm {A : Type} (le : A -> A -> bool) (x : A) (l : list A) :
  Permutation (insert_by le x l) (x :: l).
Proof.
  induction l as [|y l IH]; simpl; [reflexivity|].
  destruct (le x y); [reflexivity|].
  rewrite IH. apply perm_swap.
Qed.

Lemma order_by_perm {A : Type} (le : A -> A -> bool) (l : list A) :
  Permutation (order_by le l) l.
Proof.
  induction l as [|x l IH]; simpl; [reflexivity|].
  rewrite insert_by_perm. now apply perm_skip.
Qed.

Lemma order_by_In {A : Type} (le : A -> A -> bool) (l : list A) (x : A) :
  In x (order_by le l) <-> In x l.
Proof.
  split; apply Permutation_in;
    [apply order_by_perm|symmetry; apply order_by_perm].
Qed.

Section Ordering.

Variable A : Type.
Variable le : A -> A -> bool.
Hypothesis le_total : forall a b, le a b = false -> le b a = true.
Hypothesis le_trans : forall a b c,
  le a b = true -> le b c = true -> le a c = true.

Lemma insert_by_sorted (x : A) (l : list A) :
  StronglySorted (fun a b => le a b = true) l ->
  StronglySorted (fun a b => le a b = true) (insert_by le x l).
Proof.
  induction 1 as [|y l Hs IH Hall]; simpl.
  - constructor; constructor.
  - destruct (le x y) eqn:Hxy.
    + constructor; [now constructor|].
      constructor; [assumption|].
      eapply Forall_impl; [|exact Hall].
      intros z Hz. now apply le_trans with y.
    + constructor; [assumption|].
      apply Forall_forall. intros z Hz.
      apply (Permutation_in _ (insert_by_perm le x l)) in Hz.
      destruct Hz as [<-|Hz]; [now apply le_total|].
      rewrite Forall_forall in Hall. now apply Hall.
Qed.

Lemma order_by_sorted (l : list A) :
  StronglySorted (fun a b => le a b = true) (order_by le l).
Proof.
  induction l as [|x l IH]; simpl; [constructor|].
  now apply insert_by_sorted.
Qed.

End Ordering.

Lemma firstn_In {A : Type} (n : nat) (l : list A) (x : A) :
  In x (firstn n l) -> In x l.
Proof.
  intros H. rewrite <- (firstn_skipn n l). apply in_or_app. now left.
Qed.

Lemma StronglySorted_firstn {A : Type} (R : A -> A -> Prop) (n : nat)
  (l : list A) :
  StronglySorted R l -> StronglySorted R (firstn n l).
Proof.
  intros Hs. revert n.
  induction Hs as [|x l Hs IH Hall]; intros [|n]; simpl; try constructor.
  - apply IH.
  - apply Forall_forall. intros y Hy. apply firstn_In in Hy.
    rewrite Forall_forall in Hall. now apply Hall.
Qed.

Lemma StronglySorted_weaken {A : Type} (R R' : A -> A -> Prop)
  (l : list A) :
  (forall a b, R a b -> R' a b) ->
  StronglySorted R l -> StronglySorted R' l.
Proof.
  intros Himp. induction 1 as [|x l Hs IH Hall]; constructor;
    [assumption|].
  eapply Forall_impl; [|exact Hall]. intros y. apply Himp.
Qed.

Lemma distinct_In {A : Type} (eqb : A -> A -> bool) (l : list A) (x : A) :
  In x (distinct eqb l) -> In x l.
Proof.
  induction l as [|y l IH]; simpl; [auto|].
  intros [->|H]; [now left|].
  apply filter_In in H. right. now apply IH.
Qed.

Lemma left_join_In {A B : Type} (on : A -> B -> bool) (l : list A)
  (r : list B) (a : A) (ob : option B) :
  In (a, ob) (left_join on l r) ->
  In a l /\
  match ob with
  | None => filter (on a) r = []
  | Some b => In b r /\ on a b = true
  end.
Proof.
  unfold left_join. rewrite in_flat_map.
  intros [a' [Ha' Hin]].
  destruct (filter (on a') r) as [|b0 bs] eqn:Hf.
  - destruct Hin as [Heq|[]]. inversion Heq; subst. auto.
  - apply in_map_iff in Hin. destruct Hin as [b [Heq Hb]].
    inversion Heq; subst. split; [assumption|].
    rewrite <- Hf in Hb. now apply filter_In in Hb.
Qed.

Lemma sql_max_none (l : list Q) : sql_max l = None -> l = [].
Proof.
  destruct l as [|x l]; [reflexivity|]. simpl.
  destruct (sql_max l); discriminate.
Qed.

Lemma sql_max_some (l : list Q) (m : Q) :
  sql_max l = Some m -> In m l /\ Forall (fun x => x <= m) l.
Proof.
  revert m. induction l as [|x l IH]; intros m; simpl; [discriminate|].
  destruct (sql_max l) as [m'|] eqn:Hm'.
  - destruct (IH m' eq_refl) as [Hin Hall].
    destruct (Qle_bool x m') eqn:Hle; intros [= <-].
    + split; [now right|]. constructor; [now apply Qle_bool_iff|assumption].
    + assert (Hlt : m' < x).
      { apply Qnot_le_lt. intros H. apply Qle_bool_iff in H. congruence. }
      split; [now left|]. constructor; [apply Qle_refl|].
      eapply Forall_impl; [|exact Hall].
      intros y Hy. simpl in Hy. apply Qle_trans with m'; [assumption|].
      now apply Qlt_le_weak.
  - intros [= <-]. apply sql_max_none in Hm'. subst l.
    split; [now left|]. constructor; [apply Qle_refl|constructor].
Qed.

(** *** Lexical normalisation *)

Lemma max_keyword_rank_nonzero (or_tsquery : tsquery)
  (segments : list segment) :
  ~ max_keyword_rank or_tsquery segments == 0.
Proof.
  unfold max_keyword_rank.
  destruct (sql_max _) as [m|]; [|discriminate].
  destruct (Qeq_bool m 0) eqn:Hm; [discriminate|].
  intros H. apply Qeq_bool_iff in H. congruence.
Qed.

Lemma max_keyword_rank_cases (or_tsquery : tsquery)
  (segments : list segment) :
  match sql_max (raw_ranks or_tsquery segments) with
  | None =>
      matching or_tsquery segments = [] /\
      max_keyword_rank or_tsquery segments = 1
  | Some m =>
      In m (raw_ranks or_tsquery segments) /\
      Forall (fun r => r <= m) (raw_ranks or_tsquery segments) /\
      max_keyword_rank or_tsquery segments = (if Qeq_bool m 0 then 1 else m)
  end.
Proof.
  unfold max_keyword_rank. fold (raw_ranks or_tsquery segments).
  destruct (sql_max (raw_ranks or_tsquery segments)) as [m|] eqn:Hmax.
  - destruct (sql_max_some _ _ Hmax) as [Hin Hall]. auto.
  - apply sql_max_none in Hmax. unfold raw_ranks in Hmax.
    apply map_eq_nil in Hmax. auto.
Qed.

Lemma normalized_rank_bounds (or_tsquery : tsquery)
  (segments : list segment) (s : segment) :
  (forall s', In s' (matching or_tsquery segments) ->
              0 <= ts_rank_cd (seg_text s') or_tsquery) ->
  In s (matching or_tsquery segments) ->
  0 <= ts_rank_cd (seg_text s) or_tsquery /
       max_keyword_rank or_tsquery segments <= 1.
Proof.
  intros Hnonneg Hs.
  pose proof (Hnonneg s Hs) as Hs0.
  pose proof (max_keyword_rank_cases or_tsquery segments) as Hc.
  assert (Hr : In (ts_rank_cd (seg_text s) or_tsquery)
                  (raw_ranks or_tsquery segments)).
  { unfold raw_ranks.
    apply (in_map (fun s => ts_rank_cd (seg_text s) or_tsquery)), Hs. }
  destruct (sql_max (raw_ranks or_tsquery segments)) as [m|].
  - destruct Hc as [_ [Hall ->]].
    rewrite Forall_forall in Hall. pose proof (Hall _ Hr) as Hle.
    simpl in Hle.
    destruct (Qeq_bool m 0) eqn:Hm.
    + apply Qeq_bool_iff in Hm.
      assert (Hz : ts_rank_cd (seg_text s) or_tsquery == 0)
        by (apply Qle_antisym; [rewrite <- Hm|]; assumption).
      rewrite Hz. split; [apply Qle_shift_div_l|apply Qle_shift_div_r];
        lra.
    + assert (Hpos : 0 < m).
      { apply Qnot_le_lt. intros H.
        assert (m == 0) by (apply Qle_antisym; [assumption|lra]).
        apply Qeq_bool_iff in H0. congruence. }
      split; [apply Qle_shift_div_l|apply Qle_shift_div_r]; lra.
  - destruct Hc as [Hnil _]. rewrite Hnil in Hs. destruct Hs.
Qed.

(** C5. Every row of [keyword] carries the raw rank of a matching segment
    divided by [max_keyword_rank], which is the largest raw rank of the
    matching segments unless there is none or it is 0, in which case it
    is 1; the divisor is never 0, and with non-negative raw ranks every
    normalised rank lies in [[0, 1]]. *)
Theorem keyword_rank_normalization (or_tsquery : tsquery)
  (segments : list segment) :
  let m := max_keyword_rank or_tsquery segments in
  let hits := matching or_tsquery segments in
  let rank s := ts_rank_cd (seg_text s) or_tsquery in
  ~ m == 0 /\
  match sql_max (map rank hits) with
  | None => hits = [] /\ m = 1
  | Some best =>
      In best (map rank hits) /\ Forall (fun r => r <= best) (map rank hits) /\
      m = (if Qeq_bool best 0 then 1 else best)
  end /\
  keyword or_tsquery segments =
    map (fun s => {| kw_id := seg_id s;
                     kw_normalized_rank := rank s / m |}) hits /\
  ((forall s, In s hits -> 0 <= rank s) ->
   Forall (fun k => 0 <= kw_normalized_rank k <= 1)
          (keyword or_tsquery segments)).
Proof.
  cbv zeta. split; [apply max_keyword_rank_nonzero|].
  split; [apply max_keyword_rank_cases|].
  split; [reflexivity|].
  intros Hnonneg. unfold keyword. apply Forall_forall.
  intros k Hk. apply in_map_iff in Hk. destruct Hk as [s [<- Hs]].
  cbn [kw_normalized_rank]. now apply normalized_rank_bounds.
Qed.

(** *** Where the rows of [hybrid_search] come from *)

Lemma with_distance_In (query_embedding : vector) (segments : list segment)
  (p : Q * segment) :
  In p (filter_map (with_distance query_embedding) segments) <->
  In (snd p) segments /\
  exists e, seg_embedding (snd p) = Some e /\
            fst p = cosine_distance e query_embedding.
Proof.
  rewrite filter_map_In. unfold with_distance. split.
  - intros [s [Hs Hp]]. destruct (seg_embedding s) as [e|] eqn:He;
      [|discriminate].
    injection Hp as <-. simpl. split; [assumption|]. exists e. auto.
  - intros [Hs [e [He Hd]]]. exists (snd p). split; [assumption|].
    rewrite He, <- Hd. now destruct p.
Qed.

Lemma nearest_In (query_embedding : vector) (match_threshold : Q)
  (segments : list segment) (p : Q * segment) :
  In p (nearest query_embedding match_threshold segments) ->
  In (snd p) segments /\
  exists e, seg_embedding (snd p) = Some e /\
            fst p = cosine_distance e query_embedding.
Proof.
  unfold nearest. rewrite order_by_In, filter_In.
  intros [H _]. now apply with_distance_In.
Qed.

Lemma semantic_In (query_embedding : vector) (match_count : nat)
  (match_threshold : Q) (segments : list segment) (c : candidate) :
  In c (semantic query_embedding match_count match_threshold segments) ->
  exists s e, In s segments /\ seg_embedding s = Some e /\
    c_columns c = seg_columns s /\
    c_sim c = 1 - cosine_distance e query_embedding.
Proof.
  unfold semantic. rewrite in_map_iff. intros [p [<- Hp]].
  apply firstn_In, nearest_In in Hp. destruct Hp as [Hs [e [He Hd]]].
  exists (snd p), e. simpl. rewrite Hd. auto.
Qed.

Lemma keyword_only_In (or_tsquery : tsquery) (query_embedding : vector)
  (match_count : nat) (sem : list candidate) (segments : list segment)
  (c : candidate) :
  In c (keyword_only or_tsquery query_embedding match_count sem segments) ->
  exists s e, In s segments /\ seg_embedding s = Some e /\
    c_columns c = seg_columns s /\
    c_sim c = 1 - cosine_distance e query_embedding /\
    ts_match (seg_text s) or_tsquery = true /\
    not_in_ids (seg_id s) sem = true.
Proof.
  unfold keyword_only. intros Hc. apply firstn_In in Hc.
  apply in_map_iff in Hc. destruct Hc as [p [<- Hp]].
  apply filter_In in Hp. destruct Hp as [Hp Hcond].
  apply with_distance_In in Hp. destruct Hp as [Hs [e [He Hd]]].
  apply andb_true_iff in Hcond. destruct Hcond as [Hm Hn].
  exists (snd p), e. simpl. rewrite Hd. auto 6.
Qed.

Lemma combined_In (sem kw_only : list candidate) (c : candidate) :
  In c (combined sem kw_only) -> In c sem \/ In c kw_only.
Proof.
  unfold combined, union. intros H. apply distinct_In in H.
  now apply in_app_or.
Qed.

Lemma keyword_In (or_tsquery : tsquery) (segments : list segment)
  (k : keyword_row) :
  In k (keyword or_tsquery segments) <->
  exists s, In s (matching or_tsquery segments) /\
    kw_id k = seg_id s /\
    kw_normalized_rank k =
      ts_rank_cd (seg_text s) or_tsquery /
      max_keyword_rank or_tsquery segments /\
    k = {| kw_id := seg_id s;
           kw_normalized_rank :=
             ts_rank_cd (seg_text s) or_tsquery /
             max_keyword_rank or_tsquery segments |}.
Proof.
  unfold keyword. rewrite in_map_iff. split.
  - intros [s [<- Hs]]. exists s. auto.
  - intros [s [Hs [_ [_ ->]]]]. exists s. auto.
Qed.

Lemma scored_In (or_tsquery : tsquery) (query_embedding : vector)
  (match_count : nat) (semantic_weight keyword_weight match_threshold : Q)
  (segments : list segment) (r : result_row) :
  In r (scored or_tsquery query_embedding match_count semantic_weight
          keyword_weight match_threshold segments) ->
  combined_score r =
    semantic_similarity r * semantic_weight + keyword_rank r * keyword_weight /\
  (exists s e, In s segments /\ seg_columns s = r_columns r /\
     seg_embedding s = Some e /\
     semantic_similarity r = 1 - cosine_distance e query_embedding) /\
  ((exists s, In s (matching or_tsquery segments) /\ seg_id s = r_id r /\
      keyword_rank r =
        ts_rank_cd (seg_text s) or_tsquery /
        max_keyword_rank or_tsquery segments) \/
   ((forall s, In s (matching or_tsquery segments) -> seg_id s <> r_id r) /\
    keyword_rank r = 0)).
Proof.
  unfold scored. cbv zeta. rewrite in_map_iff.
  intros [[c okw] [<- Hj]].
  apply left_join_In in Hj. destruct Hj as [Hc Hkw].
  split; [reflexivity|]. split.
  - apply combined_In in Hc. destruct Hc as [Hc|Hc].
    + apply semantic_In in Hc. destruct Hc as [s [e [Hs [He [Hcol Hsim]]]]].
      exists s, e. cbn. auto.
    + apply keyword_only_In in Hc.
      destruct Hc as [s [e [Hs [He [Hcol [Hsim _]]]]]].
      exists s, e. cbn. auto.
  - destruct okw as [k|].
    + left. destruct Hkw as [Hk Hon].
      apply keyword_In in Hk. destruct Hk as [s [Hs [Hid [Hrank _]]]].
      apply Z.eqb_eq in Hon. exists s. cbn. unfold r_id. cbn.
      unfold c_id in Hon. rewrite <- Hid. auto.
    + right. split; [|reflexivity].
      intros s Hs Hid.
      assert (Hin : In {| kw_id := seg_id s;
                          kw_normalized_rank :=
                            ts_rank_cd (seg_text s) or_tsquery /
                            max_keyword_rank or_tsquery segments |}
                       (filter (fun kw => (c_id c =? kw_id kw)%Z)
                               (keyword or_tsquery segments))).
      { apply filter_In. split.
        - apply keyword_In. exists s. auto.
        - cbn. apply Z.eqb_eq. unfold r_id in Hid. cbn in Hid. now symmetry. }
      rewrite Hkw in Hin. destruct Hin.
Qed.

Lemma by_combined_score_desc_total (a b : result_row) :
  by_combined_score_desc a b = false -> by_combined_score_desc b a = true.
Proof.
  unfold by_combined_score_desc. intros H. apply Qle_bool_iff.
  apply Qlt_le_weak, Qnot_le_lt. intros Hle.
  apply Qle_bool_iff in Hle. congruence.
Qed.

Lemma by_combined_score_desc_trans (a b c : result_row) :
  by_combined_score_desc a b = true -> by_combined_score_desc b c = true ->
  by_combined_score_desc a c = true.
Proof.
  unfold by_combined_score_desc. rewrite !Qle_bool_iff.
  intros H1 H2. now apply Qle_trans with (combined_score b).
Qed.

Lemma hybrid_search_sorted (segments : list segment) (query_text : string)
  (query_embedding : vector) (match_count : nat)
  (semantic_weight keyword_weight match_threshold : Q) :
  StronglySorted (fun a b => combined_score b <= combined_score a)
    (hybrid_search segments query_text query_embedding match_count
       semantic_weight keyword_weight match_threshold).
Proof.
  unfold hybrid_search. cbv zeta. apply StronglySorted_firstn.
  eapply (StronglySorted_weaken
            (fun a b => by_combined_score_desc a b = true)).
  - intros a b H. now apply Qle_bool_iff.
  - apply order_by_sorted.
    + apply by_combined_score_desc_total.
    + apply by_combined_score_desc_trans.
Qed.

Lemma hybrid_search_In_scored (segments : list segment)
  (query_text : string) (query_embedding : vector) (match_count : nat)
  (semantic_weight keyword_weight match_threshold : Q) (r : result_row) :
  In r (hybrid_search segments query_text query_embedding match_count
          semantic_weight keyword_weight match_threshold) ->
  In r (scored (text_to_or_tsquery query_text) query_embedding match_count
          semantic_weight keyword_weight match_threshold segments).
Proof.
  unfold hybrid_search. cbv zeta. intros H.
  apply firstn_In in H. now apply order_by_In in H.
Qed.

Lemma left_join_covers {A B : Type} (on : A -> B -> bool) (l : list A)
  (r : list B) (a : A) :
  In a l -> exists ob, In (a, ob) (left_join on l r).
Proof.
  intros Ha. unfold left_join.
  destruct (filter (on a) r) as [|b bs] eqn:Hf.
  - exists None. apply in_flat_map. exists a. split; [assumption|].
    rewrite Hf. now left.
  - exists (Some b). apply in_flat_map. exists a. split; [assumption|].
    rewrite Hf. now left.
Qed.

(** C1 (as the code has it). Every fused candidate has
    [combined_score = semantic_similarity * semantic_weight +
    keyword_rank * keyword_weight], where [keyword_rank] is the normalised
    rank of a matching segment with this id, or 0 when no matching segment
    has this id, and [semantic_similarity] is always 1 minus the cosine
    distance of a segment with these columns: a candidate that the vector
    path did not return (a lexical match found by [keyword_only]) is fused
    with its cosine similarity, not with 0.  Every row of the CTE
    [combined] is scored.  [hybrid_search] returns the first [match_count]
    of the candidates arranged in descending order of [combined_score]:
    its rows are candidates, in descending order of score, at most
    [match_count] of them. *)
Theorem hybrid_search_fused_ranking (segments : list segment)
  (query_text : string) (query_embedding : vector) (match_count : nat)
  (semantic_weight keyword_weight match_threshold : Q) :
  let or_tsquery := text_to_or_tsquery query_text in
  let fused := scored or_tsquery query_embedding match_count
                 semantic_weight keyword_weight match_threshold segments in
  let out := hybrid_search segments query_text query_embedding match_count
               semantic_weight keyword_weight match_threshold in
  let sem := semantic query_embedding match_count match_threshold segments in
  let kw_only :=
    keyword_only or_tsquery query_embedding match_count sem segments in
  Forall (fun r =>
    combined_score r =
      semantic_similarity r * semantic_weight +
      keyword_rank r * keyword_weight /\
    (exists s e, In s segments /\ seg_columns s = r_columns r /\
       seg_embedding s = Some e /\
       semantic_similarity r = 1 - cosine_distance e query_embedding) /\
    ((exists s, In s (matching or_tsquery segments) /\ seg_id s = r_id r /\
        keyword_rank r =
          ts_rank_cd (seg_text s) or_tsquery /
          max_keyword_rank or_tsquery segments) \/
     ((forall s, In s (matching or_tsquery segments) -> seg_id s <> r_id r) /\
      keyword_rank r = 0))) fused /\
  (exists ranked,
     Permutation ranked fused /\
     StronglySorted (fun a b => combined_score b <= combined_score a) ranked /\
     out = firstn match_count ranked) /\
  (forall r, In r out -> In r fused) /\
  StronglySorted (fun a b => combined_score b <= combined_score a) out /\
  (List.length out <= match_count)%nat /\
  (forall c, In c (combined sem kw_only) ->
     exists r, In r fused /\ r_columns r = c_columns c /\
       semantic_similarity r = c_sim c) /\
  (forall r, In r fused -> ~ In (r_id r) (map c_id sem) ->
     exists s e, In s segments /\ seg_columns s = r_columns r /\
       seg_embedding s = Some e /\
       ts_match (seg_text s) or_tsquery = true /\
       semantic_similarity r = 1 - cosine_distance e query_embedding).
Proof.
  cbv zeta. split; [|split; [|split; [|split; [|split; [|split]]]]].
  - apply Forall_forall. intros r Hr. now apply scored_In in Hr.
  - exists (order_by by_combined_score_desc
              (scored (text_to_or_tsquery query_text) query_embedding
                 match_count semantic_weight keyword_weight match_threshold
                 segments)).
    split; [apply order_by_perm|]. split; [|reflexivity].
    eapply (StronglySorted_weaken
              (fun a b => by_combined_score_desc a b = true)).
    + intros a b H. now apply Qle_bool_iff.
    + apply order_by_sorted.
      * apply by_combined_score_desc_total.
      * apply by_combined_score_desc_trans.
  - apply hybrid_search_In_scored.
  - apply hybrid_search_sorted.
  - unfold hybrid_search. cbv zeta. apply firstn_le_length.
  - intros c Hc. unfold scored. cbv zeta.
    destruct (left_join_covers (fun c kw => (c_id c =? kw_id kw)%Z) _
                (keyword (text_to_or_tsquery query_text) segments) c Hc)
      as [okw Hj].
    exists (to_result semantic_weight keyword_weight (c, okw)).
    split; [|split; reflexivity].
    apply in_map_iff. now exists (c, okw).
  - intros r Hr Hnot. unfold scored in Hr. cbv zeta in Hr.
    apply in_map_iff in Hr. destruct Hr as [[c okw] [<- Hj]].
    apply left_join_In in Hj. destruct Hj as [Hc _].
    apply combined_In in Hc. destruct Hc as [Hc|Hc].
    + exfalso. apply Hnot. unfold r_id. cbn.
      apply in_map_iff. now exists c.
    + apply keyword_only_In in Hc.
      destruct Hc as [s [e [Hs [He [Hcol [Hsim [Hmatch _]]]]]]].
      exists s, e. cbn. auto 6.
Qed.


(** *** Uniqueness of ids *)

Lemma unique_key_determines_row {Row Key : Type} (key : Row -> Key)
  (rows : list Row) (a b : Row) :
  NoDup (map key rows) -> In a rows -> In b rows -> key a = key b -> a = b.
Proof.
  induction rows as [|x rows IH]; simpl; [intros _ []|].
  intros Hnd Ha Hb Hf. inversion Hnd as [|? ? Hnotin Hnd']; subst.
  destruct Ha as [<-|Ha], Hb as [<-|Hb]; auto.
  - exfalso. apply Hnotin. rewrite Hf. now apply in_map.
  - exfalso. apply Hnotin. rewrite <- Hf. now apply in_map.
Qed.

Lemma filter_keeps_unique_keys {Row Key : Type} (key : Row -> Key)
  (keep : Row -> bool) (rows : list Row) :
  NoDup (map key rows) -> NoDup (map key (filter keep rows)).
Proof.
  induction rows as [|x rows IH]; simpl; [auto|].
  intros Hnd. inversion Hnd as [|? ? Hnotin Hnd']; subst.
  destruct (keep x); simpl; [|auto].
  constructor; [|auto].
  intros Hin. apply Hnotin. apply in_map_iff in Hin.
  destruct Hin as [y [Hy Hin]]. apply filter_In in Hin.
  rewrite <- Hy. apply in_map. tauto.
Qed.

Lemma firstn_keeps_unique_keys {Row Key : Type} (key : Row -> Key)
  (n : nat) (rows : list Row) :
  NoDup (map key rows) -> NoDup (map key (firstn n rows)).
Proof.
  intros Hnd. rewrite <- (firstn_skipn n rows), map_app in Hnd.
  now apply NoDup_app_remove_r in Hnd.
Qed.

Lemma NoDup_with_distance (query_embedding : vector)
  (segments : list segment) :
  NoDup (map seg_id segments) ->
  NoDup (map (fun p => seg_id (snd p))
             (filter_map (with_distance query_embedding) segments)).
Proof.
  induction segments as [|s l IH]; simpl; [auto|].
  intros Hnd. inversion Hnd as [|? ? Hnotin Hnd']; subst.
  unfold with_distance at 1.
  destruct (seg_embedding s) as [e|]; [|auto].
  simpl. constructor; [|auto].
  intros Hin. apply Hnotin. apply in_map_iff in Hin.
  destruct Hin as [p [Hp Hin]]. apply with_distance_In in Hin.
  rewrite <- Hp. apply in_map. tauto.
Qed.

Lemma map_c_id_to_candidate (l : list (Q * segment)) :
  map c_id (map to_candidate l) = map (fun p => seg_id (snd p)) l.
Proof. rewrite map_map. reflexivity. Qed.

Lemma NoDup_semantic (query_embedding : vector) (match_count : nat)
  (match_threshold : Q) (segments : list segment) :
  NoDup (map seg_id segments) ->
  NoDup (map c_id
           (semantic query_embedding match_count match_threshold segments)).
Proof.
  intros Hnd. unfold semantic. rewrite map_c_id_to_candidate.
  apply firstn_keeps_unique_keys. unfold nearest.
  eapply Permutation_NoDup.
  - symmetry. apply Permutation_map, order_by_perm.
  - apply filter_keeps_unique_keys. now apply NoDup_with_distance.
Qed.

Lemma NoDup_keyword_only (or_tsquery : tsquery) (query_embedding : vector)
  (match_count : nat) (sem : list candidate) (segments : list segment) :
  NoDup (map seg_id segments) ->
  NoDup (map c_id
           (keyword_only or_tsquery query_embedding match_count sem
              segments)).
Proof.
  intros Hnd. unfold keyword_only. apply firstn_keeps_unique_keys.
  rewrite map_c_id_to_candidate.
  apply filter_keeps_unique_keys. now apply NoDup_with_distance.
Qed.

Lemma not_in_ids_spec (x : Z) (sem : list candidate) :
  not_in_ids x sem = true <-> ~ In x (map c_id sem).
Proof.
  unfold not_in_ids. rewrite negb_true_iff, <- not_true_iff_false.
  apply not_iff_compat. rewrite existsb_exists, in_map_iff. split.
  - intros [c [Hc Heq]]. apply Z.eqb_eq in Heq. exists c. auto.
  - intros [c [Heq Hc]]. exists c. split; [assumption|].
    apply Z.eqb_eq. auto.
Qed.

Lemma NoDup_candidates (or_tsquery : tsquery) (query_embedding : vector)
  (match_count : nat) (match_threshold : Q) (segments : list segment) :
  NoDup (map seg_id segments) ->
  let sem := semantic query_embedding match_count match_threshold segments in
  NoDup (map c_id
           (sem ++ keyword_only or_tsquery query_embedding match_count sem
                     segments)).
Proof.
  intros Hnd sem. rewrite map_app. apply NoDup_app.
  - now apply NoDup_semantic.
  - now apply NoDup_keyword_only.
  - intros x Hsem Hkw. apply in_map_iff in Hkw.
    destruct Hkw as [c [<- Hc]]. apply keyword_only_In in Hc.
    destruct Hc as [s [e [_ [_ [Hcol [_ [_ Hnot]]]]]]].
    apply not_in_ids_spec in Hnot. apply Hnot.
    unfold seg_id. rewrite <- Hcol. exact Hsem.
Qed.

Lemma columns_eqb_id (a b : columns) :
  columns_eqb a b = true -> col_id a = col_id b.
Proof.
  unfold columns_eqb. rewrite !andb_true_iff.
  intros [[[[[H _] _] _] _] _]. now apply Z.eqb_eq.
Qed.

Lemma distinct_NoDup_ids (l : list candidate) :
  NoDup (map c_id l) -> distinct candidate_eqb l = l.
Proof.
  induction l as [|x l IH]; simpl; [auto|].
  intros Hnd. inversion Hnd as [|? ? Hnotin Hnd']; subst.
  rewrite (IH Hnd'). f_equal.
  apply forallb_filter_id. apply forallb_forall.
  intros y Hy. apply negb_true_iff.
  destruct (candidate_eqb x y) eqn:Heq; [|reflexivity].
  exfalso. apply Hnotin.
  unfold candidate_eqb in Heq. apply andb_true_iff in Heq.
  destruct Heq as [Heq _]. apply columns_eqb_id in Heq.
  unfold c_id at 1. rewrite Heq. now apply (in_map c_id).
Qed.

Lemma filter_none {A : Type} (p : A -> bool) (l : list A) :
  (forall y, In y l -> p y = false) -> filter p l = [].
Proof.
  induction l as [|x l IH]; simpl; [auto|].
  intros H. rewrite (H x (or_introl eq_refl)). apply IH.
  intros y Hy. apply H. now right.
Qed.

Lemma filter_unique {A : Type} (f : A -> Z) (l : list A) (a : A) :
  NoDup (map f l) -> In a l ->
  filter (fun b => (f b =? f a)%Z) l = [a].
Proof.
  induction l as [|x l IH]; simpl; [intros _ []|].
  intros Hnd Ha. inversion Hnd as [|? ? Hnotin Hnd']; subst.
  destruct Ha as [->|Ha].
  - rewrite Z.eqb_refl. f_equal. apply filter_none.
    intros y Hy. apply Z.eqb_neq. intros Heq. apply Hnotin.
    rewrite <- Heq. now apply in_map.
  - assert (Hne : (f x =? f a)%Z = false).
    { apply Z.eqb_neq. intros Heq. apply Hnotin.
      rewrite Heq. now apply in_map. }
    rewrite Hne. now apply IH.
Qed.

Lemma filter_flat_map {A B : Type} (p : B -> bool) (q : A -> bool)
  (g : A -> list B) (l : list A) :
  (forall a b, In a l -> In b (g a) -> p b = q a) ->
  filter p (flat_map g l) = flat_map g (filter q l).
Proof.
  induction l as [|x l IH]; simpl; [auto|].
  intros H. rewrite filter_app, IH by (intros; apply H; auto).
  destruct (q x) eqn:Hq; simpl.
  - f_equal. apply forallb_filter_id, forallb_forall.
    intros b Hb. rewrite <- Hq. apply H; auto.
  - rewrite filter_none; [reflexivity|].
    intros b Hb. rewrite <- Hq. apply H; auto.
Qed.

Lemma filter_firstn_prefix {A : Type} (p : A -> bool) (n : nat)
  (l : list A) (r : A) :
  filter p l = [r] ->
  filter p (firstn n l) = [r] \/ filter p (firstn n l) = [].
Proof.
  intros H. rewrite <- (firstn_skipn n l), filter_app in H.
  destruct (filter p (firstn n l)) as [|x [|y t]]; auto.
  - left. simpl in H. injection H as -> _. reflexivity.
  - simpl in H. discriminate.
Qed.

Lemma filter_perm {A : Type} (q : A -> bool) (l l' : list A) :
  Permutation l l' -> Permutation (filter q l) (filter q l').
Proof.
  induction 1 as [|x l l' Hp IH|x y l|l l' l'' Hp1 IH1 Hp2 IH2]; simpl.
  - constructor.
  - destruct (q x); [now apply perm_skip|assumption].
  - destruct (q x), (q y); try reflexivity. apply perm_swap.
  - now transitivity (filter q l').
Qed.

Lemma filter_order_by_singleton {A : Type} (le : A -> A -> bool)
  (q : A -> bool) (l : list A) (r : A) :
  filter q l = [r] -> filter q (order_by le l) = [r].
Proof.
  intros H.
  assert (Hperm : Permutation (filter q (order_by le l)) [r]).
  { rewrite <- H. apply filter_perm, order_by_perm. }
  now apply Permutation_length_1_inv, Permutation_sym.
Qed.


Lemma filter_mapped {A B : Type} (p : B -> bool) (f : A -> B)
  (l : list A) :
  filter p (map f l) = map f (filter (fun x => p (f x)) l).
Proof.
  induction l as [|x l IH]; simpl; [reflexivity|].
  destruct (p (f x)); simpl; now rewrite IH.
Qed.

Lemma left_join_fst {A B : Type} (on : A -> B -> bool) (r : list B)
  (a : A) (b : A * option B) :
  In b (match filter (on a) r with
        | [] => [(a, None)]
        | bs => map (fun k => (a, Some k)) bs
        end) ->
  fst b = a.
Proof.
  destruct (filter (on a) r) as [|k ks].
  - intros [<-|[]]. reflexivity.
  - intros H. apply in_map_iff in H. destruct H as [k' [<- _]]. reflexivity.
Qed.

Lemma keyword_rows_of_segment (or_tsquery : tsquery)
  (segments : list segment) (s : segment) :
  NoDup (map seg_id segments) ->
  In s segments ->
  ts_match (seg_text s) or_tsquery = true ->
  filter (fun kw => (seg_id s =? kw_id kw)%Z) (keyword or_tsquery segments) =
  [{| kw_id := seg_id s;
      kw_normalized_rank :=
        ts_rank_cd (seg_text s) or_tsquery /
        max_keyword_rank or_tsquery segments |}].
Proof.
  intros Hnd Hs Hmatch. unfold keyword. rewrite filter_mapped. cbn [kw_id].
  rewrite (filter_ext _ (fun s' => (seg_id s' =? seg_id s)%Z))
    by (intros; apply Z.eqb_sym).
  rewrite (filter_unique seg_id); [reflexivity| |].
  - unfold matching. now apply filter_keeps_unique_keys.
  - unfold matching. apply filter_In. auto.
Qed.

Lemma scored_rows_of_segment (or_tsquery : tsquery)
  (query_embedding : vector) (match_count : nat)
  (semantic_weight keyword_weight match_threshold : Q)
  (segments : list segment) (s : segment) :
  NoDup (map seg_id segments) ->
  In s segments ->
  In (seg_id s)
     (map c_id
        (semantic query_embedding match_count match_threshold segments)) ->
  ts_match (seg_text s) or_tsquery = true ->
  exists e,
    seg_embedding s = Some e /\
    rows_of (seg_id s)
      (scored or_tsquery query_embedding match_count semantic_weight
         keyword_weight match_threshold segments) =
    [to_result semantic_weight keyword_weight
       ({| c_columns := seg_columns s;
           c_sim := 1 - cosine_distance e query_embedding |},
        Some {| kw_id := seg_id s;
                kw_normalized_rank :=
                  ts_rank_cd (seg_text s) or_tsquery /
                  max_keyword_rank or_tsquery segments |})].
Proof.
  intros Hnd Hs Hsem Hmatch.
  apply in_map_iff in Hsem. destruct Hsem as [c0 [Hid Hc0]].
  destruct (semantic_In _ _ _ _ _ Hc0) as [s' [e [Hs' [He [Hcol Hsim]]]]].
  assert (s' = s) as ->.
  { apply (unique_key_determines_row seg_id segments); auto.
    unfold seg_id at 1. now rewrite <- Hcol. }
  assert (Hc0eq : c0 = {| c_columns := seg_columns s;
                          c_sim := 1 - cosine_distance e query_embedding |}).
  { destruct c0 as [cols sim]. simpl in Hcol, Hsim. now subst. }
  exists e. split; [assumption|].
  unfold rows_of, scored. cbv zeta.
  set (sem := semantic query_embedding match_count match_threshold segments)
    in *.
  set (kwo := keyword_only or_tsquery query_embedding match_count sem
                segments).
  unfold combined, union.
  rewrite distinct_NoDup_ids
    by (apply (NoDup_candidates or_tsquery query_embedding match_count
                 match_threshold segments Hnd)).
  rewrite filter_mapped. unfold left_join.
  rewrite (filter_flat_map _ (fun c => (c_id c =? c_id c0)%Z)).
  - rewrite (filter_unique c_id).
    + cbn [flat_map]. rewrite app_nil_r, Hid.
      rewrite keyword_rows_of_segment by assumption.
      cbn [map]. now rewrite Hc0eq.
    + apply (NoDup_candidates or_tsquery query_embedding match_count
               match_threshold segments Hnd).
    + apply in_or_app. now left.
  - intros c b _ Hb.
    apply (left_join_fst (fun c kw => (c_id c =? kw_id kw)%Z)) in Hb.
    destruct b as [c' okw]. simpl in Hb. subst c'.
    unfold r_id. cbn. fold (c_id c). now rewrite Hid.
Qed.

(** C3 (as the code has it). With unique segment ids, a segment that is
    returned by the vector path ([semantic]) and matches the lexical query
    has exactly one row among the fused candidates, carrying its cosine
    similarity and its normalised keyword rank; after [ORDER BY ... LIMIT
    match_count] that row is returned once or, when the limit cuts it off,
    not at all. *)
Theorem both_paths_merged_once (segments : list segment)
  (query_text : string) (query_embedding : vector) (match_count : nat)
  (semantic_weight keyword_weight match_threshold : Q) (s : segment) :
  let or_tsquery := text_to_or_tsquery query_text in
  NoDup (map seg_id segments) ->
  In s segments ->
  In (seg_id s)
     (map c_id
        (semantic query_embedding match_count match_threshold segments)) ->
  ts_match (seg_text s) or_tsquery = true ->
  exists e r,
    seg_embedding s = Some e /\
    r_columns r = seg_columns s /\
    semantic_similarity r = 1 - cosine_distance e query_embedding /\
    keyword_rank r =
      ts_rank_cd (seg_text s) or_tsquery /
      max_keyword_rank or_tsquery segments /\
    combined_score r =
      semantic_similarity r * semantic_weight +
      keyword_rank r * keyword_weight /\
    rows_of (seg_id s)
      (scored or_tsquery query_embedding match_count semantic_weight
         keyword_weight match_threshold segments) = [r] /\
    (rows_of (seg_id s)
       (hybrid_search segments query_text query_embedding match_count
          semantic_weight keyword_weight match_threshold) = [r] \/
     rows_of (seg_id s)
       (hybrid_search segments query_text query_embedding match_count
          semantic_weight keyword_weight match_threshold) = []).
Proof.
  cbv zeta. intros Hnd Hs Hsem Hmatch.
  destruct (scored_rows_of_segment (text_to_or_tsquery query_text)
              query_embedding match_count semantic_weight keyword_weight
              match_threshold segments s Hnd Hs Hsem Hmatch)
    as [e [He Hrows]].
  refine (ex_intro _ e (ex_intro _ _
            (conj He (conj _ (conj _ (conj _ (conj _ (conj Hrows _))))))));
    try reflexivity.
  unfold hybrid_search. cbv zeta. unfold rows_of.
  apply filter_firstn_prefix, filter_order_by_singleton. exact Hrows.
Qed.

(** *** [match_segments] ranks by similarity *)

Lemma StronglySorted_map {A B : Type} (R : B -> B -> Prop) (f : A -> B)
  (l : list A) :
  StronglySorted (fun a b => R (f a) (f b)) l -> StronglySorted R (map f l).
Proof.
  induction 1 as [|x l Hs IH Hall]; simpl; constructor; [assumption|].
  apply Forall_forall. intros y Hy. apply in_map_iff in Hy.
  destruct Hy as [z [<- Hz]]. rewrite Forall_forall in Hall. now apply Hall.
Qed.

Lemma by_distance_total (a b : Q * segment) :
  by_distance a b = false -> by_distance b a = true.
Proof.
  unfold by_distance. intros H. apply Qle_bool_iff.
  apply Qlt_le_weak, Qnot_le_lt. intros Hle.
  apply Qle_bool_iff in Hle. congruence.
Qed.

Lemma by_distance_trans (a b c : Q * segment) :
  by_distance a b = true -> by_distance b c = true ->
  by_distance a c = true.
Proof.
  unfold by_distance. rewrite !Qle_bool_iff.
  intros H1 H2. now apply Qle_trans with (fst b).
Qed.

Lemma nearest_sorted (query_embedding : vector) (match_threshold : Q)
  (segments : list segment) :
  StronglySorted (fun a b => fst a <= fst b)
    (nearest query_embedding match_threshold segments).
Proof.
  unfold nearest.
  eapply (StronglySorted_weaken (fun a b => by_distance a b = true)).
  - intros a b H. now apply Qle_bool_iff.
  - apply order_by_sorted; [apply by_distance_total|apply by_distance_trans].
Qed.

Lemma match_segments_ranked (segments : list segment)
  (query_embedding : vector) (match_threshold : Q) (match_count : nat) :
  let out := match_segments segments query_embedding match_threshold
               match_count in
  StronglySorted (fun a b => similarity b <= similarity a) out /\
  (List.length out <= match_count)%nat /\
  Forall (fun r => exists s e, In s segments /\ seg_embedding s = Some e /\
            m_columns r = seg_columns s /\
            similarity r = 1 - cosine_distance e query_embedding) out.
Proof.
  cbv zeta. unfold match_segments. split; [|split].
  - apply StronglySorted_map. cbn [similarity].
    apply StronglySorted_firstn.
    eapply StronglySorted_weaken; [|apply nearest_sorted].
    intros a b H. cbn beta in H. unfold Qminus.
    apply Qplus_le_r. now apply Qopp_le_compat.
  - rewrite length_map. apply firstn_le_length.
  - apply Forall_forall. intros r Hr. apply in_map_iff in Hr.
    destruct Hr as [p [<- Hp]]. apply firstn_In, nearest_In in Hp.
    destruct Hp as [Hs [e [He Hd]]]. exists (snd p), e. cbn.
    rewrite Hd. auto.
Qed.

(** *** What the server may return *)







(** *** Further properties of the search functions *)

Lemma strip_non_alnum_chars (s : string) :
  all_chars is_a_z_0_9 (strip_non_alnum s) = true.
Proof.
  induction s as [|c s IH]; [reflexivity|]. simpl.
  destruct (is_a_z_0_9 c) eqn:Hc; [|exact IH].
  simpl. now rewrite Hc, IH.
Qed.

(** X1. Every token that [text_to_or_tsquery] hands to [to_tsquery]
    consists of the characters a-z and 0-9 only and has at least 3 of
    them: no capital, blank or operator character of the query text ever
    reaches [to_tsquery]. *)
Theorem query_tokens_alphanumeric (query_text : string) :
  Forall (fun w => (3 <= String.length w)%nat /\
                   all_chars is_a_z_0_9 w = true)
         (query_tokens query_text).
Proof.
  unfold query_tokens. apply Forall_forall. intros w Hw.
  apply filter_In in Hw. destruct Hw as [Hin Hlen].
  apply Nat.leb_le in Hlen. split; [assumption|].
  apply in_map_iff in Hin. destruct Hin as [raw [<- _]].
  apply strip_non_alnum_chars.
Qed.

Lemma filter_by_unique_key {Row : Type} (key : Row -> Z) (rows : list Row)
  (x : Z) :
  NoDup (map key rows) ->
  (List.length (filter (fun b => (x =? key b)%Z) rows) <= 1)%nat.
Proof.
  induction rows as [|b rows IH]; simpl; [lia|].
  intros Hnd. inversion Hnd as [|? ? Hnotin Hnd']; subst.
  destruct (x =? key b)%Z eqn:Hx; [|auto].
  apply Z.eqb_eq in Hx. subst x. simpl.
  rewrite filter_none; [simpl; lia|].
  intros y Hy. apply Z.eqb_neq. intros Heq. apply Hnotin.
  rewrite Heq. now apply in_map.
Qed.

Lemma left_join_keeps_left {A B : Type} (on : A -> B -> bool)
  (l : list A) (r : list B) :
  (forall a, (List.length (filter (on a) r) <= 1)%nat) ->
  map fst (left_join on l r) = l.
Proof.
  intros Hone. unfold left_join.
  induction l as [|a l IH]; [reflexivity|].
  cbn [flat_map]. rewrite map_app, IH. specialize (Hone a).
  destruct (filter (on a) r) as [|b [|b' t]]; [reflexivity|reflexivity|].
  simpl in Hone. lia.
Qed.

Lemma keyword_ids_unique (or_tsquery : tsquery) (segments : list segment) :
  NoDup (map seg_id segments) ->
  NoDup (map kw_id (keyword or_tsquery segments)).
Proof.
  intros Hnd. unfold keyword. rewrite map_map. cbn [kw_id].
  unfold matching. now apply filter_keeps_unique_keys.
Qed.

Lemma scored_ids (or_tsquery : tsquery) (query_embedding : vector)
  (match_count : nat) (semantic_weight keyword_weight match_threshold : Q)
  (segments : list segment) :
  NoDup (map seg_id segments) ->
  let sem := semantic query_embedding match_count match_threshold segments in
  map r_id (scored or_tsquery query_embedding match_count semantic_weight
              keyword_weight match_threshold segments) =
  map c_id (sem ++ keyword_only or_tsquery query_embedding match_count sem
                     segments).
Proof.
  intros Hnd sem. unfold scored. cbv zeta. fold sem.
  unfold combined, union.
  rewrite distinct_NoDup_ids
    by (apply (NoDup_candidates or_tsquery query_embedding match_count
                 match_threshold segments Hnd)).
  rewrite map_map.
  rewrite (map_ext _ (fun p => c_id (fst p))) by (now intros [c kw]).
  rewrite <- (map_map fst c_id). f_equal.
  apply left_join_keeps_left. intros c.
  apply filter_by_unique_key. now apply keyword_ids_unique.
Qed.

(** X2. With unique segment ids, [hybrid_search] returns no passage
    twice. *)
Theorem hybrid_search_no_duplicates (segments : list segment)
  (query_text : string) (query_embedding : vector) (match_count : nat)
  (semantic_weight keyword_weight match_threshold : Q) :
  NoDup (map seg_id segments) ->
  NoDup (map r_id
           (hybrid_search segments query_text query_embedding match_count
              semantic_weight keyword_weight match_threshold)).
Proof.
  intros Hnd. unfold hybrid_search. cbv zeta.
  apply firstn_keeps_unique_keys.
  eapply Permutation_NoDup.
  - symmetry. apply Permutation_map, order_by_perm.
  - rewrite scored_ids by assumption.
    apply (NoDup_candidates (text_to_or_tsquery query_text) query_embedding
             match_count match_threshold segments Hnd).
Qed.

Lemma nearest_above_threshold (query_embedding : vector)
  (match_threshold : Q) (segments : list segment) (p : Q * segment) :
  In p (nearest query_embedding match_threshold segments) ->
  match_threshold < 1 - fst p.
Proof.
  unfold nearest. rewrite order_by_In, filter_In. intros [_ H].
  unfold Qlt_bool in H. apply negb_true_iff in H.
  apply Qnot_le_lt. intros Hle. apply Qle_bool_iff in Hle. congruence.
Qed.

(** X3. In [hybrid_search] the similarity threshold is no hard filter:
    every returned row belongs to a segment with an embedding that either
    is more similar than [match_threshold] or matches the lexical query
    (a row of the second kind may lie at or below the threshold). *)
Theorem hybrid_search_threshold_or_match (segments : list segment)
  (query_text : string) (query_embedding : vector) (match_count : nat)
  (semantic_weight keyword_weight match_threshold : Q) :
  Forall (fun r =>
    exists s e, In s segments /\ seg_columns s = r_columns r /\
      seg_embedding s = Some e /\
      semantic_similarity r = 1 - cosine_distance e query_embedding /\
      (match_threshold < semantic_similarity r \/
       ts_match (seg_text s) (text_to_or_tsquery query_text) = true))
    (hybrid_search segments query_text query_embedding match_count
       semantic_weight keyword_weight match_threshold).
Proof.
  apply Forall_forall. intros r Hr. apply hybrid_search_In_scored in Hr.
  unfold scored in Hr. cbv zeta in Hr. apply in_map_iff in Hr.
  destruct Hr as [[c okw] [<- Hj]].
  apply left_join_In in Hj. destruct Hj as [Hc _].
  apply combined_In in Hc. destruct Hc as [Hc|Hc].
  - unfold semantic in Hc. apply in_map_iff in Hc.
    destruct Hc as [p [<- Hp]]. apply firstn_In in Hp.
    pose proof (nearest_above_threshold _ _ _ _ Hp) as Habove.
    apply nearest_In in Hp. destruct Hp as [Hs [e [He Hd]]].
    exists (snd p), e. cbn. rewrite <- Hd. auto 6.
  - apply keyword_only_In in Hc.
    destruct Hc as [s [e [Hs [He [Hcol [Hsim [Hm _]]]]]]].
    exists s, e. cbn. auto 7.
Qed.

(** X4. [match_segments] returns at most [match_count] rows, nearest
    first; each belongs to a segment with an embedding and is strictly
    more similar than [match_threshold]; with unique segment ids no
    segment is returned twice. *)
Theorem match_segments_above_threshold (segments : list segment)
  (query_embedding : vector) (match_threshold : Q) (match_count : nat) :
  let out := match_segments segments query_embedding match_threshold
               match_count in
  (List.length out <= match_count)%nat /\
  StronglySorted (fun a b => similarity b <= similarity a) out /\
  Forall (fun r => match_threshold < similarity r /\
            exists s e, In s segments /\ seg_embedding s = Some e /\
              m_columns r = seg_columns s /\
              similarity r = 1 - cosine_distance e query_embedding) out /\
  (NoDup (map seg_id segments) ->
   NoDup (map (fun r => col_id (m_columns r)) out)).
Proof.
  cbv zeta.
  destruct (match_segments_ranked segments query_embedding match_threshold
              match_count) as [Hsorted [Hlen Hfrom]].
  split; [exact Hlen|]. split; [exact Hsorted|]. split.
  - apply Forall_forall. intros r Hr. split.
    + unfold match_segments in Hr. apply in_map_iff in Hr.
      destruct Hr as [p [<- Hp]]. apply firstn_In in Hp. cbn.
      now apply nearest_above_threshold in Hp.
    + rewrite Forall_forall in Hfrom. now apply Hfrom.
  - intros Hnd. unfold match_segments. rewrite map_map. cbn.
    apply firstn_keeps_unique_keys. unfold nearest.
    eapply Permutation_NoDup.
    + symmetry. apply Permutation_map, order_by_perm.
    + apply filter_keeps_unique_keys.
      now apply (NoDup_with_distance query_embedding).
Qed.

(** X5. When some matching segment has a positive raw rank, the best
    lexical match is normalised to exactly 1: one row of [keyword] carries
    the full keyword weight. *)
Theorem best_keyword_rank_is_one (or_tsquery : tsquery)
  (segments : list segment) (s : segment) :
  In s (matching or_tsquery segments) ->
  0 < ts_rank_cd (seg_text s) or_tsquery ->
  Exists (fun k => kw_normalized_rank k == 1) (keyword or_tsquery segments).
Proof.
  intros Hs Hpos.
  pose proof (max_keyword_rank_cases or_tsquery segments) as Hc.
  assert (Hr : In (ts_rank_cd (seg_text s) or_tsquery)
                  (raw_ranks or_tsquery segments)).
  { unfold raw_ranks.
    apply (in_map (fun s => ts_rank_cd (seg_text s) or_tsquery)), Hs. }
  destruct (sql_max (raw_ranks or_tsquery segments)) as [best|].
  - destruct Hc as [Hin [Hall Hm]].
    rewrite Forall_forall in Hall. pose proof (Hall _ Hr) as Hle.
    simpl in Hle.
    assert (Hbest : 0 < best) by (eapply Qlt_le_trans; eassumption).
    destruct (Qeq_bool best 0) eqn:Hz.
    { apply Qeq_bool_iff in Hz. rewrite Hz in Hbest.
      now apply Qlt_irrefl in Hbest. }
    unfold raw_ranks in Hin. apply in_map_iff in Hin.
    destruct Hin as [s0 [Hrank Hs0]].
    apply Exists_exists.
    exists {| kw_id := seg_id s0;
              kw_normalized_rank :=
                ts_rank_cd (seg_text s0) or_tsquery /
                max_keyword_rank or_tsquery segments |}.
    split.
    + apply keyword_In. exists s0. auto.
    + cbn. rewrite Hm, Hrank. field. intros H0. rewrite H0 in Hbest.
      now apply Qlt_irrefl in Hbest.
  - destruct Hc as [Hnil _]. rewrite Hnil in Hs. destruct Hs.
Qed.

End Retrieval.

(** ** [searchSegments] (lib/search.ts) *)

(** A function that returns a value or throws an [Error] with a message. *)
Inductive outcome (A : Type) : Type :=
| Returned (value : A)
| Thrown (message : string).

Arguments Returned {A} value.
Arguments Thrown {A} message.

(** The object [{ data, error }] that [supabase.rpc] resolves to; [error]
    holds the [message] of the error object when there is one. *)
Record rpc_response (Row : Type) : Type := {
  data : option (list Row);
  error : option string
}.

Arguments data {Row} r.
Arguments error {Row} r.

(** The [options] argument: every field may be absent. *)
Record search_options : Type := {
  matchCount : option nat;
  semanticWeight : option Q;
  keywordWeight : option Q;
  matchThreshold : option Q
}.

(** [SEARCH_CONFIG]. *)
Definition SEARCH_CONFIG_semanticWeight : Q := 0.7.
Definition SEARCH_CONFIG_keywordWeight : Q := 0.3.
Definition SEARCH_CONFIG_defaultLimit : nat := 20.
Definition SEARCH_CONFIG_defaultThreshold : Q := 0.

(** Destructuring with a default value. *)
Definition or_default {A : Type} (x : option A) (d : A) : A :=
  match x with
  | Some v => v
  | None => d
  end.

(** [rows || []]. *)
Definition or_empty {A : Type} (rows : option (list A)) : list A :=
  match rows with
  | Some l => l
  | None => []
  end.

Section SearchSegments.

Variable vector : Type.
Variable cosine_distance : vector -> vector -> Q.

(** The database as the client sees it: the answers of the two remote
    procedures. *)
Record supabase : Type := {
  rpc_hybrid_search :
    string -> vector -> nat -> Q -> Q -> Q -> rpc_response result_row;
  rpc_match_segments : vector -> Q -> nat -> rpc_response match_row
}.

(** The rows are untyped in the source; a row is one of [hybrid_search] or
    one of [match_segments]. *)
Definition searchSegments (db : supabase) (query : string)
  (embedding : vector) (options : search_options)
  : outcome (list (result_row + match_row)) :=
  let match_count := or_default (matchCount options)
                       SEARCH_CONFIG_defaultLimit in
  let semantic_weight := or_default (semanticWeight options)
                           SEARCH_CONFIG_semanticWeight in
  let keyword_weight := or_default (keywordWeight options)
                          SEARCH_CONFIG_keywordWeight in
  let match_threshold := or_default (matchThreshold options)
                           SEARCH_CONFIG_defaultThreshold in
  let response :=
    rpc_hybrid_search db query embedding match_count semantic_weight
      keyword_weight match_threshold in
  match error response with
  | Some message =>
      if includes message "hybrid_search" then
        let fallback :=
          rpc_match_segments db embedding match_threshold match_count in
        match error fallback with
        | Some fallback_message =>
            Thrown ("Search failed: " ++ fallback_message)
        | None => Returned (map inr (or_empty (data fallback)))
        end
      else Thrown ("Search failed: " ++ message)
  | None => Returned (map inl (or_empty (data response)))
  end.

Lemma searchSegments_on_error (db : supabase) (query : string)
  (embedding : vector) (options : search_options) (message : string) :
  let match_count := or_default (matchCount options) 20%nat in
  let match_threshold := or_default (matchThreshold options) 0 in
  let fallback :=
    rpc_match_segments db embedding match_threshold match_count in
  error (rpc_hybrid_search db query embedding match_count
           (or_default (semanticWeight options) 0.7)
           (or_default (keywordWeight options) 0.3) match_threshold) =
    Some message ->
  searchSegments db query embedding options =
  if includes message "hybrid_search" then
    match error fallback with
    | None => Returned (map inr (or_empty (data fallback)))
    | Some fallback_message => Thrown ("Search failed: " ++ fallback_message)
    end
  else Thrown ("Search failed: " ++ message).
Proof.
  cbv zeta. intros Herr. unfold searchSegments. cbv zeta.
  unfold SEARCH_CONFIG_defaultLimit, SEARCH_CONFIG_semanticWeight,
    SEARCH_CONFIG_keywordWeight, SEARCH_CONFIG_defaultThreshold.
  now rewrite Herr.
Qed.

(** C6 (as the code has it). When the call of [hybrid_search] fails,
    [searchSegments] falls back to [match_segments] only if the error
    message mentions [hybrid_search]; it then returns the rows of
    [match_segments] (none when [data] is null) unless that call fails as
    well, and every other failure is thrown as "Search failed: ...".  When
    the fallback answers with the rows of the SQL function
    [match_segments], the list returned is in descending order of
    similarity and has at most [matchCount] rows. *)
Theorem searchSegments_fallback (db : supabase) (query : string)
  (embedding : vector) (options : search_options) (message : string) :
  let match_count := or_default (matchCount options) 20%nat in
  let match_threshold := or_default (matchThreshold options) 0 in
  let fallback :=
    rpc_match_segments db embedding match_threshold match_count in
  error (rpc_hybrid_search db query embedding match_count
           (or_default (semanticWeight options) 0.7)
           (or_default (keywordWeight options) 0.3) match_threshold) =
    Some message ->
  (includes message "hybrid_search" = false ->
   searchSegments db query embedding options =
   Thrown ("Search failed: " ++ message)) /\
  (includes message "hybrid_search" = true ->
   (forall fallback_message, error fallback = Some fallback_message ->
      searchSegments db query embedding options =
      Thrown ("Search failed: " ++ fallback_message)) /\
   (error fallback = None ->
      searchSegments db query embedding options =
      Returned (map inr (or_empty (data fallback)))) /\
   (forall segments,
      fallback =
        {| data := Some (match_segments vector cosine_distance segments
                           embedding match_threshold match_count);
           error := None |} ->
      exists rows,
        searchSegments db query embedding options =
          Returned (map inr rows) /\
        StronglySorted (fun a b => similarity b <= similarity a) rows /\
        (List.length rows <= match_count)%nat)).
Proof.
  cbv zeta. intros Herr.
  pose proof (searchSegments_on_error db query embedding options message
                Herr) as H.
  cbv zeta in H. split.
  - intros Hinc. now rewrite Hinc in H.
  - intros Hinc. rewrite Hinc in H. split; [|split].
    + intros fm Hfm. now rewrite Hfm in H.
    + intros Hfm. now rewrite Hfm in H.
    + intros segments Hfb. rewrite Hfb in H. cbn in H.
      eexists. split; [exact H|].
      pose proof (match_segments_ranked vector cosine_distance segments
                    embedding
                    (or_default (matchThreshold options) 0)
                    (or_default (matchCount options) 20%nat)) as Hr.
      cbv zeta in Hr. tauto.
Qed.

End SearchSegments.

(** ** [search] and the display helpers (lib/search.ts) *)

(** A row as [search] receives it: one of [hybrid_search] or one of
    [match_segments]. *)
Definition row : Type := (result_row + match_row)%type.

Definition row_columns (r : row) : columns :=
  match r with
  | inl h => r_columns h
  | inr m => m_columns m
  end.

(** [row.combined_score ?? row.similarity]. *)
Definition row_score (r : row) : Q :=
  match r with
  | inl h => combined_score h
  | inr m => similarity m
  end.

Module Search.
Local Open Scope string_scope.
Local Open Scope Q_scope.

(** A JSON value of one of the JSONB columns; its inside plays no part. *)
Definition json : Type := string.

(** The JSONB columns of a segment, which [columns] leaves out; a column
    may be NULL. *)
Record json_columns : Type := {
  claims_column : option (list json);
  frameworks_column : option (list json);
  advice_column : option (list json);
  stories_column : option (list json);
  references_column : option (list json)
}.

(** A row of the table [episodes], as selected by [search]. *)
Record episode : Type := {
  ep_id : Z;
  ep_title : string;
  ep_guest : string;
  ep_guest_slug : string;
  ep_video_id : string;
  ep_youtube_url : string
}.

(** [SearchResult]; the field [timestamp] copies a column that [columns]
    leaves out and is left out with it. *)
Record SearchResult : Type := {
  id : Z;
  segmentKey : string;
  text : string;
  speaker : string;
  timestampSeconds : Z;
  similarity : Q;
  episodeId : Z;
  episodeTitle : string;
  guest : string;
  guestSlug : string;
  videoId : string;
  youtubeUrl : string;
  claims : list json;
  frameworks : list json;
  advice : list json;
  stories : list json;
  references : list json;
  semanticSimilarity : option Q;
  keywordRank : option Q;
  combinedScore : option Q
}.

Record SearchOptions : Type := {
  limit : option nat;
  threshold : option Q;
  guestFilter : option string;      (* field [guestSlug] *)
  semanticWeight : option Q;
  keywordWeight : option Q;
  semanticOnly : option bool
}.

(** A number inside a template literal. *)
Definition number_to_string (n : Z) : string :=
  DecimalString.NilZero.string_of_int (Z.to_int n).

(** [new Map(episodes.map(e => [e.id, e])).get(k)]: of several episodes
    with the same id the last one is kept. *)
Definition episode_of (episodes : list episode) (k : Z) : option episode :=
  find (fun e => (ep_id e =? k)%Z) (rev episodes).

(** The results grouped by [groupResultsByType]. *)
Record grouped : Type := {
  insights : list SearchResult;
  frameworks_group : list SearchResult;
  advice_group : list SearchResult;
  stories_group : list SearchResult
}.

Definition nonempty {A : Type} (l : list A) : bool :=
  (0 <? List.length l)%nat.

(** One turn of the loop of [groupResultsByType]. *)
Definition group_result (g : grouped) (result : SearchResult) : grouped :=
  let g1 :=
    if nonempty (frameworks result) then
      {| insights := insights g;
         frameworks_group := frameworks_group g ++ [result];
         advice_group := advice_group g; stories_group := stories_group g |}
    else g in
  let g2 :=
    if nonempty (advice result) then
      {| insights := insights g1; frameworks_group := frameworks_group g1;
         advice_group := advice_group g1 ++ [result];
         stories_group := stories_group g1 |}
    else g1 in
  let g3 :=
    if nonempty (stories result) then
      {| insights := insights g2; frameworks_group := frameworks_group g2;
         advice_group := advice_group g2;
         stories_group := stories_group g2 ++ [result] |}
    else g2 in
  if nonempty (claims result) then
    {| insights := insights g3 ++ [result];
       frameworks_group := frameworks_group g3;
       advice_group := advice_group g3; stories_group := stories_group g3 |}
  else g3.

Definition groupResultsByType (results : list SearchResult) : grouped :=
  fold_left group_result results
    {| insights := []; frameworks_group := []; advice_group := [];
       stories_group := [] |}.

(** A value of the [Map] of [getUniqueGuests]. *)
Record guest_entry : Type := {
  name : string;
  slug : string;
  count : nat
}.

(** The [Map], its entries in the order of insertion. *)
Definition guest_map : Type := list (string * guest_entry).

Definition map_get (m : guest_map) (k : string) : option guest_entry :=
  option_map snd (find (fun kv => fst kv =? k) m).

(** [existing.count++] on the entry of key [k]. *)
Definition increment (m : guest_map) (k : string) : guest_map :=
  map (fun kv =>
         if fst kv =? k then
           (fst kv, {| name := name (snd kv); slug := slug (snd kv);
                       count := S (count (snd kv)) |})
         else kv) m.

(** One turn of the loop of [getUniqueGuests]. *)
Definition count_guest (guestMap : guest_map) (result : SearchResult)
  : guest_map :=
  match map_get guestMap (guestSlug result) with
  | Some existing => increment guestMap (guestSlug result)
  | None =>
      (guestMap ++
       [(guestSlug result,
         {| name := guest result; slug := guestSlug result; count := 1 |})])%list
  end.

(** [(a, b) => b.count - a.count]: [a] may stay before [b]. *)
Definition by_count_desc (a b : guest_entry) : bool :=
  (count b <=? count a)%nat.

Definition getUniqueGuests (results : list SearchResult)
  : list guest_entry :=
  order_by by_count_desc (map snd (fold_left count_guest results [])).

Definition total_count (entries : list guest_entry) : nat :=
  fold_right (fun e acc => (count e + acc)%nat) 0%nat entries.

Section Services.

Variable vector : Type.

(** The JSONB columns of the segment with a given id. *)
Variable jsonb_of : Z -> json_columns.

(** What [search] calls: the database of [searchSegments], the embedding
    model ([generateEmbedding] may throw) and the query on [episodes],
    whose [data] may be null and whose error [search] does not read. *)
Record services : Type := {
  database : supabase vector;
  generateEmbedding : string -> outcome vector;
  episodes_in : list Z -> option (list episode)
}.

(** The first half of [search]: the embedding and the rows. *)
Definition fetch_rows (sv : services) (query : string)
  (options : SearchOptions) : outcome (list row) :=
  let limit := or_default (limit options) SEARCH_CONFIG_defaultLimit in
  let threshold :=
    or_default (threshold options) SEARCH_CONFIG_defaultThreshold in
  let semanticWeight :=
    or_default (semanticWeight options) SEARCH_CONFIG_semanticWeight in
  let keywordWeight :=
    or_default (keywordWeight options) SEARCH_CONFIG_keywordWeight in
  match generateEmbedding sv query with
  | Thrown message => Thrown message
  | Returned queryEmbedding =>
      if or_default (semanticOnly options) false then
        let response :=
          rpc_match_segments vector (database sv) queryEmbedding threshold
            limit in
        match error response with
        | Some message => Thrown ("Search failed: " ++ message)
        | None => Returned (map inr (or_empty (data response)))
        end
      else
        searchSegments vector (database sv) query queryEmbedding
          (Build_search_options (Some limit) (Some semanticWeight)
             (Some keywordWeight) (Some threshold))
  end.

(** The callback of [data.map]: [None] is its [null]. *)
Definition to_search_result (episodes : list episode)
  (guest_filter : option string) (r : row) : option SearchResult :=
  match episode_of episodes (col_episode_id (row_columns r)) with
  | None => None
  | Some episode =>
      if truthy guest_filter &&
         negb (ep_guest_slug episode =? or_default guest_filter "")
      then None
      else
        let extra := jsonb_of (col_id (row_columns r)) in
        Some
          {| id := col_id (row_columns r);
             segmentKey := col_segment_key (row_columns r);
             text := col_text (row_columns r);
             speaker := col_speaker (row_columns r);
             timestampSeconds := col_timestamp_seconds (row_columns r);
             similarity := row_score r;
             episodeId := col_episode_id (row_columns r);
             episodeTitle := ep_title episode;
             guest := ep_guest episode;
             guestSlug := ep_guest_slug episode;
             videoId := ep_video_id episode;
             youtubeUrl :=
               ep_youtube_url episode ++ "&t=" ++
               number_to_string (col_timestamp_seconds (row_columns r)) ++
               "s";
             claims := or_empty (claims_column extra);
             frameworks := or_empty (frameworks_column extra);
             advice := or_empty (advice_column extra);
             stories := or_empty (stories_column extra);
             references := or_empty (references_column extra);
             semanticSimilarity :=
               match r with
               | inl h => Some (semantic_similarity h)
               | inr _ => None
               end;
             keywordRank :=
               match r with
               | inl h => Some (keyword_rank h)
               | inr _ => None
               end;
             combinedScore :=
               match r with
               | inl h => Some (combined_score h)
               | inr _ => None
               end |}
  end.

(** [[...new Set(data.map(r => r.episode_id))]]. *)
Definition episode_ids (rows : list row) : list Z :=
  distinct Z.eqb (map (fun r => col_episode_id (row_columns r)) rows).

Definition search (sv : services) (query : string) (options : SearchOptions)
  : outcome (list SearchResult) :=
  match fetch_rows sv query options with
  | Thrown message => Thrown message
  | Returned rows =>
      if (List.length rows =? 0)%nat then Returned []
      else
        let episodes := or_empty (episodes_in sv (episode_ids rows)) in
        Returned
          (firstn (or_default (limit options) SEARCH_CONFIG_defaultLimit)
             (filter_map (to_search_result episodes (guestFilter options))
                rows))
  end.

(** *** Properties of [search] *)

Lemma episode_of_In (episodes : list episode) (k : Z) (e : episode) :
  episode_of episodes k = Some e -> In e episodes /\ ep_id e = k.
Proof.
  unfold episode_of. intros H. apply find_some in H.
  destruct H as [Hin Hid]. apply in_rev in Hin. apply Z.eqb_eq in Hid. auto.
Qed.

Lemma to_search_result_some (episodes : list episode)
  (guest_filter : option string) (r : row) (sr : SearchResult) :
  to_search_result episodes guest_filter r = Some sr ->
  (exists e, In e episodes /\
     ep_id e = col_episode_id (row_columns r) /\
     id sr = col_id (row_columns r) /\
     similarity sr = row_score r /\
     episodeId sr = ep_id e /\
     guest sr = ep_guest e /\ guestSlug sr = ep_guest_slug e) /\
  (forall g, guest_filter = Some g -> g <> "" -> guestSlug sr = g).
Proof.
  unfold to_search_result.
  destruct (episode_of episodes _) as [e|] eqn:He; [|discriminate].
  apply episode_of_In in He. destruct He as [Hin Hid].
  destruct (truthy guest_filter && _) eqn:Hf; [discriminate|].
  intros [= <-]. cbn. split.
  - exists e. auto 8.
  - intros g -> Hg. cbn in Hf.
    apply andb_false_iff in Hf. destruct Hf as [Hf|Hf].
    + apply negb_false_iff, String.eqb_eq in Hf. contradiction.
    + apply negb_false_iff, String.eqb_eq in Hf. exact Hf.
Qed.

(** X6. When [search] returns, it returns at most [limit] results
    (20 without option); each of them is made of a row that the search
    function returned and of the episode of that row, its [similarity]
    being the row's combined score (hybrid) or similarity (semantic
    only); with a non-empty guest filter every result is of that
    guest. *)
Theorem search_results_within_limit (sv : services) (query : string)
  (options : SearchOptions) (results : list SearchResult) :
  search sv query options = Returned results ->
  exists rows,
    fetch_rows sv query options = Returned rows /\
    (List.length results <= or_default (limit options) 20)%nat /\
    Forall (fun sr =>
      exists r e,
        In r rows /\
        In e (or_empty (episodes_in sv (episode_ids rows))) /\
        ep_id e = col_episode_id (row_columns r) /\
        id sr = col_id (row_columns r) /\
        similarity sr = row_score r /\
        episodeId sr = ep_id e /\
        guest sr = ep_guest e /\ guestSlug sr = ep_guest_slug e) results /\
    (forall g, guestFilter options = Some g -> g <> "" ->
       Forall (fun sr => guestSlug sr = g) results).
Proof.
  unfold search. destruct (fetch_rows sv query options) as [rows|m];
    [|discriminate].
  intros H. exists rows. split; [reflexivity|].
  destruct (List.length rows =? 0)%nat.
  - injection H as <-. simpl. split; [lia|]. split; [constructor|].
    intros. constructor.
  - injection H as <-. split; [apply firstn_le_length|]. split.
    + apply Forall_forall. intros sr Hsr. apply firstn_In in Hsr.
      apply filter_map_In in Hsr. destruct Hsr as [r [Hr Hsome]].
      apply to_search_result_some in Hsome.
      destruct Hsome as [[e He] _]. exists r, e. tauto.
    + intros g Hg Hne. apply Forall_forall. intros sr Hsr.
      apply firstn_In in Hsr. apply filter_map_In in Hsr.
      destruct Hsr as [r [Hr Hsome]].
      apply to_search_result_some in Hsome.
      destruct Hsome as [_ Hfilter]. now apply Hfilter.
Qed.

Lemma filter_map_nothing {A B : Type} (f : A -> option B) (l : list A) :
  (forall x, In x l -> f x = None) -> filter_map f l = [].
Proof.
  induction l as [|x l IH]; [reflexivity|]. intros H. simpl.
  rewrite (H x (or_introl eq_refl)). apply IH. intros y Hy. apply H.
  now right.
Qed.

(** X7. [search] does not fail when episodes are missing: rows whose
    episode is absent from the answer of the episodes query are dropped,
    so that a null or empty answer gives the empty list, not an error. *)
Theorem search_without_episodes (sv : services) (query : string)
  (options : SearchOptions) (rows : list row) :
  fetch_rows sv query options = Returned rows ->
  (forall r e, In r rows ->
     In e (or_empty (episodes_in sv (episode_ids rows))) ->
     ep_id e <> col_episode_id (row_columns r)) ->
  search sv query options = Returned [].
Proof.
  intros Hrows Hnone. unfold search. rewrite Hrows.
  destruct (List.length rows =? 0)%nat; [reflexivity|].
  rewrite filter_map_nothing; [now rewrite firstn_nil|].
  intros r Hr. unfold to_search_result.
  destruct (episode_of _ _) as [e|] eqn:He; [|reflexivity].
  apply episode_of_In in He. destruct He as [Hin Hid].
  exfalso. exact (Hnone r e Hr Hin Hid).
Qed.

End Services.

(** *** Properties of the display helpers *)

Lemma fold_group_result (results : list SearchResult) (g : grouped) :
  fold_left group_result results g =
  {| insights :=
       insights g ++ filter (fun r => nonempty (claims r)) results;
     frameworks_group :=
       frameworks_group g ++
       filter (fun r => nonempty (frameworks r)) results;
     advice_group :=
       advice_group g ++ filter (fun r => nonempty (advice r)) results;
     stories_group :=
       stories_group g ++ filter (fun r => nonempty (stories r)) results |}.
Proof.
  revert g. induction results as [|r results IH]; intros g.
  - cbn. rewrite !app_nil_r. now destruct g.
  - cbn [fold_left filter]. rewrite IH. unfold group_result.
    destruct (nonempty (frameworks r)), (nonempty (advice r)),
      (nonempty (stories r)), (nonempty (claims r));
      cbn; rewrite <- ?app_assoc; reflexivity.
Qed.

(** X8. [groupResultsByType] selects, in the order of the results, those
    with claims, with frameworks, with advice and with stories: a result
    is in as many groups as it has kinds of content, and in none when it
    has no content at all. *)
Theorem groupResultsByType_selects (results : list SearchResult) :
  let g := groupResultsByType results in
  insights g = filter (fun r => nonempty (claims r)) results /\
  frameworks_group g = filter (fun r => nonempty (frameworks r)) results /\
  advice_group g = filter (fun r => nonempty (advice r)) results /\
  stories_group g = filter (fun r => nonempty (stories r)) results /\
  forall r, claims r = [] -> frameworks r = [] -> advice r = [] ->
    stories r = [] ->
    ~ In r (insights g) /\ ~ In r (frameworks_group g) /\
    ~ In r (advice_group g) /\ ~ In r (stories_group g).
Proof.
  cbv zeta. unfold groupResultsByType. rewrite fold_group_result. cbn.
  do 4 (split; [reflexivity|]).
  intros r Hc Hf Ha Hs.
  repeat split; intros Hin; apply filter_In in Hin;
    destruct Hin as [_ Hne]; unfold nonempty in Hne;
    rewrite ?Hc, ?Hf, ?Ha, ?Hs in Hne; discriminate.
Qed.

Lemma map_get_none (m : guest_map) (k : string) :
  map_get m k = None -> ~ In k (map fst m).
Proof.
  unfold map_get. destruct (find _ m) as [kv|] eqn:Hf; [discriminate|].
  intros _ Hin. apply in_map_iff in Hin. destruct Hin as [kv [<- Hkv]].
  pose proof (find_none _ _ Hf kv Hkv) as H. cbn in H.
  now rewrite String.eqb_refl in H.
Qed.

Lemma map_get_some (m : guest_map) (k : string) (e : guest_entry) :
  map_get m k = Some e -> In k (map fst m).
Proof.
  unfold map_get. destruct (find _ m) as [kv|] eqn:Hf; [|discriminate].
  intros _. apply find_some in Hf. destruct Hf as [Hin Heq].
  apply String.eqb_eq in Heq. rewrite <- Heq. now apply in_map.
Qed.

Lemma increment_keys (m : guest_map) (k : string) :
  map fst (increment m k) = map fst m.
Proof.
  unfold increment. rewrite map_map. apply map_ext.
  intros kv. now destruct (fst kv =? k).
Qed.

Lemma increment_absent (m : guest_map) (k : string) :
  ~ In k (map fst m) -> increment m k = m.
Proof.
  intros Hk. unfold increment. rewrite <- (map_id m) at 2.
  apply map_ext_in. intros kv Hkv.
  destruct (fst kv =? k) eqn:Heq; [|reflexivity].
  apply String.eqb_eq in Heq. exfalso. apply Hk. rewrite <- Heq.
  now apply in_map.
Qed.

Lemma total_count_app (a b : list guest_entry) :
  total_count (a ++ b) = (total_count a + total_count b)%nat.
Proof.
  unfold total_count. induction a as [|e a IH]; simpl; [reflexivity|].
  rewrite IH. lia.
Qed.

Lemma total_count_increment (m : guest_map) (k : string) :
  NoDup (map fst m) -> In k (map fst m) ->
  total_count (map snd (increment m k)) = S (total_count (map snd m)).
Proof.
  induction m as [|[k1 e1] m IH]; simpl; [intros _ []|].
  intros Hnd Hin. inversion Hnd as [|? ? Hnotin Hnd']; subst.
  destruct (k1 =? k) eqn:Heq.
  - apply String.eqb_eq in Heq. subst k1.
    rewrite increment_absent by assumption. cbn. lia.
  - apply String.eqb_neq in Heq. destruct Hin as [Hin|Hin];
      [contradiction|].
    cbn. fold (increment m k). rewrite IH by assumption. cbn.
    unfold total_count. lia.
Qed.

Lemma total_count_perm (a b : list guest_entry) :
  Permutation a b -> total_count a = total_count b.
Proof.
  unfold total_count.
  induction 1 as [|x l l' Hp IH|x y l|l l' l'' Hp1 IH1 Hp2 IH2]; simpl;
    lia.
Qed.

(** What the [Map] holds after the results [l]. *)
Definition tallied (m : guest_map) (l : list SearchResult) : Prop :=
  NoDup (map fst m) /\
  (forall k e, In (k, e) m ->
     slug e = k /\ (1 <= count e)%nat /\
     count e = count_occ string_dec (map guestSlug l) k) /\
  (forall r, In r l -> In (guestSlug r) (map fst m)) /\
  total_count (map snd m) = List.length l.

Lemma count_occ_last (l : list SearchResult) (r : SearchResult)
  (k : string) :
  count_occ string_dec (map guestSlug (l ++ [r])) k =
  (count_occ string_dec (map guestSlug l) k +
   (if String.eqb (guestSlug r) k then 1 else 0))%nat.
Proof.
  rewrite map_app, count_occ_app. f_equal. cbn.
  destruct (string_dec (guestSlug r) k) as [->|Hne].
  - now rewrite String.eqb_refl.
  - apply String.eqb_neq in Hne. now rewrite Hne.
Qed.

Lemma count_guest_tallied (m : guest_map) (l : list SearchResult)
  (r : SearchResult) :
  tallied m l -> tallied (count_guest m r) (l ++ [r]).
Proof.
  intros [Hnd [Hentries [Hcover Htotal]]]. unfold count_guest.
  destruct (map_get m (guestSlug r)) as [existing|] eqn:Hget.
  - apply map_get_some in Hget. repeat split.
    + now rewrite increment_keys.
    + unfold increment in H. apply in_map_iff in H.
      destruct H as [[k1 e1] [Heq Hin]]. cbn in Heq.
      destruct (Hentries k1 e1 Hin) as [Hslug _].
      destruct (k1 =? guestSlug r); injection Heq as <- <-; exact Hslug.
    + unfold increment in H. apply in_map_iff in H.
      destruct H as [[k1 e1] [Heq Hin]]. cbn in Heq.
      destruct (Hentries k1 e1 Hin) as [_ [Hone _]].
      destruct (k1 =? guestSlug r); injection Heq as <- <-; cbn; lia.
    + unfold increment in H. apply in_map_iff in H.
      destruct H as [[k1 e1] [Heq Hin]]. cbn in Heq.
      destruct (Hentries k1 e1 Hin) as [_ [_ Hcount]].
      rewrite count_occ_last.
      destruct (k1 =? guestSlug r) eqn:Hk; injection Heq as <- <-.
      * rewrite String.eqb_sym, Hk. cbn. lia.
      * rewrite String.eqb_sym, Hk. lia.
    + intros r' Hr'. rewrite increment_keys.
      apply in_app_or in Hr'. destruct Hr' as [Hr'|[<-|[]]]; auto.
    + rewrite total_count_increment by assumption.
      rewrite length_app. cbn. lia.
  - apply map_get_none in Hget.
    assert (Hzero : count_occ string_dec (map guestSlug l) (guestSlug r)
                    = 0%nat).
    { apply count_occ_not_In. intros Hin. apply in_map_iff in Hin.
      destruct Hin as [r0 [Heq Hr0]]. apply Hget. rewrite <- Heq.
      now apply Hcover. }
    repeat split.
    + rewrite map_app. cbn. apply NoDup_app; [assumption| |].
      * constructor; [intros []|constructor].
      * intros k Hk [<-|[]]. contradiction.
    + apply in_app_or in H. destruct H as [H|[[= <- <-]|[]]];
        [|reflexivity].
      now destruct (Hentries k e H).
    + apply in_app_or in H. destruct H as [H|[[= <- <-]|[]]];
        [|cbn; lia].
      now destruct (Hentries k e H) as [_ [Hone _]].
    + rewrite count_occ_last.
      apply in_app_or in H. destruct H as [H|[[= <- <-]|[]]].
      * destruct (Hentries k e H) as [_ [_ Hcount]].
        assert (Hne : (guestSlug r =? k) = false).
        { apply String.eqb_neq. intros Heq. apply Hget. rewrite Heq.
          apply (in_map fst) in H. exact H. }
        rewrite Hne. lia.
      * rewrite String.eqb_refl, Hzero. reflexivity.
    + intros r' Hr'. rewrite map_app. apply in_or_app.
      apply in_app_or in Hr'. destruct Hr' as [Hr'|[<-|[]]];
        [left; auto|right; now left].
    + rewrite map_app, total_count_app, Htotal, length_app. cbn. lia.
Qed.

Lemma fold_count_guest_tallied (results : list SearchResult) :
  tallied (fold_left count_guest results []) results.
Proof.
  induction results as [|r results IH] using rev_ind.
  - repeat split; try constructor; intros; contradiction.
  - rewrite fold_left_app. cbn. now apply count_guest_tallied.
Qed.

Lemma by_count_desc_total (a b : guest_entry) :
  by_count_desc a b = false -> by_count_desc b a = true.
Proof.
  unfold by_count_desc. rewrite Nat.leb_gt, Nat.leb_le. lia.
Qed.

Lemma by_count_desc_trans (a b c : guest_entry) :
  by_count_desc a b = true -> by_count_desc b c = true ->
  by_count_desc a c = true.
Proof. unfold by_count_desc. rewrite !Nat.leb_le. lia. Qed.

(** X9. [getUniqueGuests] returns one entry per guest slug of the
    results, most frequent first; the count of an entry is the number of
    results with its slug (at least 1), every result is counted under its
    slug, and the counts add up to the number of results. *)
Theorem getUniqueGuests_counts (results : list SearchResult) :
  let guests := getUniqueGuests results in
  NoDup (map slug guests) /\
  Forall (fun e => (1 <= count e)%nat /\
            count e = count_occ string_dec (map guestSlug results) (slug e))
         guests /\
  (forall r, In r results -> In (guestSlug r) (map slug guests)) /\
  total_count guests = List.length results /\
  StronglySorted (fun a b => (count b <= count a)%nat) guests.
Proof.
  cbv zeta. unfold getUniqueGuests.
  destruct (fold_count_guest_tallied results)
    as [Hnd [Hentries [Hcover Htotal]]].
  set (m := fold_left count_guest results []) in *.
  pose proof (order_by_perm by_count_desc (map snd m)) as Hperm.
  assert (Hslugs : map slug (map snd m) = map fst m).
  { rewrite map_map. apply map_ext_in. intros [k e] Hin. cbn.
    now destruct (Hentries k e Hin). }
  repeat split.
  - eapply Permutation_NoDup.
    + symmetry. apply Permutation_map, Hperm.
    + now rewrite Hslugs.
  - apply Forall_forall. intros e He.
    apply (Permutation_in _ Hperm) in He. apply in_map_iff in He.
    destruct He as [[k e'] [<- Hin]]. cbn.
    destruct (Hentries k e' Hin) as [Hslug [Hone Hcount]].
    rewrite Hslug. auto.
  - intros r Hr.
    apply (Permutation_in _ (Permutation_sym (Permutation_map slug Hperm))).
    rewrite Hslugs. now apply Hcover.
  - rewrite (total_count_perm _ _ Hperm). exact Htotal.
  - apply (StronglySorted_weaken (fun a b => by_count_desc a b = true)).
    + intros a b H. now apply Nat.leb_le.
    + apply order_by_sorted;
        [apply by_count_desc_total|apply by_count_desc_trans].
Qed.

End Search.

(** ** The RAGAS wrapper (lib/evaluation/ragas.ts) *)

Module Ragas.
Local Open Scope string_scope.
Local Open Scope Q_scope.

Record RagasInput : Type := {
  question : string;
  answer : string;
  contexts : list string
}.

Record RagasScores : Type := {
  faithfulness : option Q;
  answer_relevancy : option Q;
  context_precision : option Q;
  error : option string
}.

Record RagasEvaluationResult : Type := {
  input : RagasInput;
  scores : RagasScores;
  durationMs : Z;
  passed : bool
}.

(** [RAGAS_THRESHOLDS]. *)
Definition RAGAS_THRESHOLDS_faithfulness : Q := 0.85.
Definition RAGAS_THRESHOLDS_answer_relevancy : Q := 0.80.
Definition RAGAS_THRESHOLDS_context_precision : Q := 0.75.

Definition DEFAULT_TIMEOUT_MS : Z := 60000.

(** The scores of a failed evaluation. *)
Definition failed_scores (errorMessage : string) : RagasScores :=
  {| faithfulness := None; answer_relevancy := None;
     context_precision := None; error := Some errorMessage |}.

Definition checkThresholds (s : RagasScores) : bool :=
  if truthy (error s) then false
  else
    match faithfulness s, answer_relevancy s, context_precision s with
    | Some f, Some a, Some c =>
        Qle_bool RAGAS_THRESHOLDS_faithfulness f &&
        Qle_bool RAGAS_THRESHOLDS_answer_relevancy a &&
        Qle_bool RAGAS_THRESHOLDS_context_precision c
    | _, _, _ => false
    end.

(** What the spawned Python process does, as [runPythonScript] observes it:
    the timer fires first, or [spawn] emits ['error'], or the process
    closes with an exit code ([None] for [null], when a signal ended it)
    and the collected output. *)
Inductive child_process : Type :=
| TimedOut
| SpawnError (message : string)
| Closed (code : option Z) (stdout stderr : string).

(** Template-literal rendering of a number and of an exit code. *)
Definition show (n : Z) : string :=
  DecimalString.NilZero.string_of_int (Z.to_int n).

Definition show_code (code : option Z) : string :=
  match code with
  | Some n => show n
  | None => "null"
  end.

(** [code !== 0]. *)
Definition nonzero (code : option Z) : bool :=
  match code with
  | Some n => negb (n =? 0)%Z
  | None => true
  end.

(** [options]: both fields may be absent. *)
Record EvaluateOptions : Type := {
  timeoutMs : option Z;
  concurrency : option Q
}.

Definition of_nat (n : nat) : Q := inject_Z (Z.of_nat n).

(** ToIntegerOrInfinity on a (finite) number: truncation towards 0. *)
Definition trunc (x : Q) : Z :=
  if Qle_bool 0 x then Qfloor x else Qceiling x.

(** [l.slice(start, end)]: a negative index counts from the end, both
    indices are clamped to the length. *)
Definition slice {A : Type} (l : list A) (start stop : Q) : list A :=
  let len := Z.of_nat (List.length l) in
  let clamp r := if (r <? 0)%Z then Z.max (len + r) 0 else Z.min r len in
  let k := clamp (trunc start) in
  let final := clamp (trunc stop) in
  firstn (Z.to_nat (final - k)) (skipn (Z.to_nat k) l).

(** The accumulator of [aggregateResults], also the shape of [averages]. *)
Record metrics : Type := {
  m_faithfulness : Q;
  m_answer_relevancy : Q;
  m_context_precision : Q
}.

Record aggregate : Type := {
  count : nat;
  passed_count : nat;        (* field [passed] *)
  failed : nat;
  passRate : Q;
  averages : metrics
}.

(** [x ?? 0]. *)
Definition or_zero (x : option Q) : Q :=
  match x with
  | Some v => v
  | None => 0
  end.

Definition add_scores (acc : metrics) (r : RagasEvaluationResult) : metrics :=
  {| m_faithfulness := m_faithfulness acc + or_zero (faithfulness (scores r));
     m_answer_relevancy :=
       m_answer_relevancy acc + or_zero (answer_relevancy (scores r));
     m_context_precision :=
       m_context_precision acc + or_zero (context_precision (scores r)) |}.

Definition valid (r : RagasEvaluationResult) : bool :=
  negb (truthy (error (scores r))).

Definition aggregateResults (results : list RagasEvaluationResult)
  : aggregate :=
  let validResults := filter valid results in
  let passedResults := filter passed validResults in
  let sum :=
    fold_left add_scores validResults
      {| m_faithfulness := 0; m_answer_relevancy := 0;
         m_context_precision := 0 |} in
  let count := List.length validResults in
  {| count := List.length results;
     passed_count := List.length passedResults;
     failed := List.length results - List.length passedResults;
     passRate :=
       if (0 <? count)%nat
       then of_nat (List.length passedResults) / of_nat count else 0;
     averages :=
       {| m_faithfulness :=
            if (0 <? count)%nat then m_faithfulness sum / of_nat count
            else 0;
          m_answer_relevancy :=
            if (0 <? count)%nat then m_answer_relevancy sum / of_nat count
            else 0;
          m_context_precision :=
            if (0 <? count)%nat then m_context_precision sum / of_nat count
            else 0 |} |}.

(** The sum of a list of numbers. *)
Fixpoint total (l : list Q) : Q :=
  match l with
  | [] => 0
  | x :: l' => x + total l'
  end.

Definition zero_metrics : metrics :=
  {| m_faithfulness := 0; m_answer_relevancy := 0;
     m_context_precision := 0 |}.

Section Judge.

(** [JSON.parse(stdout) as RagasScores]; [None] when parsing (or reading
    [result.error]) throws. *)
Variable JSON_parse : string -> option RagasScores.

(** The promise of [runPythonScript]: resolved with scores or rejected with
    an [Error]. *)
Definition runPythonScript (process : child_process) (timeout : Z)
  : outcome RagasScores :=
  match process with
  | TimedOut =>
      Thrown ("RAGAS evaluation timed out after " ++ show timeout ++ "ms")
  | SpawnError message =>
      Thrown ("Failed to spawn Python process: " ++ message)
  | Closed code stdout stderr =>
      if nonzero code && negb (truthy (Some stdout)) then
        Thrown ("RAGAS script failed with code " ++ show_code code ++ ": "
                ++ stderr)
      else
        match JSON_parse stdout with
        | Some result =>
            match error result with
            | Some message =>
                if truthy (Some message) then Thrown message
                else Returned result
            | None => Returned result
            end
        | None => Thrown ("Failed to parse RAGAS output: " ++ stdout)
        end
  end.

(** The judge did not answer: the timer fired, the process could not be
    spawned, or it exited with a non-zero code without output. *)
Definition judge_failure (process : child_process) : Prop :=
  process = TimedOut \/
  (exists message, process = SpawnError message) \/
  (exists code stderr, nonzero code = true /\
                       process = Closed code "" stderr).

(** One call: [run] is what the process spawned for it does and the time
    that passes between the two readings of [Date.now()]. *)
Definition evaluateWithRagas (run : child_process * Z) (i : RagasInput)
  (options : EvaluateOptions) : RagasEvaluationResult :=
  let timeout := or_default (timeoutMs options) DEFAULT_TIMEOUT_MS in
  match runPythonScript (fst run) timeout with
  | Returned s =>
      {| input := i; scores := s; durationMs := snd run;
         passed := checkThresholds s |}
  | Thrown errorMessage =>
      {| input := i; scores := failed_scores errorMessage;
         durationMs := snd run; passed := false |}
  end.

(** The runs of the successive calls of [evaluateWithRagas], numbered in
    the order in which the calls are made. *)
Variable world : nat -> child_process * Z.

(** [batch.map(input => evaluateWithRagas(input, evalOptions))] under
    [Promise.all]: the calls are made in the order of the batch, the
    results come back in that order; [k] calls were made before. *)
Fixpoint evaluate_from (k : nat) (batch : list RagasInput)
  (options : EvaluateOptions) : list RagasEvaluationResult :=
  match batch with
  | [] => []
  | i :: batch' =>
      evaluateWithRagas (world k) i options ::
      evaluate_from (S k) batch' options
  end.

(** The position in the list that a non-negative loop index stands for. *)
Definition position (i : Q) : nat := Z.to_nat (Qfloor i).

(** The [for] loop of [evaluateBatch]; [fuel] bounds the number of
    iterations, [None] means that it is used up.  The loop variable [i] is
    a number like [concurrency]. *)
Fixpoint evaluateBatch_loop (fuel : nat) (inputs : list RagasInput)
  (batch_size : Q) (options : EvaluateOptions) (i : Q)
  (results : list RagasEvaluationResult)
  : option (list RagasEvaluationResult) :=
  match fuel with
  | O => None
  | S fuel' =>
      if Qlt_bool i (of_nat (List.length inputs)) then
        let batch := slice inputs i (i + batch_size) in
        let batchResults :=
          evaluate_from (List.length results) batch options in
        evaluateBatch_loop fuel' inputs batch_size options (i + batch_size)
          (results ++ batchResults)
      else Some results
  end.

Definition evaluateBatch (fuel : nat) (inputs : list RagasInput)
  (options : EvaluateOptions) : option (list RagasEvaluationResult) :=
  evaluateBatch_loop fuel inputs (or_default (concurrency options) 3)
    options 0 [].

(** *** Thresholds and failures *)

Lemma checkThresholds_true (s : RagasScores) :
  checkThresholds s = true <->
  truthy (error s) = false /\
  exists f a c,
    faithfulness s = Some f /\ answer_relevancy s = Some a /\
    context_precision s = Some c /\
    0.85 <= f /\ 0.80 <= a /\ 0.75 <= c.
Proof.
  unfold checkThresholds.
  destruct (truthy (error s)).
  - split; [discriminate|]. intros [H _]. discriminate.
  - destruct (faithfulness s) as [f|], (answer_relevancy s) as [a|],
      (context_precision s) as [c|];
      try (split; [discriminate|];
           intros [_ [f' [a' [c' [H1 [H2 [H3 _]]]]]]]; discriminate).
    rewrite !andb_true_iff, !Qle_bool_iff.
    unfold RAGAS_THRESHOLDS_faithfulness, RAGAS_THRESHOLDS_answer_relevancy,
      RAGAS_THRESHOLDS_context_precision.
    split.
    + intros [[Hf Ha] Hc]. split; [reflexivity|].
      exists f, a, c. auto 7.
    + intros [_ [f' [a' [c' [[= <-] [[= <-] [[= <-] [Hf [Ha Hc]]]]]]]]].
      auto.
Qed.

Lemma runPythonScript_message (process : child_process) (timeout : Z)
  (message : string) :
  runPythonScript process timeout = Thrown message ->
  truthy (Some message) = true.
Proof.
  destruct process as [|m|code stdout stderr]; simpl.
  - intros [= <-]. reflexivity.
  - intros [= <-]. reflexivity.
  - destruct (nonzero code && _).
    + intros [= <-]. reflexivity.
    + destruct (JSON_parse stdout) as [result|].
      * destruct (error result) as [m|]; [|discriminate].
        destruct (negb (m =? "")%string) eqn:Hm; [|discriminate].
        intros [= <-]. exact Hm.
      * intros [= <-]. reflexivity.
Qed.

Lemma judge_failure_thrown (process : child_process) (timeout : Z) :
  judge_failure process ->
  exists message, runPythonScript process timeout = Thrown message.
Proof.
  intros [->|[[m ->]|[code [stderr [Hcode ->]]]]]; simpl; eauto.
  rewrite Hcode. simpl. eauto.
Qed.

(** When [runPythonScript] resolves, and with what. *)
Lemma runPythonScript_returned (process : child_process) (timeout : Z)
  (s : RagasScores) :
  runPythonScript process timeout = Returned s <->
  exists code stdout stderr,
    process = Closed code stdout stderr /\
    (nonzero code = true -> stdout <> "") /\
    JSON_parse stdout = Some s /\
    truthy (error s) = false.
Proof.
  unfold runPythonScript. split.
  - destruct process as [|message|code stdout stderr]; try discriminate.
    destruct (nonzero code && negb (truthy (Some stdout))) eqn:Hguard;
      [discriminate|].
    destruct (JSON_parse stdout) as [result|] eqn:Hparse; [|discriminate].
    assert (Hout : nonzero code = true -> stdout <> "").
    { intros Hcode ->. rewrite Hcode in Hguard. discriminate. }
    destruct (error result) as [message|] eqn:Herr.
    + destruct (truthy (Some message)) eqn:Hm; [discriminate|].
      intros [= <-]. exists code, stdout, stderr. rewrite Herr. auto.
    + intros [= <-]. exists code, stdout, stderr. rewrite Herr. auto.
  - intros [code [stdout [stderr [-> [Hout [Hparse Herr]]]]]].
    assert (Hguard : nonzero code && negb (truthy (Some stdout)) = false).
    { destruct (nonzero code); [|reflexivity].
      specialize (Hout eq_refl). cbn.
      apply String.eqb_neq in Hout. now rewrite Hout. }
    rewrite Hguard, Hparse.
    destruct (error s) as [message|]; [|reflexivity].
    now rewrite Herr.
Qed.

(** C8. The record that [evaluateWithRagas] returns carries the input and,
    when the judge answers, the very scores that were parsed from its
    output; [passed] is [true] exactly when the process closed with output
    that parses to scores without error, all three present, with
    faithfulness >= 0.85, answer relevancy >= 0.80 and context precision
    >= 0.75 (which is to say: exactly when the scores of the record carry
    no error and meet the three thresholds).  When the judge fails
    (timeout, spawn error, non-zero exit without output, and every other
    rejection of [runPythonScript]) the function returns the record of the
    input with the three scores null, the message of the rejection, which
    is not empty, as error, and [passed = false]. *)
Theorem evaluateWithRagas_passed (run : child_process * Z) (i : RagasInput)
  (options : EvaluateOptions) :
  let r := evaluateWithRagas run i options in
  let timeout := or_default (timeoutMs options) DEFAULT_TIMEOUT_MS in
  (passed r = true <->
   truthy (error (scores r)) = false /\
   exists f a c,
     faithfulness (scores r) = Some f /\
     answer_relevancy (scores r) = Some a /\
     context_precision (scores r) = Some c /\
     0.85 <= f /\ 0.80 <= a /\ 0.75 <= c) /\
  (judge_failure (fst run) ->
   exists message,
     truthy (Some message) = true /\
     r = {| input := i;
            scores := {| faithfulness := None; answer_relevancy := None;
                         context_precision := None;
                         error := Some message |};
            durationMs := snd run;
            passed := false |}) /\
  input r = i /\
  durationMs r = snd run /\
  (forall s, runPythonScript (fst run) timeout = Returned s ->
     scores r = s) /\
  (forall message, runPythonScript (fst run) timeout = Thrown message ->
     r = {| input := i;
            scores := {| faithfulness := None; answer_relevancy := None;
                         context_precision := None;
                         error := Some message |};
            durationMs := snd run;
            passed := false |}) /\
  (passed r = true <->
   exists code stdout stderr s,
     fst run = Closed code stdout stderr /\
     (nonzero code = true -> stdout <> "") /\
     JSON_parse stdout = Some s /\
     truthy (error s) = false /\
     scores r = s /\
     exists f a c,
       faithfulness s = Some f /\ answer_relevancy s = Some a /\
       context_precision s = Some c /\
       0.85 <= f /\ 0.80 <= a /\ 0.75 <= c) /\
  (fst run = TimedOut ->
   error (scores r) =
   Some ("RAGAS evaluation timed out after " ++ show timeout ++ "ms")) /\
  (forall message, fst run = SpawnError message ->
   error (scores r) = Some ("Failed to spawn Python process: " ++ message)) /\
  (forall code stderr, nonzero code = true ->
   fst run = Closed code "" stderr ->
   error (scores r) =
   Some ("RAGAS script failed with code " ++ show_code code ++ ": "
         ++ stderr)).
Proof.
  cbv zeta. unfold evaluateWithRagas. cbv zeta.
  split; [|split; [|split; [|split; [|split; [|split; [|split]]]]]].
  - destruct (runPythonScript _ _) as [s|message] eqn:Hrun; cbn.
    + apply checkThresholds_true.
    + apply runPythonScript_message in Hrun. cbn in Hrun. rewrite Hrun.
      split; [discriminate|]. intros [H _]. discriminate.
  - intros Hfail.
    destruct (judge_failure_thrown _
                (or_default (timeoutMs options) DEFAULT_TIMEOUT_MS) Hfail)
      as [message Hrun].
    rewrite Hrun. exists message. split; [|reflexivity].
    now apply runPythonScript_message in Hrun.
  - now destruct (runPythonScript _ _).
  - now destruct (runPythonScript _ _).
  - intros s ->. reflexivity.
  - intros message ->. reflexivity.
  - destruct (runPythonScript _ _) as [s|message] eqn:Hrun;
      cbn [passed scores].
    + rewrite checkThresholds_true. split.
      * intros [Herr Hscores]. apply runPythonScript_returned in Hrun.
        destruct Hrun as [code [stdout [stderr [Hp [Hout [Hparse _]]]]]].
        exists code, stdout, stderr, s. auto 7.
      * intros [code [stdout [stderr [s' [_ [_ [_ [Herr [<- Hscores]]]]]]]]].
        auto.
    + split; [discriminate|].
      intros [code [stdout [stderr [s' [Hp [Hout [Hparse [Herr _]]]]]]]].
      assert (Hreturned : runPythonScript (fst run)
                (or_default (timeoutMs options) DEFAULT_TIMEOUT_MS) =
              Returned s').
      { apply runPythonScript_returned.
        exists code, stdout, stderr. auto. }
      congruence.
  - split; [|split].
    + intros ->. reflexivity.
    + intros message ->. reflexivity.
    + intros code stderr Hcode ->. cbn. rewrite Hcode. reflexivity.
Qed.

(** *** Batches *)

Lemma evaluate_from_app (k : nat) (a b : list RagasInput)
  (options : EvaluateOptions) :
  evaluate_from k (a ++ b)%list options =
  (evaluate_from k a options ++
   evaluate_from (k + List.length a) b options)%list.
Proof.
  revert k. induction a as [|x a IH]; intros k; simpl.
  - now rewrite Nat.add_0_r.
  - rewrite IH. do 3 f_equal. lia.
Qed.

Lemma evaluate_from_length (k : nat) (l : list RagasInput)
  (options : EvaluateOptions) :
  List.length (evaluate_from k l options) = List.length l.
Proof.
  revert k. induction l as [|x l IH]; intros k; simpl; [reflexivity|].
  now rewrite IH.
Qed.

Lemma evaluate_from_nth (k : nat) (l : list RagasInput)
  (options : EvaluateOptions) (n : nat) (i : RagasInput) :
  nth_error l n = Some i ->
  nth_error (evaluate_from k l options) n =
  Some (evaluateWithRagas (world (k + n)) i options).
Proof.
  revert k n. induction l as [|x l IH]; intros k [|n]; simpl;
    try discriminate.
  - intros [= ->]. now rewrite Nat.add_0_r.
  - intros H. rewrite (IH (S k) n H). do 3 f_equal. lia.
Qed.

Lemma evaluateWithRagas_input (run : child_process * Z) (i : RagasInput)
  (options : EvaluateOptions) :
  input (evaluateWithRagas run i options) = i.
Proof.
  unfold evaluateWithRagas. cbv zeta.
  destruct (runPythonScript _ _); reflexivity.
Qed.

Lemma position_lt (i : Q) (n : nat) :
  0 <= i -> (i < of_nat n <-> (position i < n)%nat).
Proof.
  intros Hi. unfold position, of_nat.
  assert (H0 : (0 <= Qfloor i)%Z).
  { rewrite <- (Qfloor_Z 0). now apply Qfloor_resp_le. }
  pose proof (Qfloor_le i) as Hlo. pose proof (Qlt_floor i) as Hhi.
  split.
  - intros Hlt.
    assert (H : inject_Z (Qfloor i) < inject_Z (Z.of_nat n))
      by (eapply Qle_lt_trans; eassumption).
    rewrite <- Zlt_Qlt in H. lia.
  - intros Hlt.
    assert (H : (Qfloor i + 1 <= Z.of_nat n)%Z) by lia.
    rewrite Zle_Qle in H. eapply Qlt_le_trans; eassumption.
Qed.

Lemma position_step (i c : Q) :
  0 <= i -> 1 <= c -> (position i + 1 <= position (i + c))%nat.
Proof.
  intros Hi Hc. unfold position.
  assert (H0 : (0 <= Qfloor i)%Z).
  { rewrite <- (Qfloor_Z 0). now apply Qfloor_resp_le. }
  assert (H : (Qfloor i + 1 <= Qfloor (i + c))%Z).
  { apply Z.le_trans with (Qfloor (inject_Z (Qfloor i + 1))).
    - rewrite Qfloor_Z. lia.
    - apply Qfloor_resp_le. rewrite inject_Z_plus.
      pose proof (Qfloor_le i). change (inject_Z 1) with 1. lra. }
  lia.
Qed.

(** For loop indices within the list, [slice] is the segment between the
    two positions. *)
Lemma slice_positions {A : Type} (l : list A) (i c : Q) :
  0 <= i -> 1 <= c -> (position i < List.length l)%nat ->
  slice l i (i + c) =
  firstn (position (i + c) - position i) (skipn (position i) l).
Proof.
  intros Hi Hc Hlt. pose proof (position_step i c Hi Hc) as Hstep.
  unfold slice, trunc. cbv zeta.
  assert (Hic : 0 <= i + c) by lra.
  apply Qle_bool_iff in Hi as Hi'. apply Qle_bool_iff in Hic as Hic'.
  rewrite Hi', Hic'.
  assert (H0 : (0 <= Qfloor i)%Z).
  { rewrite <- (Qfloor_Z 0). now apply Qfloor_resp_le. }
  assert (H1 : (0 <= Qfloor (i + c))%Z).
  { rewrite <- (Qfloor_Z 0). now apply Qfloor_resp_le. }
  destruct (Qfloor i <? 0)%Z eqn:E0; [apply Z.ltb_lt in E0; lia|].
  destruct (Qfloor (i + c) <? 0)%Z eqn:E1; [apply Z.ltb_lt in E1; lia|].
  unfold position in *.
  replace (Z.to_nat (Z.min (Qfloor i) (Z.of_nat (List.length l))))
    with (Z.to_nat (Qfloor i)) by lia.
  set (a := Z.to_nat (Qfloor i)) in *.
  set (b := Z.to_nat (Qfloor (i + c))) in *.
  replace (Z.to_nat (Z.min (Qfloor (i + c)) (Z.of_nat (List.length l)) -
                     Z.min (Qfloor i) (Z.of_nat (List.length l))))
    with (Nat.min b (List.length l) - a)%nat by lia.
  destruct (Nat.le_gt_cases b (List.length l)) as [Hb|Hb].
  - now rewrite Nat.min_l by assumption.
  - rewrite Nat.min_r by lia.
    rewrite !firstn_all2; [reflexivity| |]; rewrite length_skipn; lia.
Qed.

(** The loop started at index [i] with the results of the inputs before
    the position of [i] (all of them when it is beyond the end) finishes
    with the results of all inputs, when the batch size is at least 1 and
    the fuel exceeds the number of inputs left. *)
Lemma evaluateBatch_loop_finishes (inputs : list RagasInput)
  (batch_size : Q) (options : EvaluateOptions) (fuel : nat) (i : Q)
  (results : list RagasEvaluationResult) :
  1 <= batch_size -> 0 <= i ->
  List.length results = Nat.min (position i) (List.length inputs) ->
  (List.length inputs - position i < fuel)%nat ->
  evaluateBatch_loop fuel inputs batch_size options i results =
  Some (results ++
        evaluate_from (List.length results) (skipn (position i) inputs)
          options)%list.
Proof.
  intros Hsize. revert i results.
  induction fuel as [|fuel IH]; intros i results Hi Hlen Hfuel; [lia|].
  cbn [evaluateBatch_loop]. unfold Qlt_bool.
  pose proof (position_lt i (List.length inputs) Hi) as Hpos.
  pose proof (position_step i batch_size Hi Hsize) as Hstep.
  destruct (Qle_bool (of_nat (List.length inputs)) i) eqn:Htest; cbn [negb].
  - apply Qle_bool_iff in Htest.
    assert (Hge : (List.length inputs <= position i)%nat).
    { apply Nat.nlt_ge. intros H. apply Hpos in H. lra. }
    rewrite skipn_all2 by assumption. simpl. now rewrite app_nil_r.
  - assert (Hlt : (position i < List.length inputs)%nat).
    { apply Hpos. apply Qnot_le_lt. intros H.
      apply Qle_bool_iff in H. congruence. }
    cbv zeta. rewrite slice_positions by assumption.
    rewrite IH.
    + rewrite <- app_assoc. do 2 f_equal.
      rewrite <- (firstn_skipn (position (i + batch_size) - position i)
                    (skipn (position i) inputs)) at 3.
      rewrite evaluate_from_app, length_app, evaluate_from_length.
      do 2 f_equal. rewrite skipn_skipn. f_equal. lia.
    + lra.
    + rewrite length_app, evaluate_from_length, length_firstn,
        length_skipn. lia.
    + lia.
Qed.

(** With a batch size of 0 the loop never advances: no amount of fuel
    lets it finish on a non-empty list. *)
Lemma evaluateBatch_loop_zero (inputs : list RagasInput)
  (options : EvaluateOptions) (fuel : nat)
  (results : list RagasEvaluationResult) :
  inputs <> [] ->
  evaluateBatch_loop fuel inputs 0 options 0 results = None.
Proof.
  intros Hne. revert results.
  induction fuel as [|fuel IH]; intros results; [reflexivity|].
  cbn [evaluateBatch_loop].
  destruct inputs as [|x inputs]; [contradiction|].
  assert (Htest : Qlt_bool 0 (of_nat (List.length (x :: inputs))) = true).
  { unfold Qlt_bool. apply negb_true_iff.
    destruct (Qle_bool _ 0) eqn:H; [|reflexivity].
    apply Qle_bool_iff in H. unfold of_nat, Qle in H. simpl in H. lia. }
  rewrite Htest. cbv zeta.
  assert (Hslice : slice (x :: inputs) 0 (0 + 0) = []) by reflexivity.
  rewrite Hslice. cbn [evaluate_from]. rewrite app_nil_r.
  assert (Hfix : evaluateBatch_loop fuel (x :: inputs) 0 options (0 + 0)
                   results =
                 evaluateBatch_loop fuel (x :: inputs) 0 options 0 results)
    by reflexivity.
  rewrite Hfix. apply IH.
Qed.

(** C10. For a concurrency of at least 1, [evaluateBatch] finishes (any
    fuel above the number of inputs is enough) and returns one result per
    input, in the order of the inputs: the result at position [n] is the
    one of the [n]-th call of [evaluateWithRagas], made for the [n]-th
    input, whatever the processes do. *)
Theorem evaluateBatch_preserves_order (fuel : nat)
  (inputs : list RagasInput) (options : EvaluateOptions) :
  1 <= or_default (concurrency options) 3 ->
  (List.length inputs < fuel)%nat ->
  exists results,
    evaluateBatch fuel inputs options = Some results /\
    List.length results = List.length inputs /\
    forall n i, nth_error inputs n = Some i ->
      nth_error results n = Some (evaluateWithRagas (world n) i options) /\
      option_map input (nth_error results n) = Some i.
Proof.
  intros Hc Hfuel. unfold evaluateBatch.
  rewrite evaluateBatch_loop_finishes;
    [|assumption|apply Qle_refl|reflexivity|simpl; lia].
  cbn [app List.length]. change (position 0) with 0%nat. cbn [skipn].
  eexists. split; [reflexivity|]. split; [apply evaluate_from_length|].
  intros n i Hn. rewrite (evaluate_from_nth 0 inputs options n i Hn).
  split; [reflexivity|]. cbn. now rewrite evaluateWithRagas_input.
Qed.

(** *** Further properties of the judge *)

(** X19. When [runPythonScript] resolves, the process has closed, the
    scores are what [JSON.parse] made of its output, and their [error]
    is not truthy; with a non-zero exit code there was output. *)
Theorem runPythonScript_resolved (process : child_process) (timeout : Z)
  (s : RagasScores) :
  runPythonScript process timeout = Returned s ->
  truthy (error s) = false /\
  exists code stdout stderr,
    process = Closed code stdout stderr /\
    JSON_parse stdout = Some s /\
    (nonzero code = true -> stdout <> "").
Proof.
  unfold runPythonScript.
  destruct process as [|message|code stdout stderr]; try discriminate.
  destruct (nonzero code && negb (truthy (Some stdout))) eqn:Hguard;
    [discriminate|].
  destruct (JSON_parse stdout) as [result|] eqn:Hparse; [|discriminate].
  assert (Hout : nonzero code = true -> stdout <> "").
  { intros Hcode ->. rewrite Hcode in Hguard. discriminate. }
  destruct (error result) as [message|] eqn:Herr.
  - destruct (truthy (Some message)) eqn:Hm; [discriminate|].
    intros [= <-]. rewrite Herr. split; [exact Hm|].
    exists code, stdout, stderr. repeat split; assumption.
  - intros [= <-]. rewrite Herr. split; [reflexivity|].
    exists code, stdout, stderr. repeat split; assumption.
Qed.

(** X20. Once the process has written to its standard output, neither
    the exit code nor the error output changes what [runPythonScript]
    makes of it: a failing exit code is reported only when there is no
    output. *)
Theorem runPythonScript_output_decides (code code' : option Z)
  (stdout stderr stderr' : string) (timeout timeout' : Z) :
  stdout <> "" ->
  runPythonScript (Closed code stdout stderr) timeout =
  runPythonScript (Closed code' stdout stderr') timeout'.
Proof.
  intros Hout. unfold runPythonScript.
  assert (Htruthy : truthy (Some stdout) = true).
  { cbn. apply negb_true_iff. now apply String.eqb_neq. }
  rewrite Htruthy. cbn [negb]. now rewrite !andb_false_r.
Qed.

Lemma evaluateWithRagas_valid (run : child_process * Z) (i : RagasInput)
  (options : EvaluateOptions) :
  let r := evaluateWithRagas run i options in
  (passed r = true -> valid r = true) /\
  (valid r = true <->
   exists s, runPythonScript (fst run)
               (or_default (timeoutMs options) DEFAULT_TIMEOUT_MS) =
             Returned s).
Proof.
  cbv zeta. unfold evaluateWithRagas. cbv zeta.
  destruct (runPythonScript (fst run) _) as [s|message] eqn:Hrun;
    cbn [passed valid scores].
  - unfold valid. cbn [scores]. split.
    + intros Hp. apply checkThresholds_true in Hp. destruct Hp as [-> _].
      reflexivity.
    + split; [intros _; now exists s|intros _].
      unfold runPythonScript in Hrun.
      destruct (fst run) as [|m|code stdout stderr]; try discriminate.
      destruct (nonzero code && negb (truthy (Some stdout)));
        [discriminate|].
      destruct (JSON_parse stdout) as [result|]; [|discriminate].
      destruct (error result) as [m|] eqn:Herr.
      * destruct (truthy (Some m)) eqn:Hm; [discriminate|].
        injection Hrun as <-. now rewrite Herr, Hm.
      * injection Hrun as <-. now rewrite Herr.
  - split; [discriminate|].
    apply runPythonScript_message in Hrun. unfold valid.
    cbn [scores failed_scores error]. rewrite Hrun. cbn.
    split; [discriminate|intros [s Hs]; discriminate].
Qed.

Lemma evaluate_from_In (k : nat) (batch : list RagasInput)
  (options : EvaluateOptions) (r : RagasEvaluationResult) :
  In r (evaluate_from k batch options) ->
  exists n i, r = evaluateWithRagas (world n) i options.
Proof.
  revert k. induction batch as [|i batch IH]; intros k; cbn; [intros []|].
  intros [<-|Hin]; [now exists k, i|]. now apply (IH (S k)).
Qed.

Lemma filter_passed_valid (results : list RagasEvaluationResult) :
  Forall (fun r => passed r = true -> valid r = true) results ->
  filter passed (filter valid results) = filter passed results.
Proof.
  induction 1 as [|r rest Hr Hrest IH]; [reflexivity|].
  cbn [filter]. destruct (valid r) eqn:Hv.
  - cbn [filter]. now rewrite IH.
  - rewrite IH. destruct (passed r) eqn:Hp; [|reflexivity].
    specialize (Hr eq_refl). congruence.
Qed.

(** X21. For the records that a batch of [evaluateWithRagas] calls
    returns, [aggregateResults] counts as passed exactly the records
    with [passed = true] and as failed all the others, the records with
    an error among them; [count] is the number of inputs. *)
Theorem aggregateResults_of_batch (k : nat) (inputs : list RagasInput)
  (options : EvaluateOptions) :
  let results := evaluate_from k inputs options in
  let a := aggregateResults results in
  count a = List.length inputs /\
  passed_count a = List.length (filter passed results) /\
  failed a = List.length (filter (fun r => negb (passed r)) results) /\
  (List.length (filter (fun r => negb (valid r)) results) <= failed a)%nat.
Proof.
  cbv zeta. unfold aggregateResults. cbv zeta.
  cbn [count passed_count failed].
  set (results := evaluate_from k inputs options).
  assert (Hall : Forall (fun r => passed r = true -> valid r = true)
                        results).
  { apply Forall_forall. intros r Hr. apply evaluate_from_In in Hr.
    destruct Hr as [n [i ->]]. apply evaluateWithRagas_valid. }
  rewrite (filter_passed_valid results Hall).
  split; [apply evaluate_from_length|]. split; [reflexivity|].
  clearbody results.
  induction Hall as [|r rest Hr Hrest IH]; [cbn; lia|].
  destruct IH as [IH1 IH2]. cbn [filter List.length].
  pose proof (filter_length_le passed rest) as Hle.
  destruct (passed r) eqn:Hp.
  - rewrite (Hr eq_refl). cbn [negb List.length]. lia.
  - cbn [negb List.length]. destruct (valid r); cbn [negb List.length]; lia.
Qed.

(** X22. With a concurrency of 0 or less and at least one input the loop
    of [evaluateBatch] never ends: the index never reaches the length. *)
Theorem evaluateBatch_never_returns (fuel : nat)
  (inputs : list RagasInput) (options : EvaluateOptions) :
  or_default (concurrency options) 3 <= 0 ->
  inputs <> [] ->
  evaluateBatch fuel inputs options = None.
Proof.
  intros Hc Hne. unfold evaluateBatch.
  set (c := or_default (concurrency options) 3) in *.
  assert (Hloop : forall i results, i <= 0 ->
            evaluateBatch_loop fuel inputs c options i results = None).
  { induction fuel as [|fuel IH]; intros i results Hi; [reflexivity|].
    cbn [evaluateBatch_loop].
    assert (Htest : Qlt_bool i (of_nat (List.length inputs)) = true).
    { unfold Qlt_bool. apply negb_true_iff.
      destruct (Qle_bool _ i) eqn:H; [|reflexivity].
      apply Qle_bool_iff in H. exfalso.
      assert (Hlen : 0 < of_nat (List.length inputs)).
      { destruct inputs; [contradiction|].
        unfold of_nat, Qlt. simpl. lia. }
      lra. }
    rewrite Htest. cbv zeta. apply IH. lra. }
  apply Hloop. lra.
Qed.

End Judge.

(** *** Aggregation *)

Lemma fold_add_scores (l : list RagasEvaluationResult) (acc : metrics) :
  m_faithfulness (fold_left add_scores l acc) ==
    m_faithfulness acc +
    total (map (fun r => or_zero (faithfulness (scores r))) l) /\
  m_answer_relevancy (fold_left add_scores l acc) ==
    m_answer_relevancy acc +
    total (map (fun r => or_zero (answer_relevancy (scores r))) l) /\
  m_context_precision (fold_left add_scores l acc) ==
    m_context_precision acc +
    total (map (fun r => or_zero (context_precision (scores r))) l).
Proof.
  revert acc. induction l as [|r l IH]; intros acc; cbn [fold_left map total].
  - repeat split; lra.
  - destruct (IH (add_scores acc r)) as [Hf [Ha Hc]].
    rewrite Hf, Ha, Hc. cbn [add_scores m_faithfulness m_answer_relevancy
                               m_context_precision].
    repeat split; lra.
Qed.

Lemma of_nat_nonzero (n : nat) : (0 < n)%nat -> ~ of_nat n == 0.
Proof.
  intros Hn H. unfold of_nat, Qeq in H. simpl in H. lia.
Qed.

(** C9. [aggregateResults] counts all records, takes the averages over the
    records without error only (a null score counting as 0), yields 0 for
    the pass rate and for every average when there is no such record, and
    divides by the number of such records, which is not 0, otherwise; on
    the empty list everything is 0. *)
Theorem aggregateResults_averages (results : list RagasEvaluationResult) :
  let validResults := filter valid results in
  let n := List.length validResults in
  let a := aggregateResults results in
  let mean (score : RagasScores -> option Q) :=
    total (map (fun r => or_zero (score (scores r))) validResults) /
    of_nat n in
  count a = List.length results /\
  passed_count a = List.length (filter passed validResults) /\
  failed a = (List.length results - passed_count a)%nat /\
  (n = 0%nat -> passRate a = 0 /\ averages a = zero_metrics) /\
  ((0 < n)%nat ->
   ~ of_nat n == 0 /\
   passRate a == of_nat (passed_count a) / of_nat n /\
   m_faithfulness (averages a) == mean faithfulness /\
   m_answer_relevancy (averages a) == mean answer_relevancy /\
   m_context_precision (averages a) == mean context_precision) /\
  aggregateResults [] =
    {| count := 0; passed_count := 0; failed := 0; passRate := 0;
       averages := zero_metrics |}.
Proof.
  cbv zeta. unfold aggregateResults. cbv zeta.
  cbn [count passed_count failed passRate averages m_faithfulness
       m_answer_relevancy m_context_precision].
  split; [reflexivity|]. split; [reflexivity|]. split; [reflexivity|].
  split; [|split; [|reflexivity]].
  - intros Hn. rewrite Hn. split; reflexivity.
  - intros Hn. apply Nat.ltb_lt in Hn. rewrite Hn.
    apply Nat.ltb_lt in Hn. split; [now apply of_nat_nonzero|].
    split; [reflexivity|].
    destruct (fold_add_scores (filter valid results)
                {| m_faithfulness := 0; m_answer_relevancy := 0;
                   m_context_precision := 0 |}) as [Hf [Ha Hc]].
    rewrite Hf, Ha, Hc. cbn [m_faithfulness m_answer_relevancy
                               m_context_precision].
    rewrite !Qplus_0_l. repeat split; reflexivity.
Qed.


(** *** Further properties of the aggregation *)

Lemma of_nat_le (p n : nat) : (p <= n)%nat -> of_nat p <= of_nat n.
Proof. intros H. unfold of_nat. rewrite <- Zle_Qle. lia. Qed.

Lemma of_nat_positive (n : nat) : (0 < n)%nat -> 0 < of_nat n.
Proof.
  intros H. unfold of_nat. change 0 with (inject_Z 0).
  rewrite <- Zlt_Qlt. lia.
Qed.

Lemma of_nat_succ (n : nat) : of_nat (S n) == of_nat n + 1.
Proof.
  unfold of_nat. rewrite Nat2Z.inj_succ. unfold Z.succ.
  now rewrite inject_Z_plus.
Qed.

Lemma share_bounds (x n : Q) : 0 < n -> 0 <= x <= n -> 0 <= x / n <= 1.
Proof.
  intros Hn [H0 Hx]. split.
  - apply Qle_shift_div_l; [assumption|]. lra.
  - apply Qle_shift_div_r; [assumption|]. lra.
Qed.

(** X23. In the result of [aggregateResults] passed and failed add up to
    [count], no more records are passed than are free of error, and the
    pass rate is a number between 0 and 1 that is 0 when no record is
    free of error. *)
Theorem aggregateResults_counts (results : list RagasEvaluationResult) :
  let a := aggregateResults results in
  (passed_count a + failed a = count a)%nat /\
  (passed_count a <= List.length (filter valid results))%nat /\
  0 <= passRate a <= 1 /\
  (filter valid results = [] -> passRate a = 0 /\ passed_count a = 0%nat).
Proof.
  cbv zeta. unfold aggregateResults. cbv zeta.
  cbn [count passed_count failed passRate].
  pose proof (filter_length_le passed (filter valid results)) as Hp.
  pose proof (filter_length_le valid results) as Hv.
  split; [lia|]. split; [exact Hp|]. split.
  - destruct (0 <? List.length (filter valid results))%nat eqn:Hn;
      [|lra].
    apply Nat.ltb_lt in Hn. apply share_bounds.
    + now apply of_nat_positive.
    + split; [|now apply of_nat_le].
      apply (of_nat_le 0). lia.
  - intros ->. split; reflexivity.
Qed.

(** A score that is null or a number between 0 and 1. *)
Definition unit_score (x : option Q) : Prop :=
  match x with
  | Some v => 0 <= v <= 1
  | None => True
  end.

Lemma total_bounds (l : list Q) :
  Forall (fun x => 0 <= x <= 1) l ->
  0 <= total l <= of_nat (List.length l).
Proof.
  induction 1 as [|x l Hx Hl IH].
  - split; apply Qle_refl.
  - cbn [total List.length]. rewrite of_nat_succ. lra.
Qed.

Lemma mean_score_bounds (score : RagasScores -> option Q)
  (l : list RagasEvaluationResult) (sum : Q) :
  Forall (fun r => unit_score (score (scores r))) l ->
  sum == 0 + total (map (fun r => or_zero (score (scores r))) l) ->
  0 <= (if (0 <? List.length l)%nat then sum / of_nat (List.length l)
        else 0) <= 1.
Proof.
  intros Hall Hsum.
  destruct (0 <? List.length l)%nat eqn:Hn; [|lra].
  apply Nat.ltb_lt in Hn. apply share_bounds.
  - now apply of_nat_positive.
  - rewrite Hsum, Qplus_0_l.
    rewrite <- (length_map (fun r => or_zero (score (scores r))) l).
    apply total_bounds. apply Forall_forall. intros x Hx.
    apply in_map_iff in Hx. destruct Hx as [r [<- Hr]].
    rewrite Forall_forall in Hall. specialize (Hall r Hr).
    unfold unit_score, or_zero in *.
    destruct (score (scores r)); [assumption|lra].
Qed.

(** X24. When the scores of the records without error are null or
    between 0 and 1, so are the three averages of [aggregateResults]. *)
Theorem aggregateResults_averages_unit
  (results : list RagasEvaluationResult) :
  Forall (fun r => valid r = true ->
            unit_score (faithfulness (scores r)) /\
            unit_score (answer_relevancy (scores r)) /\
            unit_score (context_precision (scores r))) results ->
  let m := averages (aggregateResults results) in
  0 <= m_faithfulness m <= 1 /\
  0 <= m_answer_relevancy m <= 1 /\
  0 <= m_context_precision m <= 1.
Proof.
  intros Hall. cbv zeta. unfold aggregateResults. cbv zeta.
  cbn [averages m_faithfulness m_answer_relevancy m_context_precision].
  assert (Hvalid : Forall (fun r =>
                     unit_score (faithfulness (scores r)) /\
                     unit_score (answer_relevancy (scores r)) /\
                     unit_score (context_precision (scores r)))
                   (filter valid results)).
  { apply Forall_forall. intros r Hr. apply filter_In in Hr.
    destruct Hr as [Hin Hv]. rewrite Forall_forall in Hall.
    now apply Hall. }
  destruct (fold_add_scores (filter valid results)
              {| m_faithfulness := 0; m_answer_relevancy := 0;
                 m_context_precision := 0 |}) as [Hf [Ha Hc]].
  cbn [m_faithfulness m_answer_relevancy m_context_precision] in Hf, Ha, Hc.
  split; [|split].
  - apply (mean_score_bounds faithfulness); [|exact Hf].
    eapply Forall_impl; [|exact Hvalid]. cbv beta. tauto.
  - apply (mean_score_bounds answer_relevancy); [|exact Ha].
    eapply Forall_impl; [|exact Hvalid]. cbv beta. tauto.
  - apply (mean_score_bounds context_precision); [|exact Hc].
    eapply Forall_impl; [|exact Hvalid]. cbv beta. tauto.
Qed.

(** *** A sample judge *)

(** A stand-in for [JSON.parse] that knows two outputs. *)
Definition sample_parse (stdout : string) : option RagasScores :=
  if (stdout =? "at-threshold")%string then
    Some {| faithfulness := Some 0.85; answer_relevancy := Some 0.80;
            context_precision := Some 0.75; error := None |}
  else if (stdout =? "below")%string then
    Some {| faithfulness := Some 0.84; answer_relevancy := Some 0.95;
            context_precision := Some 0.90; error := None |}
  else None.

(** Four calls: a pass, a timeout, a miss, and a spawn failure from then
    on. *)
Definition sample_world (n : nat) : child_process * Z :=
  match n with
  | 0%nat => (Closed (Some 0%Z) "at-threshold" "", 1200%Z)
  | 1%nat => (TimedOut, 60000%Z)
  | 2%nat => (Closed (Some 0%Z) "below" "", 900%Z)
  | _ => (SpawnError "spawn python3 ENOENT", 3%Z)
  end.

Definition ask (q : string) : RagasInput :=
  {| question := q; answer := "It depends."; contexts := ["..."] |}.

Definition defaults : EvaluateOptions :=
  {| timeoutMs := None; concurrency := None |}.

Definition sample_inputs : list RagasInput :=
  [ask "q0"; ask "q1"; ask "q2"; ask "q3"].

Definition sample_results : list RagasEvaluationResult :=
  Eval vm_compute in
    evaluate_from sample_parse sample_world 0 sample_inputs defaults.

Example evaluateBatch_sample :
  evaluateBatch sample_parse sample_world 5 sample_inputs defaults =
  Some sample_results.
Proof. vm_compute. reflexivity. Qed.

Example evaluateBatch_sample_fractional :
  evaluateBatch sample_parse sample_world 5 sample_inputs
    {| timeoutMs := None; concurrency := Some 1.5 |} =
  Some sample_results.
Proof. vm_compute. reflexivity. Qed.

Example evaluateBatch_sample_passed :
  map passed sample_results = [true; false; false; false].
Proof. reflexivity. Qed.

Lemma evaluateWithRagas_passed_witness :
  (passed (evaluateWithRagas sample_parse (sample_world 0) (ask "q0")
             defaults) = true /\
   scores (evaluateWithRagas sample_parse (sample_world 0) (ask "q0")
             defaults) =
   {| faithfulness := Some 0.85; answer_relevancy := Some 0.80;
      context_precision := Some 0.75; error := None |}) /\
  (passed (evaluateWithRagas sample_parse (sample_world 2) (ask "q2")
             defaults) <> true /\
   scores (evaluateWithRagas sample_parse (sample_world 2) (ask "q2")
             defaults) =
   {| faithfulness := Some 0.84; answer_relevancy := Some 0.95;
      context_precision := Some 0.90; error := None |}) /\
  evaluateWithRagas sample_parse (sample_world 1) (ask "q1") defaults =
  {| input := ask "q1";
     scores := failed_scores "RAGAS evaluation timed out after 60000ms";
     durationMs := 60000; passed := false |}.
Proof.
  destruct (evaluateWithRagas_passed sample_parse (sample_world 0)
              (ask "q0") defaults)
    as [_ [_ [_ [_ [Hscores0 [_ [Hpassed0 _]]]]]]].
  destruct (evaluateWithRagas_passed sample_parse (sample_world 2)
              (ask "q2") defaults)
    as [_ [_ [_ [_ [Hscores2 [_ [Hpassed2 _]]]]]]].
  destruct (evaluateWithRagas_passed sample_parse (sample_world 1)
              (ask "q1") defaults)
    as [_ [_ [_ [_ [_ [Hthrown1 _]]]]]].
  split; [|split].
  - split.
    + apply Hpassed0.
      exists (Some 0%Z), "at-threshold", "",
        {| faithfulness := Some 0.85; answer_relevancy := Some 0.80;
           context_precision := Some 0.75; error := None |}.
      split; [reflexivity|]. split; [discriminate|].
      split; [reflexivity|]. split; [reflexivity|].
      split; [apply Hscores0; reflexivity|].
      exists 0.85, 0.80, 0.75. repeat split; apply Qle_refl.
    + apply Hscores0. reflexivity.
  - split.
    + intros Hp. apply Hpassed2 in Hp.
      destruct Hp as [code [stdout [stderr [s [Hrun [_ [Hparse [_ [_
        [f [a [c [Hf [_ [_ [Hle _]]]]]]]]]]]]]]]].
      injection Hrun as <- <- <-.
      injection Hparse as <-. injection Hf as <-.
      revert Hle. vm_compute. intros H. apply H. reflexivity.
    + apply Hscores2. reflexivity.
  - apply Hthrown1. vm_compute. reflexivity.
Defined.

Lemma aggregateResults_averages_witness :
  (passRate (aggregateResults sample_results) == 1 # 2 /\
   m_faithfulness (averages (aggregateResults sample_results)) == 0.845) /\
  averages (aggregateResults (skipn 3 sample_results)) = zero_metrics.
Proof.
  split.
  - destruct (aggregateResults_averages sample_results)
      as [_ [_ [_ [_ [H _]]]]].
    destruct H as [_ [Hrate [Hf _]]]; [vm_compute; lia|].
    split; [rewrite Hrate|rewrite Hf]; reflexivity.
  - destruct (aggregateResults_averages (skipn 3 sample_results))
      as [_ [_ [_ [H _]]]].
    now destruct H as [_ H].
Defined.

Lemma evaluateBatch_preserves_order_witness :
  exists results,
    evaluateBatch sample_parse sample_world 5 sample_inputs defaults =
      Some results /\
    List.length results = 4%nat /\
    forall n i, nth_error sample_inputs n = Some i ->
      nth_error results n =
        Some (evaluateWithRagas sample_parse (sample_world n) i defaults) /\
      option_map input (nth_error results n) = Some i.
Proof.
  apply (evaluateBatch_preserves_order sample_parse sample_world 5
           sample_inputs defaults); [discriminate|simpl; lia].
Defined.

(** *** Samples for the further properties *)

Definition at_threshold : RagasScores :=
  {| faithfulness := Some 0.85; answer_relevancy := Some 0.80;
     context_precision := Some 0.75; error := None |}.

Lemma runPythonScript_resolved_witness :
  truthy (error at_threshold) = false /\
  exists code stdout stderr,
    Closed (Some 1%Z) "at-threshold" "warning" =
      Closed code stdout stderr /\
    sample_parse stdout = Some at_threshold /\
    (nonzero code = true -> stdout <> "").
Proof.
  apply (runPythonScript_resolved sample_parse
           (Closed (Some 1%Z) "at-threshold" "warning") 60000 at_threshold).
  vm_compute. reflexivity.
Defined.

Lemma runPythonScript_output_decides_witness :
  runPythonScript sample_parse (Closed (Some 1%Z) "below" "Traceback")
    1000 =
  runPythonScript sample_parse (Closed (Some 0%Z) "below" "") 60000.
Proof.
  apply (runPythonScript_output_decides sample_parse (Some 1%Z) (Some 0%Z)
           "below" "Traceback" "" 1000 60000).
  discriminate.
Defined.

Lemma evaluateBatch_never_returns_witness :
  evaluateBatch sample_parse sample_world 1000 sample_inputs
    {| timeoutMs := None; concurrency := Some (-1) |} = None.
Proof.
  apply (evaluateBatch_never_returns sample_parse sample_world 1000
           sample_inputs {| timeoutMs := None; concurrency := Some (-1) |}).
  - vm_compute. discriminate.
  - discriminate.
Defined.

Lemma aggregateResults_averages_unit_witness :
  0 <= m_faithfulness (averages (aggregateResults sample_results)) <= 1 /\
  0 <= m_answer_relevancy (averages (aggregateResults sample_results))
    <= 1 /\
  0 <= m_context_precision (averages (aggregateResults sample_results))
    <= 1.
Proof.
  apply (aggregateResults_averages_unit sample_results).
  repeat constructor; vm_compute; discriminate.
Defined.

End Ragas.

(** ** Ranking metrics (scripts/evaluate-search.ts) *)

Module Metrics.
Local Open Scope string_scope.
Local Open Scope R_scope.

(** The fields of a [SearchResult] that the evaluation reads. *)
Record SearchResult : Type := {
  text : string;
  guest : string;
  similarity : R
}.

(** The fields of a [GoldenQuery] that the evaluation reads; the optional
    arrays are [None] when absent. *)
Record GoldenQuery : Type := {
  topic : string;
  expectedOutcome : string;
  mustIncludeKeywords : option (list string);
  expectedGuests : option (list string)
}.

Inductive RelevanceGrade : Type :=
| highly_relevant
| relevant
| somewhat_relevant
| not_relevant.

(** [a > b] and [a >= b] on numbers. *)
Definition gt (a b : R) : bool := if Rlt_dec b a then true else false.
Definition ge (a b : R) : bool := if Rle_dec b a then true else false.

(** [Math.log2]. *)
Definition log2 (x : R) : R := ln x / ln 2.

(** [estimateRelevance]: the grade and the score.  For an empty keyword
    array JavaScript computes 0/0 = NaN; real numbers have no NaN, so the
    properties below are stated for queries whose keyword array, when
    present, is not empty. *)
Definition estimateRelevance (result : SearchResult) (goldenQuery : GoldenQuery)
  : RelevanceGrade * R :=
  let text := lower (text result) in
  let keyword_part :=
    match mustIncludeKeywords goldenQuery with
    | Some keywords =>
        let keywordMatches :=
          List.length (filter (fun kw => includes text (lower kw)) keywords) in
        INR keywordMatches / INR (List.length keywords) * 0.4
    | None => if includes text (topic goldenQuery) then 0.3 else 0
    end in
  let guest_part :=
    match expectedGuests goldenQuery with
    | Some guests =>
        if existsb (fun g => includes (lower (guest result)) (lower g)) guests
        then 0.4 else 0
    | None => 0
    end in
  let similarity_part :=
    if gt (similarity result) 0.7 then 0.3
    else if gt (similarity result) 0.5 then 0.2
    else if gt (similarity result) 0.3 then 0.1
    else 0 in
  let score := 0 + keyword_part + guest_part + similarity_part in
  let grade :=
    if ge score 0.7 then highly_relevant
    else if ge score 0.5 then relevant
    else if ge score 0.3 then somewhat_relevant
    else not_relevant in
  (grade, Rmin score 1).

Definition relevanceScore (goldenQuery : GoldenQuery) (result : SearchResult)
  : R :=
  snd (estimateRelevance result goldenQuery).

Definition well_formed (goldenQuery : GoldenQuery) : Prop :=
  mustIncludeKeywords goldenQuery <> Some [].

(** The first loop of [calculateNDCG], from index [i] with the sum [dcg]
    so far. *)
Fixpoint dcg_loop (goldenQuery : GoldenQuery) (topK : list SearchResult)
  (i : nat) (dcg : R) : R :=
  match topK with
  | [] => dcg
  | result :: rest =>
      dcg_loop goldenQuery rest (S i)
        (dcg + relevanceScore goldenQuery result / log2 (INR i + 2))
  end.

(** The second loop, over [idealScores]. *)
Fixpoint idcg_loop (idealScores : list R) (i : nat) (idcg : R) : R :=
  match idealScores with
  | [] => idcg
  | score :: rest =>
      idcg_loop rest (S i) (idcg + score / log2 (INR i + 2))
  end.

(** [.sort((a, b) => b - a)]. *)
Definition sort_descending (scores : list R) : list R :=
  order_by ge scores.

Definition calculateNDCG (results : list SearchResult)
  (goldenQuery : GoldenQuery) (k : nat) : R :=
  let topK := firstn k results in
  let dcg := dcg_loop goldenQuery topK 0 0 in
  let idealScores :=
    sort_descending (map (relevanceScore goldenQuery) topK) in
  let idcg := idcg_loop idealScores 0 0 in
  if Req_dec_T idcg 0 then 0 else dcg / idcg.

(** The sum of [scores(i) / log2(i + 2)] over the positions [i] of
    [scores]. *)
Definition discounted_sum (scores : list R) : R :=
  fold_right Rplus 0
    (map (fun i => nth i scores 0 / log2 (INR i + 2))
         (seq 0 (List.length scores))).

(** The discounted sum of [scores] placed at the positions from [i] on. *)
Definition discounted_from (i : nat) (scores : list R) : R :=
  fold_right Rplus 0
    (map (fun j => nth j scores 0 / log2 (INR (i + j) + 2))
         (seq 0 (List.length scores))).

(** NDCG\@K in the words of the specification: DCG is the discounted sum
    over the positions below [k], the ideal DCG is the same sum for the
    relevance scores of the result list sorted in descending order, whose
    first [k] positions hold the [k] best scores. *)
Definition ndcg_ideal_over_all (results : list SearchResult)
  (goldenQuery : GoldenQuery) (k : nat) : R :=
  let scores := map (relevanceScore goldenQuery) results in
  let dcg := discounted_sum (firstn k scores) in
  let idcg := discounted_sum (firstn k (sort_descending scores)) in
  if Req_dec_T idcg 0 then 0 else dcg / idcg.

(** The test of the three measures below: the grade of the result is
    ["highly_relevant"] or ["relevant"]. *)
Definition is_relevant (goldenQuery : GoldenQuery) (r : SearchResult)
  : bool :=
  match fst (estimateRelevance r goldenQuery) with
  | highly_relevant | relevant => true
  | somewhat_relevant | not_relevant => false
  end.

Definition calculatePrecision (results : list SearchResult)
  (goldenQuery : GoldenQuery) (k : nat) : R :=
  let topK := firstn k results in
  if (List.length topK =? 0)%nat then 0
  else
    let relevant := filter (is_relevant goldenQuery) topK in
    INR (List.length relevant) / INR k.

Definition calculateRecall (results : list SearchResult)
  (goldenQuery : GoldenQuery) (k : nat) : R :=
  let estimatedRelevant :=
    if expectedOutcome goldenQuery =? "single-expert" then 3 else 10 in
  let topK := firstn k results in
  let foundRelevant :=
    List.length (filter (is_relevant goldenQuery) topK) in
  Rmin (INR foundRelevant / estimatedRelevant) 1.

(** The loop of [calculateMRR], from index [i]. *)
Fixpoint mrr_loop (goldenQuery : GoldenQuery) (results : list SearchResult)
  (i : nat) : R :=
  match results with
  | [] => 0
  | result :: rest =>
      if is_relevant goldenQuery result then 1 / (INR i + 1)
      else mrr_loop goldenQuery rest (S i)
  end.

Definition calculateMRR (results : list SearchResult)
  (goldenQuery : GoldenQuery) : R :=
  mrr_loop goldenQuery results 0.

(** The measures of an [EvaluationResult]; the identification of the
    query and the duration are left out. *)
Record EvaluationResult : Type := {
  precision_at_5 : R;
  precision_at_10 : R;
  recall_at_10 : R;
  mrr : R;
  ndcg_at_10 : R;
  resultCount : nat;
  keywordMatchesTop5 : nat;
  keywordMatchesTop10 : nat;
  expectedGuestsFound : nat;
  expectedGuestsTotal : nat
}.

Definition hasMatch (keywords : list string) (r : SearchResult) : bool :=
  existsb (fun kw => includes (lower (text r)) (lower kw)) keywords.

(** One call of the [forEach] callback: the index, [keywordMatchesTop5]
    and [keywordMatchesTop10]. *)
Definition count_match (keywords : list string)
  (state : nat * nat * nat) (r : SearchResult) : nat * nat * nat :=
  let '(idx, top5, top10) := state in
  if hasMatch keywords r then
    (S idx, if (idx <? 5)%nat then S top5 else top5, S top10)
  else (S idx, top5, top10).

(** What [evaluateQuery] makes of the [results] that [search] returned
    for the query. *)
Definition evaluateQuery (results : list SearchResult)
  (goldenQuery : GoldenQuery) : EvaluationResult :=
  let '(_, top5, top10) :=
    match mustIncludeKeywords goldenQuery with
    | Some keywords =>
        fold_left (count_match keywords) (firstn 10 results)
                  (0, 0, 0)%nat
    | None => (0, 0, 0)%nat
    end in
  let found :=
    match expectedGuests goldenQuery with
    | Some guests =>
        let foundGuests :=
          map (fun r => lower (guest r)) (firstn 10 results) in
        List.length
          (filter (fun g => existsb (String.eqb (lower g)) foundGuests)
                  guests)
    | None => 0%nat
    end in
  {| precision_at_5 := calculatePrecision results goldenQuery 5;
     precision_at_10 := calculatePrecision results goldenQuery 10;
     recall_at_10 := calculateRecall results goldenQuery 10;
     mrr := calculateMRR results goldenQuery;
     ndcg_at_10 := calculateNDCG results goldenQuery 10;
     resultCount := List.length results;
     keywordMatchesTop5 := top5;
     keywordMatchesTop10 := top10;
     expectedGuestsFound := found;
     expectedGuestsTotal :=
       match expectedGuests goldenQuery with
       | Some guests => List.length guests
       | None => 0%nat
       end |}.

Record AggregateMetrics : Type := {
  mean_precision_at_5 : R;
  mean_precision_at_10 : R;
  mean_recall_at_10 : R;
  mean_mrr : R;
  mean_ndcg_at_10 : R;
  count : nat
}.

(** [results.reduce((sum, r) => sum + f(r), 0)]. *)
Definition reduce_sum (f : EvaluationResult -> R)
  (results : list EvaluationResult) : R :=
  fold_left (fun sum r => sum + f r) results 0.

Definition aggregateMetrics (results : list EvaluationResult)
  : AggregateMetrics :=
  if (List.length results =? 0)%nat then
    {| mean_precision_at_5 := 0; mean_precision_at_10 := 0;
       mean_recall_at_10 := 0; mean_mrr := 0; mean_ndcg_at_10 := 0;
       count := 0 |}
  else
    let n := INR (List.length results) in
    {| mean_precision_at_5 := reduce_sum precision_at_5 results / n;
       mean_precision_at_10 := reduce_sum precision_at_10 results / n;
       mean_recall_at_10 := reduce_sum recall_at_10 results / n;
       mean_mrr := reduce_sum mrr results / n;
       mean_ndcg_at_10 := reduce_sum ndcg_at_10 results / n;
       count := List.length results |}.

(** *** The two loops compute discounted sums *)

Lemma discounted_from_cons (i : nat) (score : R) (rest : list R) :
  discounted_from i (score :: rest) =
  score / log2 (INR i + 2) + discounted_from (S i) rest.
Proof.
  unfold discounted_from. cbn [List.length seq map fold_right nth].
  rewrite Nat.add_0_r. f_equal.
  rewrite <- seq_shift, map_map. f_equal.
  apply map_ext. intros j. cbn [nth].
  now replace (i + S j)%nat with (S i + j)%nat by lia.
Qed.

Lemma idcg_loop_sum (scores : list R) (i : nat) (acc : R) :
  idcg_loop scores i acc = acc + discounted_from i scores.
Proof.
  revert i acc. induction scores as [|score rest IH]; intros i acc.
  - unfold discounted_from. simpl. ring.
  - cbn [idcg_loop]. rewrite IH, discounted_from_cons. ring.
Qed.

Lemma discounted_from_0 (scores : list R) :
  discounted_from 0 scores = discounted_sum scores.
Proof. reflexivity. Qed.

Lemma dcg_loop_scores (goldenQuery : GoldenQuery) (topK : list SearchResult)
  (i : nat) (acc : R) :
  dcg_loop goldenQuery topK i acc =
  idcg_loop (map (relevanceScore goldenQuery) topK) i acc.
Proof.
  revert i acc. induction topK as [|r rest IH]; intros i acc;
    [reflexivity|].
  cbn [dcg_loop idcg_loop map]. apply IH.
Qed.

Lemma discounted_from_zero (i : nat) (scores : list R) :
  Forall (fun s => s = 0) scores -> discounted_from i scores = 0.
Proof.
  intros Hall. revert i.
  induction Hall as [|s rest Hs Hrest IH]; intros i.
  - reflexivity.
  - rewrite discounted_from_cons, IH, Hs. unfold Rdiv. ring.
Qed.

(** *** The ideal ranking *)

Lemma ge_total (a b : R) : ge a b = false -> ge b a = true.
Proof.
  unfold ge. destruct (Rle_dec b a); [discriminate|].
  intros _. destruct (Rle_dec a b); [reflexivity|exfalso; lra].
Qed.

Lemma ge_trans (a b c : R) :
  ge a b = true -> ge b c = true -> ge a c = true.
Proof.
  unfold ge.
  destruct (Rle_dec b a), (Rle_dec c b), (Rle_dec c a);
    try discriminate; try reflexivity; exfalso; lra.
Qed.

Lemma ge_true (a b : R) : ge a b = true -> b <= a.
Proof. unfold ge. destruct (Rle_dec b a); [auto|discriminate]. Qed.

Lemma sort_descending_sorted (scores : list R) :
  Permutation (sort_descending scores) scores /\
  StronglySorted (fun a b => b <= a) (sort_descending scores).
Proof.
  split; [apply order_by_perm|].
  apply (StronglySorted_weaken (fun a b => ge a b = true)).
  - apply ge_true.
  - apply order_by_sorted; [apply ge_total|apply ge_trans].
Qed.

Lemma calculateNDCG_sums (results : list SearchResult)
  (goldenQuery : GoldenQuery) (k : nat) :
  let scores := map (relevanceScore goldenQuery) (firstn k results) in
  calculateNDCG results goldenQuery k =
  if Req_dec_T (discounted_sum (sort_descending scores)) 0 then 0
  else discounted_sum scores / discounted_sum (sort_descending scores).
Proof.
  cbv zeta. unfold calculateNDCG. cbv zeta.
  rewrite dcg_loop_scores, !idcg_loop_sum, !discounted_from_0, !Rplus_0_l.
  reflexivity.
Qed.

(** C7 (as the code has it). For a query whose keyword array is not
    empty, [calculateNDCG] takes the relevance scores of the first [k]
    results; DCG is the sum over their positions [i] of [score(i) /
    log2(i + 2)], the ideal DCG is that sum for the same [k] scores in
    descending order (results beyond position [k] play no part), and the
    value is exactly 0 when the ideal DCG is 0, as it is when every
    result has relevance 0, and DCG / ideal DCG otherwise. *)
Theorem calculateNDCG_top_k (results : list SearchResult)
  (goldenQuery : GoldenQuery) (k : nat) :
  well_formed goldenQuery ->
  let scores := map (relevanceScore goldenQuery) (firstn k results) in
  let ideal := sort_descending scores in
  let dcg := discounted_sum scores in
  let idcg := discounted_sum ideal in
  List.length scores = Nat.min k (List.length results) /\
  Permutation ideal scores /\
  StronglySorted (fun a b => b <= a) ideal /\
  (idcg = 0 -> calculateNDCG results goldenQuery k = 0) /\
  (idcg <> 0 -> calculateNDCG results goldenQuery k = dcg / idcg) /\
  (Forall (fun r => relevanceScore goldenQuery r = 0) results ->
   idcg = 0 /\ calculateNDCG results goldenQuery k = 0).
Proof.
  intros _. cbv zeta.
  pose proof (calculateNDCG_sums results goldenQuery k) as Hsum.
  cbv zeta in Hsum.
  destruct (sort_descending_sorted
              (map (relevanceScore goldenQuery) (firstn k results)))
    as [Hperm Hsorted].
  split; [now rewrite length_map, length_firstn|].
  split; [exact Hperm|]. split; [exact Hsorted|].
  assert (Hzero : discounted_sum
                    (sort_descending
                       (map (relevanceScore goldenQuery) (firstn k results)))
                  = 0 ->
                  calculateNDCG results goldenQuery k = 0).
  { intros H0. rewrite Hsum.
    destruct (Req_dec_T _ 0); [reflexivity|contradiction]. }
  split; [exact Hzero|]. split.
  - intros Hne. rewrite Hsum.
    destruct (Req_dec_T _ 0); [contradiction|reflexivity].
  - intros Hall.
    assert (H0 : discounted_sum
                   (sort_descending
                      (map (relevanceScore goldenQuery) (firstn k results)))
                 = 0).
    { rewrite <- discounted_from_0. apply discounted_from_zero.
      apply Forall_forall. intros s Hs.
      apply (Permutation_in _ Hperm) in Hs. apply in_map_iff in Hs.
      destruct Hs as [r [<- Hr]]. apply firstn_In in Hr.
      rewrite Forall_forall in Hall. now apply Hall. }
    split; [exact H0|now apply Hzero].
Qed.

(** *** Sample results *)

Definition hit (sim : R) : SearchResult :=
  {| text := "We changed the pricing page"; guest := "Elena Verna";
     similarity := sim |}.

(** A query without keywords and guests whose topic is not in the text:
    the relevance is the similarity tier alone. *)
Definition plain_query : GoldenQuery :=
  {| topic := "onboarding"; expectedOutcome := "multi-expert";
     mustIncludeKeywords := None; expectedGuests := None |}.

Lemma relevanceScore_hit (sim : R) :
  relevanceScore plain_query (hit sim) =
  Rmin (if gt sim 0.7 then 0.3
        else if gt sim 0.5 then 0.2
        else if gt sim 0.3 then 0.1 else 0) 1.
Proof.
  unfold relevanceScore, estimateRelevance. cbv zeta.
  cbn [mustIncludeKeywords expectedGuests plain_query topic text hit
       similarity snd].
  assert (Hinc : includes (lower "We changed the pricing page") "onboarding"
                 = false) by reflexivity.
  rewrite Hinc. f_equal. ring.
Qed.

Lemma relevanceScore_hit_06 : relevanceScore plain_query (hit 0.6) = 0.2.
Proof.
  rewrite relevanceScore_hit. unfold gt.
  destruct (Rlt_dec 0.7 0.6); [exfalso; lra|].
  destruct (Rlt_dec 0.5 0.6); [|exfalso; lra].
  apply Rmin_left. lra.
Qed.

Lemma relevanceScore_hit_08 : relevanceScore plain_query (hit 0.8) = 0.3.
Proof.
  rewrite relevanceScore_hit. unfold gt.
  destruct (Rlt_dec 0.7 0.8); [|exfalso; lra].
  apply Rmin_left. lra.
Qed.

Lemma relevanceScore_hit_01 : relevanceScore plain_query (hit 0.1) = 0.
Proof.
  rewrite relevanceScore_hit. unfold gt.
  destruct (Rlt_dec 0.7 0.1); [exfalso; lra|].
  destruct (Rlt_dec 0.5 0.1); [exfalso; lra|].
  destruct (Rlt_dec 0.3 0.1); [exfalso; lra|].
  apply Rmin_left. lra.
Qed.

Lemma log2_2 : log2 (INR 0 + 2) = 1.
Proof.
  unfold log2. cbn [INR]. rewrite Rplus_0_l.
  assert (0 < ln 2) by (rewrite <- ln_1; apply ln_increasing; lra).
  field. lra.
Qed.

Lemma discounted_sum_single (score : R) : discounted_sum [score] = score.
Proof.
  unfold discounted_sum. cbn [List.length seq map fold_right nth].
  rewrite log2_2. field.
Qed.

Lemma sort_descending_02_03 : sort_descending [0.2; 0.3] = [0.3; 0.2].
Proof.
  unfold sort_descending. cbn [order_by insert_by]. unfold ge.
  destruct (Rle_dec 0.3 0.2); [exfalso; lra|reflexivity].
Qed.

Lemma calculateNDCG_top_k_witness :
  calculateNDCG [hit 0.1; hit 0.1] plain_query 2 = 0.
Proof.
  apply (calculateNDCG_top_k [hit 0.1; hit 0.1] plain_query 2).
  - discriminate.
  - repeat constructor; apply relevanceScore_hit_01.
Defined.

(** C7, refuted as stated. Of two results with relevance 0.2 and 0.3 in
    this order, NDCG\@1 with the ideal ranking of the relevance scores is
    0.2 / 0.3; [calculateNDCG] returns 1, because its ideal ranking is
    made of the first result alone. *)
Lemma ideal_ranking_of_top_k_only :
  map (relevanceScore plain_query) [hit 0.6; hit 0.8] = [0.2; 0.3] /\
  calculateNDCG [hit 0.6; hit 0.8] plain_query 1 = 1 /\
  ndcg_ideal_over_all [hit 0.6; hit 0.8] plain_query 1 = 2 / 3 /\
  calculateNDCG [hit 0.6; hit 0.8] plain_query 1 <>
  ndcg_ideal_over_all [hit 0.6; hit 0.8] plain_query 1.
Proof.
  assert (Hscores : map (relevanceScore plain_query) [hit 0.6; hit 0.8] =
                    [0.2; 0.3]).
  { cbn [map]. now rewrite relevanceScore_hit_06, relevanceScore_hit_08. }
  assert (Hcode : calculateNDCG [hit 0.6; hit 0.8] plain_query 1 = 1).
  { rewrite calculateNDCG_sums. cbn [firstn map].
    rewrite relevanceScore_hit_06.
    unfold sort_descending. cbn [order_by insert_by].
    rewrite discounted_sum_single.
    destruct (Req_dec_T 0.2 0); [exfalso; lra|field; lra]. }
  assert (Hall : ndcg_ideal_over_all [hit 0.6; hit 0.8] plain_query 1 =
                 2 / 3).
  { unfold ndcg_ideal_over_all. cbv zeta.
    rewrite Hscores, sort_descending_02_03. cbn [firstn].
    rewrite !discounted_sum_single.
    destruct (Req_dec_T 0.3 0); [exfalso; lra|lra]. }
  split; [exact Hscores|]. split; [exact Hcode|]. split; [exact Hall|].
  rewrite Hcode, Hall. lra.
Qed.

(** *** Grades and scores *)

Lemma ratio_bounds (m n : nat) :
  (m <= n)%nat -> (0 < n)%nat -> 0 <= INR m / INR n <= 1.
Proof.
  intros Hmn Hn. apply le_INR in Hmn. apply lt_INR in Hn. cbn in Hn.
  pose proof (pos_INR m) as Hm. split.
  - apply Rmult_le_pos; [assumption|].
    left. now apply Rinv_0_lt_compat.
  - apply Rmult_le_reg_r with (INR n); [assumption|].
    unfold Rdiv. rewrite Rmult_assoc, Rinv_l by lra. lra.
Qed.

(** The score before the cap: it is not negative, and the grade is read
    from it. *)
Lemma estimateRelevance_raw (r : SearchResult) (q : GoldenQuery) :
  well_formed q ->
  exists score, 0 <= score /\
    estimateRelevance r q =
    (if ge score 0.7 then highly_relevant
     else if ge score 0.5 then relevant
     else if ge score 0.3 then somewhat_relevant
     else not_relevant, Rmin score 1).
Proof.
  intros Hwf. unfold estimateRelevance. cbv zeta.
  set (kp := match mustIncludeKeywords q with Some _ => _ | None => _ end).
  set (gp := match expectedGuests q with Some _ => _ | None => _ end).
  set (sp := if gt (similarity r) 0.7 then _ else _).
  exists (0 + kp + gp + sp). split; [|reflexivity].
  assert (Hkp : 0 <= kp).
  { subst kp. unfold well_formed in Hwf.
    destruct (mustIncludeKeywords q) as [keywords|].
    - destruct (ratio_bounds
                  (List.length
                     (filter (fun kw => includes (lower (text r)) (lower kw))
                             keywords))
                  (List.length keywords)) as [H0 _].
      + apply filter_length_le.
      + destruct keywords; [congruence|cbn; lia].
      + nra.
    - destruct (includes _ _); lra. }
  assert (Hgp : 0 <= gp).
  { subst gp. destruct (expectedGuests q); [|lra].
    destruct (existsb _ _); lra. }
  assert (Hsp : 0 <= sp).
  { subst sp. destruct (gt _ 0.7); [lra|].
    destruct (gt _ 0.5); [lra|]. destruct (gt _ 0.3); lra. }
  lra.
Qed.

Lemma ge_false (a b : R) : ge a b = false -> a < b.
Proof. unfold ge. destruct (Rle_dec b a); [discriminate|lra]. Qed.

(** X10. [estimateRelevance] returns a score between 0 and 1, and its
    grade is the band of that score: highly relevant from 0.7, relevant
    from 0.5, somewhat relevant from 0.3, not relevant below; the cap at
    1 moves no score across a band. *)
Theorem estimateRelevance_grade_of_score (r : SearchResult)
  (q : GoldenQuery) :
  well_formed q ->
  let grade := fst (estimateRelevance r q) in
  let score := snd (estimateRelevance r q) in
  0 <= score <= 1 /\
  (grade = highly_relevant <-> 0.7 <= score) /\
  (grade = relevant <-> 0.5 <= score < 0.7) /\
  (grade = somewhat_relevant <-> 0.3 <= score < 0.5) /\
  (grade = not_relevant <-> score < 0.3).
Proof.
  intros Hwf. cbv zeta.
  destruct (estimateRelevance_raw r q Hwf) as [s [Hs ->]]. cbn [fst snd].
  assert (Hmin : (s <= 1 /\ Rmin s 1 = s) \/ (1 <= s /\ Rmin s 1 = 1)).
  { destruct (Rle_dec s 1) as [Hle|Hgt].
    - left. split; [assumption|]. now apply Rmin_left.
    - right. split; [lra|]. apply Rmin_right. lra. }
  destruct (ge s 0.7) eqn:H7;
    [apply ge_true in H7|apply ge_false in H7;
     destruct (ge s 0.5) eqn:H5;
     [apply ge_true in H5|apply ge_false in H5;
      destruct (ge s 0.3) eqn:H3;
      [apply ge_true in H3|apply ge_false in H3]]];
    destruct Hmin as [[H1 ->]|[H1 ->]];
    repeat split; intros; try lra; try congruence; exfalso; lra.
Qed.

Lemma relevanceScore_bounds (q : GoldenQuery) (r : SearchResult) :
  well_formed q -> 0 <= relevanceScore q r <= 1.
Proof.
  intros Hwf. unfold relevanceScore.
  destruct (estimateRelevance_raw r q Hwf) as [s [Hs ->]]. cbn [snd].
  split.
  - apply Rmin_glb; lra.
  - apply Rmin_r.
Qed.

(** *** Precision, recall and reciprocal rank *)

Lemma relevant_in_prefix (q : GoldenQuery) (results : list SearchResult)
  (k k' : nat) :
  (k <= k')%nat ->
  (List.length (filter (is_relevant q) (firstn k results)) <=
   List.length (filter (is_relevant q) (firstn k' results)))%nat.
Proof.
  intros Hk.
  replace (firstn k results) with (firstn k (firstn k' results))
    by (rewrite firstn_firstn; f_equal; lia).
  rewrite <- (firstn_skipn k (firstn k' results)) at 2.
  rewrite filter_app, length_app. lia.
Qed.

Lemma relevant_at_most (q : GoldenQuery) (results : list SearchResult)
  (k : nat) :
  (List.length (filter (is_relevant q) (firstn k results)) <=
   Nat.min k (List.length results))%nat.
Proof.
  etransitivity; [apply filter_length_le|]. now rewrite length_firstn.
Qed.

Lemma precision_times_k (results : list SearchResult) (q : GoldenQuery)
  (k : nat) :
  INR k * calculatePrecision results q k =
  INR (List.length (filter (is_relevant q) (firstn k results))).
Proof.
  unfold calculatePrecision. cbv zeta.
  destruct (List.length (firstn k results) =? 0)%nat eqn:Hlen.
  - apply Nat.eqb_eq in Hlen. apply length_zero_iff_nil in Hlen.
    rewrite Hlen. cbn. ring.
  - apply Nat.eqb_neq in Hlen. rewrite length_firstn in Hlen.
    assert (Hk : (0 < k)%nat) by lia.
    pose proof (lt_INR _ _ Hk) as Hk'. cbn in Hk'. field. lra.
Qed.

Lemma precision_unit (results : list SearchResult) (q : GoldenQuery)
  (k : nat) :
  0 <= calculatePrecision results q k <= 1.
Proof.
  pose proof (relevant_at_most q results k) as Hmost.
  unfold calculatePrecision. cbv zeta.
  destruct (List.length (firstn k results) =? 0)%nat eqn:Hlen; [lra|].
  apply Nat.eqb_neq in Hlen. rewrite length_firstn in Hlen.
  apply ratio_bounds; lia.
Qed.

(** X11. Precision\@K lies between 0 and 1 and is 0 for an empty result
    list; the number of relevant results among the first [k] is divided
    by [k] itself, so that fewer than [k] results give at most
    [results.length / k]. *)
Theorem calculatePrecision_bounds (results : list SearchResult)
  (q : GoldenQuery) (k : nat) :
  0 <= calculatePrecision results q k <= 1 /\
  calculatePrecision [] q k = 0 /\
  INR k * calculatePrecision results q k =
    INR (List.length (filter (is_relevant q) (firstn k results))) /\
  INR k * calculatePrecision results q k <= INR (List.length results).
Proof.
  split; [apply precision_unit|]. split.
  - unfold calculatePrecision. cbv zeta. now rewrite firstn_nil.
  - split; [apply precision_times_k|].
    rewrite precision_times_k. apply le_INR.
    pose proof (relevant_at_most q results k). lia.
Qed.

Lemma estimatedRelevant_positive (q : GoldenQuery) :
  0 < (if expectedOutcome q =? "single-expert" then 3 else 10).
Proof. destruct (expectedOutcome q =? "single-expert"); lra. Qed.

Lemma calculateRecall_bounds (results : list SearchResult)
  (q : GoldenQuery) (k : nat) :
  0 <= calculateRecall results q k <= 1.
Proof.
  unfold calculateRecall. cbv zeta.
  pose proof (estimatedRelevant_positive q) as Hpos.
  set (n := if expectedOutcome q =? "single-expert" then 3 else 10) in *.
  pose proof (pos_INR
                (List.length (filter (is_relevant q) (firstn k results))))
    as H0.
  assert (Hinv : 0 < / n) by now apply Rinv_0_lt_compat.
  split; [|apply Rmin_r].
  apply Rmin_glb; [unfold Rdiv; nra|lra].
Qed.

(** X12. Recall\@K lies between 0 and 1 and does not decrease when [k]
    grows. *)
Theorem calculateRecall_monotone (results : list SearchResult)
  (q : GoldenQuery) (k k' : nat) :
  (k <= k')%nat ->
  0 <= calculateRecall results q k /\
  calculateRecall results q k <= calculateRecall results q k' /\
  calculateRecall results q k' <= 1.
Proof.
  intros Hk. unfold calculateRecall. cbv zeta.
  pose proof (estimatedRelevant_positive q) as Hpos.
  set (n := if expectedOutcome q =? "single-expert" then 3 else 10) in *.
  pose proof (le_INR _ _ (relevant_in_prefix q results k k' Hk)) as Hle.
  pose proof (pos_INR
                (List.length (filter (is_relevant q) (firstn k results))))
    as H0.
  set (a := INR (List.length (filter (is_relevant q) (firstn k results))))
    in *.
  set (b := INR (List.length (filter (is_relevant q) (firstn k' results))))
    in *.
  assert (Hinv : 0 < / n) by now apply Rinv_0_lt_compat.
  assert (Ha : 0 <= a / n) by (unfold Rdiv; nra).
  assert (Hab : a / n <= b / n) by (unfold Rdiv; nra).
  split; [apply Rmin_glb; lra|]. split; [|apply Rmin_r].
  apply Rle_min_compat_r. exact Hab.
Qed.

Lemma reciprocal_rank_positive (i : nat) : 0 < 1 / (INR i + 1) <= 1.
Proof.
  pose proof (pos_INR i) as Hi.
  assert (Hinv : 0 < / (INR i + 1)) by (apply Rinv_0_lt_compat; lra).
  split; [unfold Rdiv; lra|].
  apply Rmult_le_reg_r with (INR i + 1); [lra|].
  unfold Rdiv. rewrite Rmult_assoc, Rinv_l by lra. lra.
Qed.

Lemma mrr_loop_first_relevant (q : GoldenQuery)
  (results : list SearchResult) (j : nat) :
  (mrr_loop q results j = 0 /\
   Forall (fun r => is_relevant q r = false) results) \/
  (exists i r, nth_error results i = Some r /\ is_relevant q r = true /\
     Forall (fun r' => is_relevant q r' = false) (firstn i results) /\
     mrr_loop q results j = 1 / (INR (j + i) + 1)).
Proof.
  revert j. induction results as [|r rest IH]; intros j.
  - left. split; [reflexivity|constructor].
  - cbn [mrr_loop]. destruct (is_relevant q r) eqn:Hr.
    + right. exists 0%nat, r. rewrite Nat.add_0_r.
      repeat split; [assumption|constructor].
    + destruct (IH (S j)) as [[H0 Hall]|[i [r' [Hnth [Hr' [Hall Heq]]]]]].
      * left. split; [assumption|now constructor].
      * right. exists (S i), r'.
        replace (j + S i)%nat with (S j + i)%nat by lia.
        repeat split; try assumption. cbn. now constructor.
Qed.

(** X13. [calculateMRR] is 0 exactly when no result is relevant;
    otherwise it is [1 / (i + 1)] for the index [i] of the first relevant
    result, a number in (0, 1]. *)
Theorem calculateMRR_first_relevant (results : list SearchResult)
  (q : GoldenQuery) :
  (calculateMRR results q = 0 /\
   Forall (fun r => is_relevant q r = false) results) \/
  (exists i r, nth_error results i = Some r /\ is_relevant q r = true /\
     Forall (fun r' => is_relevant q r' = false) (firstn i results) /\
     calculateMRR results q = 1 / (INR i + 1) /\
     0 < calculateMRR results q <= 1).
Proof.
  unfold calculateMRR.
  destruct (mrr_loop_first_relevant q results 0)
    as [H|[i [r [Hnth [Hr [Hall Heq]]]]]]; [now left|].
  right. exists i, r. cbn [Nat.add] in Heq. rewrite Heq.
  repeat split; try assumption; apply reciprocal_rank_positive.
Qed.

Lemma none_relevant (q : GoldenQuery) (results : list SearchResult) :
  Forall (fun r => is_relevant q r = false) results ->
  filter (is_relevant q) results = [].
Proof.
  induction 1 as [|r rest Hr Hall IH]; [reflexivity|].
  cbn. now rewrite Hr.
Qed.

Lemma filter_empty_none {A : Type} (keep : A -> bool) (rows : list A) :
  List.length (filter keep rows) = 0%nat ->
  Forall (fun r => keep r = false) rows.
Proof.
  induction rows as [|r rows IH]; [constructor|].
  cbn. destruct (keep r) eqn:Hr; [discriminate|].
  intros H. constructor; auto.
Qed.

Lemma Forall_prefix {A : Type} (P : A -> Prop) (n : nat) (rows : list A) :
  Forall P rows -> Forall P (firstn n rows).
Proof.
  intros H. apply Forall_forall. intros x Hx. apply firstn_In in Hx.
  rewrite Forall_forall in H. now apply H.
Qed.

(** X14. The three measures agree on a query without relevant result:
    the reciprocal rank is 0 if and only if precision and recall are 0 at
    every cut-off. *)
Theorem calculateMRR_zero_iff (results : list SearchResult)
  (q : GoldenQuery) :
  calculateMRR results q = 0 <->
  forall k, calculatePrecision results q k = 0 /\
            calculateRecall results q k = 0.
Proof.
  unfold calculateMRR. split.
  - intros H0 k.
    destruct (mrr_loop_first_relevant q results 0)
      as [[_ Hall]|[i [r [_ [_ [_ Heq]]]]]].
    + pose proof (none_relevant q _ (Forall_prefix _ k _ Hall)) as Hnone.
      unfold calculatePrecision, calculateRecall. cbv zeta. rewrite Hnone.
      cbn [List.length INR]. split.
      * destruct (_ =? _)%nat; [reflexivity|]. unfold Rdiv. ring.
      * unfold Rdiv. rewrite Rmult_0_l. apply Rmin_left. lra.
    + pose proof (reciprocal_rank_positive (0 + i)) as Hpos. lra.
  - intros Hall.
    destruct (mrr_loop_first_relevant q results 0)
      as [[H0 _]|[i [r [Hnth [Hr _]]]]]; [exact H0|].
    exfalso.
    destruct (Hall (List.length results)) as [Hp _].
    pose proof (precision_times_k results q (List.length results))
      as Hcount.
    rewrite Hp, Rmult_0_r, firstn_all in Hcount.
    assert (Hlen : List.length (filter (is_relevant q) results) = 0%nat).
    { apply INR_eq. cbn. now rewrite <- Hcount. }
    apply filter_empty_none in Hlen. rewrite Forall_forall in Hlen.
    apply nth_error_In in Hnth. specialize (Hlen r Hnth). congruence.
Qed.

(** *** The normalised gain *)

Lemma ln_2_positive : 0 < ln 2.
Proof. rewrite <- ln_1. apply ln_increasing; lra. Qed.

Lemma log2_at_least_1 (i : nat) : 1 <= log2 (INR i + 2).
Proof.
  pose proof ln_2_positive as H2. pose proof (pos_INR i) as Hi.
  unfold log2.
  assert (Hle : ln 2 <= ln (INR i + 2)).
  { destruct (Req_dec (INR i) 0) as [->|Hne].
    - rewrite Rplus_0_l. lra.
    - left. apply ln_increasing; lra. }
  apply Rmult_le_reg_r with (ln 2); [assumption|].
  unfold Rdiv. rewrite Rmult_assoc, Rinv_l by lra. lra.
Qed.

Lemma log2_grows (i : nat) : log2 (INR i + 2) <= log2 (INR (S i) + 2).
Proof.
  pose proof ln_2_positive as H2. pose proof (pos_INR i) as Hi.
  unfold log2. rewrite S_INR.
  assert (Hlt : ln (INR i + 2) < ln (INR i + 1 + 2))
    by (apply ln_increasing; lra).
  assert (Hinv : 0 < / ln 2) by now apply Rinv_0_lt_compat.
  unfold Rdiv. nra.
Qed.

(** The discount of position [i]: positive, and not larger than that of
    the position before. *)
Lemma discount_decreases (i : nat) :
  0 < / log2 (INR (S i) + 2) <= / log2 (INR i + 2).
Proof.
  pose proof (log2_at_least_1 i) as H1.
  pose proof (log2_at_least_1 (S i)) as H2.
  pose proof (log2_grows i) as Hle.
  split.
  - apply Rinv_0_lt_compat. lra.
  - apply Rinv_le_contravar; lra.
Qed.

Lemma discounted_from_nil (i : nat) : discounted_from i [] = 0.
Proof. reflexivity. Qed.

Lemma discounted_from_insert (scores : list R) (x : R) (i : nat) :
  discounted_from i (x :: scores) <=
  discounted_from i (insert_by ge x scores).
Proof.
  revert i. induction scores as [|y rest IH]; intros i; [apply Rle_refl|].
  cbn [insert_by]. destruct (ge x y) eqn:Hxy; [apply Rle_refl|].
  apply ge_false in Hxy. specialize (IH (S i)).
  rewrite (discounted_from_cons i y (insert_by ge x rest)).
  rewrite (discounted_from_cons i x (y :: rest)).
  rewrite (discounted_from_cons (S i) y rest).
  rewrite (discounted_from_cons (S i) x rest) in IH.
  destruct (discount_decreases i) as [Hpos Hle].
  unfold Rdiv in *.
  set (w0 := / log2 (INR i + 2)) in *.
  set (w1 := / log2 (INR (S i) + 2)) in *.
  nra.
Qed.

(** The rearrangement: no order of the scores has a larger discounted sum
    than the descending one. *)
Lemma discounted_from_sorted (scores : list R) (i : nat) :
  discounted_from i scores <= discounted_from i (sort_descending scores).
Proof.
  revert i. induction scores as [|x rest IH]; intros i; [apply Rle_refl|].
  unfold sort_descending in *. cbn [order_by].
  eapply Rle_trans; [|apply discounted_from_insert].
  rewrite !discounted_from_cons. specialize (IH (S i)). lra.
Qed.

Lemma discounted_from_nonneg (scores : list R) (i : nat) :
  Forall (fun s => 0 <= s) scores -> 0 <= discounted_from i scores.
Proof.
  intros Hall. revert i.
  induction Hall as [|s rest Hs Hrest IH]; intros i.
  - rewrite discounted_from_nil. lra.
  - rewrite discounted_from_cons. specialize (IH (S i)).
    pose proof (log2_at_least_1 i) as H1.
    assert (Hinv : 0 < / log2 (INR i + 2))
      by (apply Rinv_0_lt_compat; lra).
    unfold Rdiv. nra.
Qed.

Lemma discounted_from_positive (scores : list R) (i : nat) :
  Forall (fun s => 0 <= s) scores -> Exists (fun s => 0 < s) scores ->
  0 < discounted_from i scores.
Proof.
  intros Hall Hex. revert i Hall.
  induction Hex as [s rest Hs|s rest Hex IH]; intros i Hall;
    inversion Hall as [|? ? Hs0 Hrest]; subst;
    rewrite discounted_from_cons;
    pose proof (log2_at_least_1 i) as H1;
    assert (Hinv : 0 < / log2 (INR i + 2))
      by (apply Rinv_0_lt_compat; lra).
  - pose proof (discounted_from_nonneg rest (S i) Hrest).
    unfold Rdiv. nra.
  - specialize (IH (S i) Hrest). unfold Rdiv. nra.
Qed.

Lemma scores_nonneg (q : GoldenQuery) (results : list SearchResult) :
  well_formed q ->
  Forall (fun s => 0 <= s) (map (relevanceScore q) results).
Proof.
  intros Hwf. apply Forall_forall. intros s Hs. apply in_map_iff in Hs.
  destruct Hs as [r [<- _]]. now apply relevanceScore_bounds.
Qed.

Lemma normalised_gain_unit (results : list SearchResult)
  (q : GoldenQuery) (k : nat) :
  well_formed q ->
  0 <= calculateNDCG results q k <= 1.
Proof.
  intros Hwf. rewrite calculateNDCG_sums. cbv zeta.
  set (scores := map (relevanceScore q) (firstn k results)).
  destruct (Req_dec_T (discounted_sum (sort_descending scores)) 0)
    as [|Hne]; [lra|].
  pose proof (scores_nonneg q (firstn k results) Hwf) as Hscores.
  fold scores in Hscores.
  assert (Hideal : Forall (fun s => 0 <= s) (sort_descending scores)).
  { apply Forall_forall. intros s Hs.
    apply (Permutation_in _ (proj1 (sort_descending_sorted scores))) in Hs.
    rewrite Forall_forall in Hscores. now apply Hscores. }
  assert (Hd : 0 <= discounted_sum scores)
    by exact (discounted_from_nonneg scores 0 Hscores).
  assert (Hi : 0 <= discounted_sum (sort_descending scores))
    by exact (discounted_from_nonneg _ 0 Hideal).
  assert (Hle : discounted_sum scores <=
                discounted_sum (sort_descending scores))
    by exact (discounted_from_sorted scores 0).
  set (dcg := discounted_sum scores) in *.
  set (idcg := discounted_sum (sort_descending scores)) in *.
  assert (Hpos : 0 < idcg) by lra.
  assert (Hinv : 0 < / idcg) by now apply Rinv_0_lt_compat.
  split.
  - unfold Rdiv. nra.
  - apply Rmult_le_reg_r with idcg; [assumption|].
    unfold Rdiv. rewrite Rmult_assoc, Rinv_l by lra. lra.
Qed.

(** X15. NDCG\@K lies between 0 and 1, the discounted gain of the first
    [k] results being at most the ideal one: the discounts decrease with
    the position, so that no order of the scores has a larger discounted
    sum than the descending one. *)
Theorem calculateNDCG_bounds (results : list SearchResult)
  (q : GoldenQuery) (k : nat) :
  well_formed q ->
  let scores := map (relevanceScore q) (firstn k results) in
  0 <= discounted_sum scores <= discounted_sum (sort_descending scores) /\
  0 <= calculateNDCG results q k <= 1.
Proof.
  intros Hwf. cbv zeta. split; [|now apply normalised_gain_unit].
  split.
  - apply (discounted_from_nonneg _ 0). now apply scores_nonneg.
  - apply (discounted_from_sorted _ 0).
Qed.

Lemma sort_descending_sorted_input (scores : list R) :
  StronglySorted (fun a b => b <= a) scores ->
  sort_descending scores = scores.
Proof.
  unfold sort_descending.
  induction 1 as [|x rest Hsorted IH Hall]; [reflexivity|].
  cbn [order_by]. rewrite IH.
  destruct rest as [|y rest']; [reflexivity|].
  cbn [insert_by]. inversion Hall as [|? ? Hyx _]; subst.
  unfold ge. destruct (Rle_dec y x); [reflexivity|contradiction].
Qed.

(** X16. When the first [k] results come in descending order of
    relevance and one of them has a positive score, NDCG\@K is 1. *)
Theorem calculateNDCG_of_ideal_order (results : list SearchResult)
  (q : GoldenQuery) (k : nat) :
  well_formed q ->
  StronglySorted (fun a b => b <= a)
    (map (relevanceScore q) (firstn k results)) ->
  Exists (fun r => 0 < relevanceScore q r) (firstn k results) ->
  calculateNDCG results q k = 1.
Proof.
  intros Hwf Hsorted Hex. rewrite calculateNDCG_sums. cbv zeta.
  rewrite (sort_descending_sorted_input _ Hsorted).
  assert (Hpos : 0 < discounted_sum
                       (map (relevanceScore q) (firstn k results))).
  { rewrite <- discounted_from_0. apply discounted_from_positive.
    - now apply scores_nonneg.
    - apply Exists_exists in Hex. destruct Hex as [r [Hr Hs]].
      apply Exists_exists. exists (relevanceScore q r).
      split; [now apply in_map|assumption]. }
  destruct (Req_dec_T _ 0); [lra|]. field. lra.
Qed.

(** *** The evaluation of a query and the means *)

Lemma fold_count_match (keywords : list string)
  (results : list SearchResult) (idx top5 top10 : nat) :
  fold_left (count_match keywords) results (idx, top5, top10) =
  ((idx + List.length results)%nat,
   (top5 +
    List.length (filter (hasMatch keywords) (firstn (5 - idx) results)))%nat,
   (top10 + List.length (filter (hasMatch keywords) results))%nat).
Proof.
  revert idx top5 top10.
  induction results as [|r rest IH]; intros idx top5 top10.
  - cbn. rewrite firstn_nil. cbn. rewrite !pair_equal_spec; lia.
  - cbn [fold_left]. unfold count_match at 2.
    destruct (hasMatch keywords r) eqn:Hr; rewrite IH;
      cbn [List.length filter]; rewrite ?Hr.
    + destruct (idx <? 5)%nat eqn:Hidx.
      * apply Nat.ltb_lt in Hidx.
        replace (5 - idx)%nat with (S (5 - S idx)) by lia.
        cbn [firstn filter]. rewrite Hr. cbn [List.length].
        rewrite !pair_equal_spec; lia.
      * apply Nat.ltb_ge in Hidx.
        replace (5 - idx)%nat with 0%nat by lia.
        replace (5 - S idx)%nat with 0%nat by lia.
        cbn. rewrite !pair_equal_spec; lia.
    + destruct (5 - idx)%nat as [|n] eqn:Hn.
      * replace (5 - S idx)%nat with 0%nat by lia.
        cbn. rewrite !pair_equal_spec; lia.
      * replace (5 - S idx)%nat with n by lia.
        cbn [firstn filter]. rewrite Hr. rewrite !pair_equal_spec; lia.
Qed.

(** X17. The counters of [evaluateQuery]: the keyword matches are
    counted among the first 5 and the first 10 results (0 without
    keywords), so that top 5 <= top 10 <= 10 and top 5 <= 5, and no more
    expected guests are found than are expected. *)
Theorem evaluateQuery_counts (results : list SearchResult)
  (q : GoldenQuery) :
  let e := evaluateQuery results q in
  let matches n :=
    match mustIncludeKeywords q with
    | Some keywords =>
        List.length (filter (hasMatch keywords) (firstn n results))
    | None => 0%nat
    end in
  keywordMatchesTop5 e = matches 5%nat /\
  keywordMatchesTop10 e = matches 10%nat /\
  (keywordMatchesTop5 e <= keywordMatchesTop10 e)%nat /\
  (keywordMatchesTop5 e <= Nat.min 5 (List.length results))%nat /\
  (keywordMatchesTop10 e <= Nat.min 10 (List.length results))%nat /\
  (expectedGuestsFound e <= expectedGuestsTotal e)%nat /\
  resultCount e = List.length results.
Proof.
  cbv zeta. unfold evaluateQuery.
  assert (Hguests :
    (match expectedGuests q with
     | Some guests =>
         List.length
           (filter (fun g =>
                      existsb (String.eqb (lower g))
                        (map (fun r => lower (guest r)) (firstn 10 results)))
                   guests)
     | None => 0
     end <=
     match expectedGuests q with
     | Some guests => List.length guests
     | None => 0
     end)%nat).
  { destruct (expectedGuests q); [apply filter_length_le|lia]. }
  destruct (mustIncludeKeywords q) as [keywords|].
  - rewrite fold_count_match. cbn [Nat.add Nat.sub].
    cbn [keywordMatchesTop5 keywordMatchesTop10 expectedGuestsFound
         expectedGuestsTotal resultCount].
    rewrite firstn_firstn. cbn [Nat.min].
    pose proof (filter_length_le (hasMatch keywords) (firstn 5 results))
      as H5.
    pose proof (filter_length_le (hasMatch keywords) (firstn 10 results))
      as H10.
    rewrite length_firstn in H5, H10.
    assert (Hmono :
      (List.length (filter (hasMatch keywords) (firstn 5 results)) <=
       List.length (filter (hasMatch keywords) (firstn 10 results)))%nat).
    { replace (firstn 5 results) with (firstn 5 (firstn 10 results))
        by (rewrite firstn_firstn; reflexivity).
      rewrite <- (firstn_skipn 5 (firstn 10 results)) at 2.
      rewrite filter_app, length_app. lia. }
    repeat split; try assumption; reflexivity.
  - cbn [keywordMatchesTop5 keywordMatchesTop10 expectedGuestsFound
         expectedGuestsTotal resultCount].
    repeat split; try assumption; lia.
Qed.

Lemma reduce_sum_bounds (f : EvaluationResult -> R)
  (results : list EvaluationResult) (acc : R) :
  Forall (fun r => 0 <= f r <= 1) results ->
  acc <= fold_left (fun sum r => sum + f r) results acc
      <= acc + INR (List.length results).
Proof.
  intros Hall. revert acc.
  induction Hall as [|r rest Hr Hrest IH]; intros acc.
  - cbn. lra.
  - cbn [fold_left]. specialize (IH (acc + f r)).
    change (List.length (r :: rest)) with (S (List.length rest)).
    rewrite S_INR. lra.
Qed.

Lemma mean_bounds (f : EvaluationResult -> R)
  (results : list EvaluationResult) :
  results <> [] ->
  Forall (fun r => 0 <= f r <= 1) results ->
  0 <= reduce_sum f results / INR (List.length results) <= 1.
Proof.
  intros Hne Hall. unfold reduce_sum.
  pose proof (reduce_sum_bounds f results 0 Hall) as Hsum.
  assert (Hn : 0 < INR (List.length results)).
  { destruct results; [congruence|]. apply lt_0_INR. cbn. lia. }
  set (total := fold_left _ results 0) in *.
  set (n := INR (List.length results)) in *.
  assert (Hinv : 0 < / n) by now apply Rinv_0_lt_compat.
  split.
  - unfold Rdiv. nra.
  - apply Rmult_le_reg_r with n; [assumption|].
    unfold Rdiv. rewrite Rmult_assoc, Rinv_l by lra. lra.
Qed.

Lemma evaluateQuery_measures (results : list SearchResult)
  (q : GoldenQuery) :
  let e := evaluateQuery results q in
  precision_at_5 e = calculatePrecision results q 5 /\
  precision_at_10 e = calculatePrecision results q 10 /\
  recall_at_10 e = calculateRecall results q 10 /\
  mrr e = calculateMRR results q /\
  ndcg_at_10 e = calculateNDCG results q 10.
Proof.
  cbv zeta. unfold evaluateQuery.
  destruct (match mustIncludeKeywords q with
            | Some keywords => _
            | None => _
            end) as [[idx top5] top10].
  repeat split.
Qed.

Lemma calculateMRR_unit (results : list SearchResult) (q : GoldenQuery) :
  0 <= calculateMRR results q <= 1.
Proof.
  unfold calculateMRR.
  destruct (mrr_loop_first_relevant q results 0)
    as [[-> _]|[i [r [_ [_ [_ ->]]]]]]; [lra|].
  pose proof (reciprocal_rank_positive (0 + i)). lra.
Qed.

(** X18. The means that [aggregateMetrics] takes over the evaluations of
    a set of queries are numbers between 0 and 1, and [count] is the
    number of queries; without queries all of them are 0. *)
Theorem aggregateMetrics_of_evaluations
  (runs : list (list SearchResult * GoldenQuery)) :
  Forall (fun run => well_formed (snd run)) runs ->
  let m :=
    aggregateMetrics
      (map (fun run => evaluateQuery (fst run) (snd run)) runs) in
  count m = List.length runs /\
  0 <= mean_precision_at_5 m <= 1 /\
  0 <= mean_precision_at_10 m <= 1 /\
  0 <= mean_recall_at_10 m <= 1 /\
  0 <= mean_mrr m <= 1 /\
  0 <= mean_ndcg_at_10 m <= 1.
Proof.
  intros Hwf. cbv zeta. unfold aggregateMetrics.
  set (evaluations := map _ runs).
  assert (Hlen : List.length evaluations = List.length runs)
    by apply length_map.
  destruct (List.length evaluations =? 0)%nat eqn:Hzero.
  - apply Nat.eqb_eq in Hzero. cbn. repeat split; try lra. lia.
  - apply Nat.eqb_neq in Hzero.
    assert (Hne : evaluations <> [])
      by (intros Heq; rewrite Heq in Hzero; now apply Hzero).
    assert (Hall :
      Forall (fun e =>
                0 <= precision_at_5 e <= 1 /\ 0 <= precision_at_10 e <= 1 /\
                0 <= recall_at_10 e <= 1 /\ 0 <= mrr e <= 1 /\
                0 <= ndcg_at_10 e <= 1) evaluations).
    { apply Forall_forall. intros e He.
      apply in_map_iff in He. destruct He as [run [<- Hrun]].
      rewrite Forall_forall in Hwf. specialize (Hwf run Hrun).
      destruct (evaluateQuery_measures (fst run) (snd run))
        as [-> [-> [-> [-> ->]]]].
      repeat apply conj;
        try apply precision_unit; try apply calculateRecall_bounds;
        try apply calculateMRR_unit; now apply normalised_gain_unit. }
    cbn [count mean_precision_at_5 mean_precision_at_10 mean_recall_at_10
         mean_mrr mean_ndcg_at_10].
    split; [exact Hlen|].
    repeat apply conj; apply mean_bounds; try assumption;
      (eapply Forall_impl; [|exact Hall]); cbv beta; tauto.
Qed.

(** *** Samples for the further properties *)

Lemma plain_query_well_formed : well_formed plain_query.
Proof. discriminate. Qed.

Lemma estimateRelevance_grade_of_score_witness :
  0 <= snd (estimateRelevance (hit 0.8) plain_query) <= 1 /\
  (fst (estimateRelevance (hit 0.8) plain_query) = somewhat_relevant <->
   0.3 <= snd (estimateRelevance (hit 0.8) plain_query) < 0.5).
Proof.
  destruct (estimateRelevance_grade_of_score (hit 0.8) plain_query)
    as [Hunit [_ [_ [Hband _]]]].
  - discriminate.
  - split; [exact Hunit|exact Hband].
Defined.

Lemma calculateRecall_monotone_witness :
  calculateRecall [hit 0.8; hit 0.6] plain_query 1 <=
  calculateRecall [hit 0.8; hit 0.6] plain_query 2.
Proof.
  destruct (calculateRecall_monotone [hit 0.8; hit 0.6] plain_query 1 2)
    as [_ [Hle _]].
  - lia.
  - exact Hle.
Defined.

Lemma calculateNDCG_bounds_witness :
  0 <= calculateNDCG [hit 0.6; hit 0.8] plain_query 2 <= 1.
Proof.
  destruct (calculateNDCG_bounds [hit 0.6; hit 0.8] plain_query 2)
    as [_ Hunit].
  - discriminate.
  - exact Hunit.
Defined.

Lemma calculateNDCG_of_ideal_order_witness :
  calculateNDCG [hit 0.8; hit 0.6] plain_query 2 = 1.
Proof.
  apply (calculateNDCG_of_ideal_order [hit 0.8; hit 0.6] plain_query 2).
  - discriminate.
  - cbn [firstn map].
    rewrite relevanceScore_hit_08, relevanceScore_hit_06.
    repeat constructor. lra.
  - cbn [firstn]. constructor. rewrite relevanceScore_hit_08. lra.
Defined.

Lemma aggregateMetrics_of_evaluations_witness :
  count (aggregateMetrics
           (map (fun run => evaluateQuery (fst run) (snd run))
                [([hit 0.8; hit 0.6], plain_query); ([], plain_query)])) =
  2%nat /\
  0 <= mean_ndcg_at_10
         (aggregateMetrics
            (map (fun run => evaluateQuery (fst run) (snd run))
                 [([hit 0.8; hit 0.6], plain_query); ([], plain_query)]))
    <= 1.
Proof.
  destruct (aggregateMetrics_of_evaluations
              [([hit 0.8; hit 0.6], plain_query); ([], plain_query)])
    as [Hcount [_ [_ [_ [_ Hndcg]]]]].
  - repeat constructor; discriminate.
  - split; [exact Hcount|exact Hndcg].
Defined.

End Metrics.

(** ** The golden queries (src/data/golden-queries.ts)

    The table [GOLDEN_QUERIES] itself is a parameter: the functions below
    do not depend on its entries. *)

Module Golden.
Local Open Scope string_scope.

Inductive QueryType : Type :=
| keyword
| semantic
| guest_specific
| mixed.

Inductive Difficulty : Type :=
| easy
| medium
| hard.

(** The fields of a [GoldenQuery] that selection and statistics read. *)
Record GoldenQuery : Type := {
  id : string;
  query : string;
  type : QueryType;
  topic : string;
  difficulty : Difficulty
}.

Definition QueryType_eqb (a b : QueryType) : bool :=
  match a, b with
  | keyword, keyword | semantic, semantic
  | guest_specific, guest_specific | mixed, mixed => true
  | _, _ => false
  end.

Definition Difficulty_eqb (a b : Difficulty) : bool :=
  match a, b with
  | easy, easy | medium, medium | hard, hard => true
  | _, _ => false
  end.

(** The argument of [filterQueries]; every field may be absent. *)
Record criteria : Type := {
  by_type : option QueryType;
  by_topic : option string;
  by_difficulty : option Difficulty
}.

(** The callback of [filterQueries]: a criterion that is absent, or the
    empty string, rejects nothing. *)
Definition selected (options : criteria) (q : GoldenQuery) : bool :=
  if match by_type options with
     | Some t => negb (QueryType_eqb (type q) t)
     | None => false
     end then false
  else if truthy (by_topic options) &&
          negb (topic q =? or_default (by_topic options) "") then false
  else if match by_difficulty options with
          | Some d => negb (Difficulty_eqb (difficulty q) d)
          | None => false
          end then false
  else true.

(** [byType] and [byDifficulty]. *)
Record type_counts : Type := {
  n_keyword : nat;
  n_semantic : nat;
  n_guest_specific : nat;
  n_mixed : nat
}.

Record difficulty_counts : Type := {
  n_easy : nat;
  n_medium : nat;
  n_hard : nat
}.

(** [byType[query.type]++]. *)
Definition count_type (c : type_counts) (t : QueryType) : type_counts :=
  match t with
  | keyword =>
      {| n_keyword := S (n_keyword c); n_semantic := n_semantic c;
         n_guest_specific := n_guest_specific c; n_mixed := n_mixed c |}
  | semantic =>
      {| n_keyword := n_keyword c; n_semantic := S (n_semantic c);
         n_guest_specific := n_guest_specific c; n_mixed := n_mixed c |}
  | guest_specific =>
      {| n_keyword := n_keyword c; n_semantic := n_semantic c;
         n_guest_specific := S (n_guest_specific c); n_mixed := n_mixed c |}
  | mixed =>
      {| n_keyword := n_keyword c; n_semantic := n_semantic c;
         n_guest_specific := n_guest_specific c; n_mixed := S (n_mixed c) |}
  end.

(** [byDifficulty[query.difficulty]++]. *)
Definition count_difficulty (c : difficulty_counts) (d : Difficulty)
  : difficulty_counts :=
  match d with
  | easy =>
      {| n_easy := S (n_easy c); n_medium := n_medium c;
         n_hard := n_hard c |}
  | medium =>
      {| n_easy := n_easy c; n_medium := S (n_medium c);
         n_hard := n_hard c |}
  | hard =>
      {| n_easy := n_easy c; n_medium := n_medium c;
         n_hard := S (n_hard c) |}
  end.

(** The statistics, [byTopic] left out. *)
Record stats : Type := {
  total : nat;
  byType : type_counts;
  byDifficulty : difficulty_counts
}.

Section Dataset.

Variable GOLDEN_QUERIES : list GoldenQuery.

Definition filterQueries (options : criteria) : list GoldenQuery :=
  filter (selected options) GOLDEN_QUERIES.

(** The selection that [main] of the evaluation script makes from its
    [--topic=] and [--type=] arguments. *)
Definition main_queries (topic_arg : option string)
  (type_arg : option QueryType) : list GoldenQuery :=
  let queries := GOLDEN_QUERIES in
  let queries :=
    if truthy topic_arg then
      filter (fun q => topic q =? or_default topic_arg "") queries
    else queries in
  let queries :=
    match type_arg with
    | Some t => filter (fun q => QueryType_eqb (type q) t) queries
    | None => queries
    end in
  queries.

(** One turn of the loop of [getQueryStats]. *)
Definition count_query (counts : type_counts * difficulty_counts)
  (q : GoldenQuery) : type_counts * difficulty_counts :=
  (count_type (fst counts) (type q),
   count_difficulty (snd counts) (difficulty q)).

Definition getQueryStats : stats :=
  let counts :=
    fold_left count_query GOLDEN_QUERIES
      ({| n_keyword := 0; n_semantic := 0; n_guest_specific := 0;
          n_mixed := 0 |},
       {| n_easy := 0; n_medium := 0; n_hard := 0 |}) in
  {| total := List.length GOLDEN_QUERIES;
     byType := fst counts;
     byDifficulty := snd counts |}.

Lemma filter_twice {Row : Type} (first then_ : Row -> bool)
  (rows : list Row) :
  filter then_ (filter first rows) =
  filter (fun q => first q && then_ q) rows.
Proof.
  induction rows as [|q rows IH]; [reflexivity|].
  cbn [filter]. destruct (first q); cbn [filter andb]; now rewrite IH.
Qed.

Lemma filter_everything {Row : Type} (rows : list Row) :
  filter (fun _ => true) rows = rows.
Proof.
  induction rows as [|q rows IH]; [reflexivity|]. cbn. now rewrite IH.
Qed.

(** X25. The queries that [main] selects from its [--topic=] and
    [--type=] arguments are those that [filterQueries] returns for the
    same topic and type: a query is kept when it has the type asked for,
    if any, and the topic asked for, if any and not empty; an empty
    topic selects nothing away. *)
Theorem main_queries_filterQueries (topic_arg : option string)
  (type_arg : option QueryType) :
  main_queries topic_arg type_arg =
  filterQueries {| by_type := type_arg; by_topic := topic_arg;
                   by_difficulty := None |} /\
  filterQueries {| by_type := type_arg; by_topic := Some "";
                   by_difficulty := None |} =
  filterQueries {| by_type := type_arg; by_topic := None;
                   by_difficulty := None |} /\
  forall q,
    In q (main_queries topic_arg type_arg) <->
    In q GOLDEN_QUERIES /\
    (forall t, type_arg = Some t -> type q = t) /\
    (forall t, topic_arg = Some t -> t <> "" -> topic q = t).
Proof.
  assert (Hsame : main_queries topic_arg type_arg =
                  filterQueries {| by_type := type_arg;
                                   by_topic := topic_arg;
                                   by_difficulty := None |}).
  { unfold main_queries, filterQueries, selected. cbv zeta.
    cbn [by_type by_topic by_difficulty].
    destruct (truthy topic_arg); destruct type_arg as [t|];
      cbn [andb negb]; rewrite ?filter_twice;
      try (apply filter_ext; intros q;
           destruct (QueryType_eqb (type q) t);
           destruct (topic q =? or_default topic_arg ""); reflexivity).
    - apply filter_ext. intros q.
      now destruct (topic q =? or_default topic_arg "").
    - symmetry. apply filter_everything. }
  split; [exact Hsame|]. split; [reflexivity|].
  intros q. rewrite Hsame. unfold filterQueries. rewrite filter_In.
  unfold selected. cbn [by_type by_topic by_difficulty].
  split.
  - intros [Hin Hsel]. split; [exact Hin|]. split.
    + intros t ->. destruct (type q), t; try reflexivity; discriminate.
    + intros t -> Hne. cbn in Hsel.
      assert (Ht : (t =? "") = false) by now apply String.eqb_neq.
      rewrite Ht in Hsel. cbn in Hsel.
      destruct (match type_arg with
                | Some t0 => negb (QueryType_eqb (type q) t0)
                | None => false
                end); [discriminate|].
      destruct (topic q =? t) eqn:Hq; [|discriminate].
      now apply String.eqb_eq.
  - intros [Hin [Htype Htopic]]. split; [exact Hin|].
    assert (Hty : match type_arg with
                  | Some t => negb (QueryType_eqb (type q) t)
                  | None => false
                  end = false).
    { destruct type_arg as [t|]; [|reflexivity].
      rewrite (Htype t eq_refl). now destruct t. }
    rewrite Hty. destruct topic_arg as [t|]; [|reflexivity].
    cbn. destruct (t =? "") eqn:Ht; [reflexivity|].
    apply String.eqb_neq in Ht. rewrite (Htopic t eq_refl Ht).
    now rewrite String.eqb_refl.
Qed.

Definition has_type (t : QueryType) (q : GoldenQuery) : bool :=
  QueryType_eqb (type q) t.

Definition has_difficulty (d : Difficulty) (q : GoldenQuery) : bool :=
  Difficulty_eqb (difficulty q) d.

Lemma fold_count_query (queries : list GoldenQuery)
  (counts : type_counts * difficulty_counts) :
  let after := fold_left count_query queries counts in
  let more (before : nat) (keep : GoldenQuery -> bool) :=
    (before + List.length (filter keep queries))%nat in
  n_keyword (fst after) =
    more (n_keyword (fst counts)) (has_type keyword) /\
  n_semantic (fst after) =
    more (n_semantic (fst counts)) (has_type semantic) /\
  n_guest_specific (fst after) =
    more (n_guest_specific (fst counts)) (has_type guest_specific) /\
  n_mixed (fst after) = more (n_mixed (fst counts)) (has_type mixed) /\
  n_easy (snd after) = more (n_easy (snd counts)) (has_difficulty easy) /\
  n_medium (snd after) =
    more (n_medium (snd counts)) (has_difficulty medium) /\
  n_hard (snd after) = more (n_hard (snd counts)) (has_difficulty hard).
Proof.
  cbv zeta. revert counts.
  induction queries as [|q queries IH]; intros counts.
  - cbn. repeat split; lia.
  - cbn [fold_left filter]. specialize (IH (count_query counts q)).
    destruct IH as [H1 [H2 [H3 [H4 [H5 [H6 H7]]]]]].
    rewrite H1, H2, H3, H4, H5, H6, H7.
    unfold count_query, has_type, has_difficulty.
    cbn [fst snd].
    destruct (type q), (difficulty q); cbn; repeat split; lia.
Qed.

Lemma every_query_counted (queries : list GoldenQuery) :
  let number keep := List.length (filter keep queries) in
  (number (has_type keyword) + number (has_type semantic) +
   number (has_type guest_specific) + number (has_type mixed))%nat =
  List.length queries /\
  (number (has_difficulty easy) + number (has_difficulty medium) +
   number (has_difficulty hard))%nat = List.length queries.
Proof.
  cbv zeta. unfold has_type, has_difficulty.
  induction queries as [|q queries [IHt IHd]]; [split; reflexivity|].
  cbn [filter List.length].
  destruct (type q), (difficulty q);
    cbn [QueryType_eqb Difficulty_eqb List.length]; lia.
Qed.

(** X26. In the statistics of [getQueryStats] every entry of [byType]
    and of [byDifficulty] is the number of queries of that type or
    difficulty, and the entries of each of the two add up to [total]. *)
Theorem getQueryStats_totals :
  let st := getQueryStats in
  let number keep := List.length (filter keep GOLDEN_QUERIES) in
  n_keyword (byType st) = number (has_type keyword) /\
  n_semantic (byType st) = number (has_type semantic) /\
  n_guest_specific (byType st) = number (has_type guest_specific) /\
  n_mixed (byType st) = number (has_type mixed) /\
  n_easy (byDifficulty st) = number (has_difficulty easy) /\
  n_medium (byDifficulty st) = number (has_difficulty medium) /\
  n_hard (byDifficulty st) = number (has_difficulty hard) /\
  (n_keyword (byType st) + n_semantic (byType st) +
   n_guest_specific (byType st) + n_mixed (byType st))%nat = total st /\
  (n_easy (byDifficulty st) + n_medium (byDifficulty st) +
   n_hard (byDifficulty st))%nat = total st.
Proof.
  cbv zeta. unfold getQueryStats. cbv zeta. cbn [byType byDifficulty total].
  destruct (fold_count_query GOLDEN_QUERIES
              ({| n_keyword := 0; n_semantic := 0; n_guest_specific := 0;
                  n_mixed := 0 |},
               {| n_easy := 0; n_medium := 0; n_hard := 0 |}))
    as [H1 [H2 [H3 [H4 [H5 [H6 H7]]]]]].
  cbn [fst snd n_keyword n_semantic n_guest_specific n_mixed n_easy
       n_medium n_hard Nat.add] in H1, H2, H3, H4, H5, H6, H7.
  rewrite H1, H2, H3, H4, H5, H6, H7.
  repeat (split; [reflexivity|]).
  apply every_query_counted.
Qed.

End Dataset.

End Golden.

(** ** A sample database

    Stand-ins for the external functions, for evaluating the model: a query
    is the list of its prefixes and matches a text that contains one of
    them, the rank counts the prefixes found, embeddings are rationals and
    the distance is the squared difference. *)

Module Sample.
Local Open Scope string_scope.
Local Open Scope Q_scope.

Definition tsquery : Type := list string.

Definition to_tsquery_english (w : string) : option tsquery :=
  Some [substring 0 (String.length w - 2) w].

Definition to_tsquery_blank : tsquery := [].

Definition tsquery_or (a b : tsquery) : tsquery := (a ++ b)%list.

Definition ts_match (text : string) (q : tsquery) : bool :=
  existsb (includes (lower text)) q.

Definition vector : Type := Q.

Definition cosine_distance (a b : vector) : Q := (a - b) * (a - b).

Definition ts_rank_cd (text : string) (q : tsquery) : Q :=
  inject_Z (Z.of_nat (List.length (filter (includes (lower text)) q))) / 10.

Definition row (id : Z) (text : string) (e : option vector)
  : segment vector :=
  {| seg_columns :=
       {| col_id := id; col_episode_id := 1; col_segment_key := "k";
          col_speaker := "Lenny"; col_timestamp_seconds := 0;
          col_text := text |};
     seg_embedding := e |}.

Definition or_query : string -> tsquery :=
  text_to_or_tsquery tsquery to_tsquery_english to_tsquery_blank tsquery_or.

Definition search : list (segment vector) -> string -> vector -> nat ->
                    Q -> Q -> Q -> list result_row :=
  hybrid_search tsquery to_tsquery_english to_tsquery_blank tsquery_or
    ts_match vector cosine_distance ts_rank_cd.


(** Two segments found by both paths, one without embedding, one found by
    the vector path only. *)
Definition onboarding : list (segment vector) :=
  [row 1 "onboarding flow" (Some 0); row 2 "the onboarding" (Some (1 # 10));
   row 3 "flow state" None; row 4 "pricing" (Some (1 # 2))].

Definition second_segment : segment vector :=
  row 2 "the onboarding" (Some (1 # 10)).



Lemma ts_match_or (text : string) (a b : tsquery) :
  ts_match text (tsquery_or a b) = ts_match text a || ts_match text b.
Proof. apply existsb_app. Qed.

Example or_query_onboarding :
  or_query "I'm building an onboarding flow" =
  ["building"; "onboarding"; "flow"].
Proof. vm_compute. reflexivity. Qed.

Example search_onboarding :
  map r_id (search onboarding "onboarding flow" 0 5 0.7 0.3 0) =
  [1%Z; 2%Z; 4%Z].
Proof. vm_compute. reflexivity. Qed.

(** With a threshold of 0.99 segment 2 is found by the lexical path only;
    its row still carries its cosine similarity. *)
Example search_keyword_only_candidate :
  map (fun r => (r_id r, Qeq_bool (semantic_similarity r) 0.99,
                 Qeq_bool (keyword_rank r) 0.5))
      (search onboarding "onboarding flow" 0 5 0.7 0.3 0.99) =
  [(1%Z, false, false); (2%Z, true, true)].
Proof. vm_compute. reflexivity. Qed.


Lemma text_to_or_tsquery_any_token_witness :
  or_query "I'm building an onboarding flow" =
    ["building"; "onboarding"; "flow"] /\
  ts_match "Our onboarding checklist"
    (or_query "I'm building an onboarding flow") = true.
Proof.
  destruct (text_to_or_tsquery_any_token tsquery to_tsquery_english
              to_tsquery_blank tsquery_or ts_match ts_match_or
              "I'm building an onboarding flow") as [_ [_ [H1 [_ H2]]]].
  split.
  - unfold or_query. rewrite H1. reflexivity.
  - unfold or_query. rewrite H2; [reflexivity|discriminate].
Defined.

Lemma keyword_rank_normalization_witness :
  Forall (fun k => 0 <= kw_normalized_rank k <= 1)
    (keyword tsquery ts_match vector ts_rank_cd
       (or_query "onboarding flow") onboarding).
Proof.
  apply (keyword_rank_normalization tsquery ts_match vector ts_rank_cd
           (or_query "onboarding flow") onboarding).
  intros s Hs. vm_compute in Hs.
  repeat (destruct Hs as [<-|Hs]; [vm_compute; discriminate|]).
  destruct Hs.
Defined.






Lemma hybrid_search_fused_ranking_witness :
  Forall (fun r => combined_score r =
                   semantic_similarity r * 0.7 + keyword_rank r * 0.3)
    (search onboarding "onboarding flow" 0 5 0.7 0.3 0.99) /\
  Nat.le
    (List.length (search onboarding "onboarding flow" 0 5 0.7 0.3 0.99))
    5%nat.
Proof.
  destruct (hybrid_search_fused_ranking tsquery to_tsquery_english
              to_tsquery_blank tsquery_or ts_match vector cosine_distance
              ts_rank_cd onboarding "onboarding flow" 0 5%nat 0.7 0.3 0.99)
    as [Hfused [_ [Hin [_ [Hlen _]]]]].
  split; [|exact Hlen].
  apply Forall_forall. intros r Hr. apply Hin in Hr.
  rewrite Forall_forall in Hfused. now apply Hfused.
Defined.

(** C1, refuted as stated. With a threshold of 0.99 segment 2 is not
    returned by the vector path and matches the lexical query with
    normalised rank 0.5.  With the missing semantic score counted as 0
    its fused score is 0 * 0.7 + 0.5 * 0.3 = 0.15; [hybrid_search] fuses
    it with its cosine similarity 0.99 and returns it with 0.843. *)
Lemma lexical_only_candidate_keeps_similarity :
  ~ In 2%Z (map c_id (semantic vector cosine_distance 0 5 0.99 onboarding)) /\
  In 2%Z (map kw_id (keyword tsquery ts_match vector ts_rank_cd
                       (or_query "onboarding flow") onboarding)) /\
  fused_score_missing_as_zero
    (semantic vector cosine_distance 0 5 0.99 onboarding)
    (keyword tsquery ts_match vector ts_rank_cd
       (or_query "onboarding flow") onboarding) 0.7 0.3 2 == 0.15 /\
  exists r,
    rows_of 2 (search onboarding "onboarding flow" 0 5 0.7 0.3 0.99) = [r] /\
    semantic_similarity r == 0.99 /\ keyword_rank r == 0.5 /\
    combined_score r == 0.843 /\
    ~ combined_score r ==
      fused_score_missing_as_zero
        (semantic vector cosine_distance 0 5 0.99 onboarding)
        (keyword tsquery ts_match vector ts_rank_cd
           (or_query "onboarding flow") onboarding) 0.7 0.3 2.
Proof.
  split; [|split; [|split]].
  - vm_compute. intuition discriminate.
  - vm_compute. auto.
  - vm_compute. reflexivity.
  - eexists. split; [vm_compute; reflexivity|].
    split; [vm_compute; reflexivity|]. split; [vm_compute; reflexivity|].
    split; [vm_compute; reflexivity|].
    vm_compute. discriminate.
Qed.

Lemma both_paths_merged_once_witness :
  exists r,
    r_id r = 2%Z /\ semantic_similarity r == 0.99 /\ keyword_rank r == 0.5 /\
    rows_of 2 (search onboarding "onboarding flow" 0 5 0.7 0.3 0) = [r].
Proof.
  destruct (both_paths_merged_once tsquery to_tsquery_english
              to_tsquery_blank tsquery_or ts_match vector cosine_distance
              ts_rank_cd onboarding "onboarding flow" 0 5%nat 0.7 0.3 0
              second_segment)
    as [e [r [He [Hcol [Hsim [Hkw [_ [_ [Hout|Hout]]]]]]]]].
  - repeat constructor; simpl; intuition discriminate.
  - simpl. auto.
  - vm_compute. auto.
  - reflexivity.
  - exists r. injection He as <-.
    split; [unfold r_id; rewrite Hcol; reflexivity|].
    split; [rewrite Hsim; reflexivity|].
    split; [rewrite Hkw; reflexivity|exact Hout].
  - vm_compute in Hout. discriminate.
Defined.

(** C3, refuted as stated. With [match_count = 1] segment 2 is returned by
    the vector path and matches the lexical query, and yet it is absent
    from the result: the limit keeps the row of segment 1 only. *)
Lemma merged_row_cut_by_limit :
  NoDup (map (seg_id vector) onboarding) /\
  In second_segment onboarding /\
  In (seg_id vector second_segment)
     (map c_id (semantic vector cosine_distance 0 1 0 onboarding)) /\
  In (seg_id vector second_segment)
     (map kw_id (keyword tsquery ts_match vector ts_rank_cd
                   (or_query "onboarding flow") onboarding)) /\
  map r_id (search onboarding "onboarding flow" 0 1 0.7 0.3 0) = [1%Z] /\
  rows_of 2 (search onboarding "onboarding flow" 0 1 0.7 0.3 0) = [].
Proof.
  split; [|split; [|split; [|split; [|split]]]].
  - repeat constructor; simpl; intuition discriminate.
  - simpl. auto.
  - vm_compute. auto.
  - vm_compute. auto.
  - vm_compute. reflexivity.
  - vm_compute. reflexivity.
Qed.

(** A database whose [hybrid_search] call fails with [message] while
    [match_segments] works on the table [segments]. *)
Definition hybrid_failing (message : string) (segments : list (segment vector))
  : supabase vector :=
  {| rpc_hybrid_search := fun _ _ _ _ _ _ =>
       {| data := None; error := Some message |};
     rpc_match_segments := fun embedding match_threshold match_count =>
       {| data := Some (match_segments vector cosine_distance segments
                          embedding match_threshold match_count);
          error := None |} |}.

Definition no_options : search_options :=
  {| matchCount := None; semanticWeight := None; keywordWeight := None;
     matchThreshold := None |}.

Definition missing_function : string :=
  "Could not find the function public.hybrid_search in the schema cache".

Definition statement_timeout : string :=
  "canceling statement due to statement timeout".

Lemma searchSegments_fallback_witness :
  exists rows,
    searchSegments vector (hybrid_failing missing_function onboarding)
      "onboarding flow" 0 no_options = Returned (map inr rows) /\
    StronglySorted (fun a b => similarity b <= similarity a) rows /\
    (List.length rows <= 20)%nat.
Proof.
  destruct (searchSegments_fallback vector cosine_distance
              (hybrid_failing missing_function onboarding)
              "onboarding flow" 0 no_options missing_function eq_refl)
    as [_ H].
  destruct (H eq_refl) as [_ [_ Hrows]].
  exact (Hrows onboarding eq_refl).
Defined.

(** C6, refuted as stated. The lexical path fails with a statement
    timeout while [match_segments] is available: [searchSegments] does not
    fall back, it throws. *)
Lemma lexical_error_is_thrown :
  searchSegments vector (hybrid_failing statement_timeout onboarding)
    "onboarding flow" 0 no_options =
  Thrown "Search failed: canceling statement due to statement timeout" /\
  error (rpc_match_segments vector
           (hybrid_failing statement_timeout onboarding) 0 0 20%nat) = None.
Proof. split; reflexivity. Qed.

(** *** Samples for the further properties *)

Lemma hybrid_search_no_duplicates_witness :
  NoDup (map r_id (search onboarding "onboarding flow" 0 5 0.7 0.3 0)).
Proof.
  apply (hybrid_search_no_duplicates tsquery to_tsquery_english
           to_tsquery_blank tsquery_or ts_match vector cosine_distance
           ts_rank_cd onboarding "onboarding flow" 0 5%nat 0.7 0.3 0).
  repeat constructor; simpl; intuition discriminate.
Defined.

Lemma match_segments_above_threshold_witness :
  NoDup (map (fun r => col_id (m_columns r))
           (match_segments vector cosine_distance onboarding 0 0.3 20)).
Proof.
  destruct (match_segments_above_threshold vector cosine_distance
              onboarding 0 0.3 20%nat) as [_ [_ [_ Hunique]]].
  apply Hunique.
  repeat constructor; simpl; intuition discriminate.
Defined.

Lemma best_keyword_rank_is_one_witness :
  Exists (fun k => kw_normalized_rank k == 1)
    (keyword tsquery ts_match vector ts_rank_cd
       (or_query "onboarding flow") onboarding).
Proof.
  apply (best_keyword_rank_is_one tsquery ts_match vector ts_rank_cd
           (or_query "onboarding flow") onboarding second_segment).
  - vm_compute. auto.
  - vm_compute. reflexivity.
Defined.

(** A database that answers both calls from the table [onboarding], an
    embedding model that maps every query to 0, and an [episodes] query
    with a fixed answer. *)
Definition working : supabase vector :=
  {| rpc_hybrid_search :=
       fun query_text embedding match_count semantic_weight keyword_weight
           match_threshold =>
       {| data := Some (search onboarding query_text embedding match_count
                          semantic_weight keyword_weight match_threshold);
          error := None |};
     rpc_match_segments := fun embedding match_threshold match_count =>
       {| data := Some (match_segments vector cosine_distance onboarding
                          embedding match_threshold match_count);
          error := None |} |}.

Definition site (episodes : option (list Search.episode))
  : Search.services vector :=
  {| Search.database := working;
     Search.generateEmbedding := fun _ => Returned 0;
     Search.episodes_in := fun _ => episodes |}.

Definition no_jsonb (_ : Z) : Search.json_columns :=
  {| Search.claims_column := None; Search.frameworks_column := None;
     Search.advice_column := None; Search.stories_column := None;
     Search.references_column := None |}.

Definition growth_episode : Search.episode :=
  {| Search.ep_id := 1; Search.ep_title := "Growth loops";
     Search.ep_guest := "Elena Verna";
     Search.ep_guest_slug := "elena-verna"; Search.ep_video_id := "abc";
     Search.ep_youtube_url := "https://www.youtube.com/watch?v=abc" |}.

Definition two_of (slug : string) : Search.SearchOptions :=
  {| Search.limit := Some 2%nat; Search.threshold := None;
     Search.guestFilter := Some slug; Search.semanticWeight := None;
     Search.keywordWeight := None; Search.semanticOnly := None |}.

Definition site_results : list Search.SearchResult :=
  Eval vm_compute in
    match Search.search vector no_jsonb (site (Some [growth_episode]))
            "onboarding flow" (two_of "elena-verna") with
    | Returned results => results
    | Thrown _ => []
    end.

Definition site_rows : list (result_row + match_row) :=
  Eval vm_compute in
    match Search.fetch_rows vector (site None) "onboarding flow"
            (two_of "elena-verna") with
    | Returned rows => rows
    | Thrown _ => []
    end.

Example site_results_ids :
  map Search.id site_results = [1%Z; 2%Z] /\
  List.length site_rows = 2%nat.
Proof. vm_compute. split; reflexivity. Qed.

Lemma search_results_within_limit_witness :
  (List.length site_results <= 2)%nat /\
  Forall (fun sr => Search.guestSlug sr = "elena-verna") site_results.
Proof.
  destruct (Search.search_results_within_limit vector no_jsonb
              (site (Some [growth_episode])) "onboarding flow"
              (two_of "elena-verna") site_results)
    as [rows [_ [Hlen [_ Hguest]]]].
  - vm_compute. reflexivity.
  - split; [exact Hlen|].
    apply (Hguest "elena-verna"); [reflexivity|discriminate].
Defined.

Lemma search_without_episodes_witness :
  Search.search vector no_jsonb (site None) "onboarding flow"
    (two_of "elena-verna") = Returned [].
Proof.
  apply (Search.search_without_episodes vector no_jsonb (site None)
           "onboarding flow" (two_of "elena-verna") site_rows).
  - vm_compute. reflexivity.
  - intros r e _ He. simpl in He. contradiction.
Defined.

End Sample.
